(** * Fluoride: the dependency-injection graph, its builder and its scopes

    A shallow embedding of [packages/fluoride/index.ts].  JavaScript objects
    that the library allocates (the [Map]s of builders and graphs, the
    [Map]/[WeakMap] caches of the scopes, [Graph] objects with their hidden
    symbol-keyed properties, constructed instances) live in an explicit heap;
    every library function is a computation in a state-and-exception monad
    over that heap. *)

From stdpp Require Import gmap list.

(** ** Values *)

Abbreviation Loc := nat (only parsing).

(** An interface token is a class (a constructor function) used as a map
    key; only its identity matters. *)
Abbreviation Iface := nat (only parsing).
Abbreviation ClassName := nat (only parsing).

(** A [Graph] is a reference to a graph object of the heap. *)
Abbreviation Graph := nat (only parsing).

(** The two module-level symbols of [namespace scopes]. *)
Inductive Symbol := singletonSymbol | weakSymbol.

Global Instance Symbol_eq_dec : EqDecision Symbol.
Proof. solve_decision. Defined.

Global Instance Symbol_countable : Countable Symbol.
Proof.
  refine (inj_countable' (λ y, match y with singletonSymbol => 0 | weakSymbol => 1 end)
            (λ n, match n with 0 => singletonSymbol | _ => weakSymbol end) _).
  by intros [].
Defined.

(** The JavaScript values that flow through [resolve]: an instance made by
    [new ctor(..)] (its class and its identity), or the function
    [scopes.singleton] itself (which [scopes.weak] stores in its cache). *)
Inductive Value :=
| VObj (cls : ClassName) (o : Loc)
| VSingletonFn.

Global Instance Value_eq_dec : EqDecision Value.
Proof. solve_decision. Defined.

Definition is_instance (v : Value) : Prop :=
  match v with VObj _ _ => True | VSingletonFn => False end.

(** The body of a constructor, as far as the graph can observe it: it
    resolves interfaces from the graph it received and continues with the
    resolved value, it throws, or it is done. *)
Inductive Body :=
| Done
| Resolve (iface : Iface) (k : Value → Body)
| Fail.

Record Class := { c_name : ClassName; c_body : Body }.

Inductive Scope := ScopeNone | ScopeSingleton | ScopeWeak.

Global Instance Scope_eq_dec : EqDecision Scope.
Proof. solve_decision. Defined.

(** A bound provider is the closure [scope(graph => new ctor(graph))] made by
    [add], or [scope(() => new ctor())] made by [start]; [p_graph] tells
    whether the constructor receives the graph. *)
Record Provider := { p_scope : Scope; p_ctor : Class; p_graph : bool }.

Inductive CacheKind := KMap | KWeakMap.

Global Instance CacheKind_eq_dec : EqDecision CacheKind.
Proof. solve_decision. Defined.

Record Cache := { c_kind : CacheKind; c_entries : gmap Iface Value }.

(** A graph object: its private field [map] and its own symbol-keyed
    properties (defined non-configurable, non-writable). *)
Record GraphObj := { g_map : Loc; g_props : gmap Symbol Loc }.

Record GraphBuilder := { b_map : Loc }.

(** What is thrown: the [Error] of [resolve] with its interface, the
    [TypeError] of [Object.defineProperty] on a property that cannot be
    redefined, the [TypeError] of reading through [undefined], and what a
    constructor throws itself. *)
Inductive Error :=
| UnsatisfiedDependency (iface : Iface)
| TypeError_redefine (sym : Symbol)
| TypeError_undefined
| ConstructorError (cls : ClassName).

Global Instance Error_eq_dec : EqDecision Error.
Proof. solve_decision. Defined.

(** ** The heap *)

(** [maps]: the [Map] objects of builders and graphs; [caches]: the [Map]
    and [WeakMap] objects the scopes create; [graphs]: the graph objects;
    [next]: the next free object identity, shared by all objects;
    [log]: one entry for every invocation of a maker, newest first, with the
    graph it received, the interface it is bound to and the class it
    constructs (a trace; no code reads it). *)
Record State := {
  maps : gmap Loc (gmap Iface Provider);
  caches : gmap Loc Cache;
  graphs : gmap Loc GraphObj;
  next : Loc;
  log : list (Graph * Iface * ClassName)
}.

Definition initial : State :=
  {| maps := ∅; caches := ∅; graphs := ∅; next := 0; log := [] |}.

Definition set_maps (f : gmap Loc (gmap Iface Provider) → gmap Loc (gmap Iface Provider))
    (s : State) : State :=
  {| maps := f (maps s); caches := caches s; graphs := graphs s;
     next := next s; log := log s |}.

Definition set_caches (f : gmap Loc Cache → gmap Loc Cache) (s : State) : State :=
  {| maps := maps s; caches := f (caches s); graphs := graphs s;
     next := next s; log := log s |}.

Definition set_graphs (f : gmap Loc GraphObj → gmap Loc GraphObj) (s : State) : State :=
  {| maps := maps s; caches := caches s; graphs := f (graphs s);
     next := next s; log := log s |}.

Definition bump (s : State) : State :=
  {| maps := maps s; caches := caches s; graphs := graphs s;
     next := S (next s); log := log s |}.

Definition push_log (e : Graph * Iface * ClassName) (s : State) : State :=
  {| maps := maps s; caches := caches s; graphs := graphs s;
     next := next s; log := e :: log s |}.

(** ** The monad: state, exceptions, and a bounded call stack *)

(** A call returns, throws, or exceeds the call stack ([Overflow], when the
    fuel of [resolve] runs out). *)
Inductive Outcome (A : Type) :=
| Return (a : A) (s : State)
| Throw (e : Error) (s : State)
| Overflow.

Arguments Return {A} a s.
Arguments Throw {A} e s.
Arguments Overflow {A}.

Definition M (A : Type) := State → Outcome A.

Definition ret {A} (a : A) : M A := λ s, Return a s.
Definition throw {A} (e : Error) : M A := λ s, Throw e s.
Definition overflow {A} : M A := λ _, Overflow.

Definition bind {A B} (m : M A) (f : A → M B) : M B :=
  λ s, match m s with
       | Return a s' => f a s'
       | Throw e s' => Throw e s'
       | Overflow => Overflow
       end.

Notation "'let*' x ':=' m 'in' f" := (bind m (λ x, f))
  (at level 10, x name, m at level 100, f at level 200,
   format "'[v' 'let*'  x  :=  m  'in' '/' f ']'").

(** The state an outcome leaves behind, when there is one. *)
Definition final {A} (o : Outcome A) : option State :=
  match o with
  | Return _ s => Some s
  | Throw _ s => Some s
  | Overflow => None
  end.

(** ** Heap primitives *)

Definition fresh_loc : M Loc := λ s, Return (next s) (bump s).

(** [new Map(src)]: a new [Map] holding a copy of the entries of [src]
    ([new Map(undefined)] is empty). *)
Definition Map_new (content : gmap Iface Provider) : M Loc :=
  let* m := fresh_loc in
  λ s, Return m (set_maps <[m := content]> s).

Definition Map_entries (m : Loc) : M (gmap Iface Provider) :=
  λ s, Return (default ∅ (maps s !! m)) s.

Definition Map_copy (src : Loc) : M Loc :=
  let* content := Map_entries src in
  Map_new content.

Definition Map_get (m : Loc) (iface : Iface) : M (option Provider) :=
  λ s, match maps s !! m with
       | Some content => Return (content !! iface) s
       | None => Throw TypeError_undefined s
       end.

Definition Map_set (m : Loc) (iface : Iface) (p : Provider) : M unit :=
  λ s, match maps s !! m with
       | Some content => Return tt (set_maps <[m := <[iface := p]> content]> s)
       | None => Throw TypeError_undefined s
       end.

(** [new Map()] and [new WeakMap()] of the scopes. *)
Definition Cache_new (kind : CacheKind) : M Loc :=
  let* r := fresh_loc in
  λ s, Return r (set_caches <[r := {| c_kind := kind; c_entries := ∅ |}]> s).

Definition Cache_get (r : Loc) (iface : Iface) : M (option Value) :=
  λ s, match caches s !! r with
       | Some c => Return (c_entries c !! iface) s
       | None => Throw TypeError_undefined s
       end.

Definition Cache_set (r : Loc) (iface : Iface) (v : Value) : M unit :=
  λ s, match caches s !! r with
       | Some c =>
           Return tt (set_caches
             <[r := {| c_kind := c_kind c; c_entries := <[iface := v]> (c_entries c) |}]> s)
       | None => Throw TypeError_undefined s
       end.

(** [Object.getOwnPropertyDescriptor(graph, sym)]: the descriptor's value,
    or [None] for [undefined]. *)
Definition getOwnPropertyDescriptor (g : Graph) (sym : Symbol) : M (option Loc) :=
  λ s, match graphs s !! g with
       | Some go => Return (g_props go !! sym) s
       | None => Throw TypeError_undefined s
       end.

(** [Object.defineProperty(graph, sym, {configurable: false, enumerable:
    false, value})].  A property that exists is non-configurable and
    non-writable: defining it again succeeds only with the same value. *)
Definition defineProperty (g : Graph) (sym : Symbol) (value : Loc) : M unit :=
  λ s, match graphs s !! g with
       | Some go =>
           match g_props go !! sym with
           | None =>
               Return tt (set_graphs
                 <[g := {| g_map := g_map go; g_props := <[sym := value]> (g_props go) |}]> s)
           | Some old =>
               if decide (old = value) then Return tt s
               else Throw (TypeError_redefine sym) s
           end
       | None => Throw TypeError_undefined s
       end.

Definition log_invocation (g : Graph) (iface : Iface) (cls : ClassName) : M unit :=
  λ s, Return tt (push_log (g, iface, cls) s).

(** ** Constructors *)

(** Running the body of a constructor; [res] is [graph.resolve]. *)
Fixpoint run_body (cls : ClassName) (res : Iface → M Value) (b : Body) : M unit :=
  match b with
  | Done => ret tt
  | Resolve iface k => let* v := res iface in run_body cls res (k v)
  | Fail => throw (ConstructorError cls)
  end.

(** [new ctor(graph)]: the object is allocated, the body runs, and the
    object is the result. *)
Definition new_instance (res : Iface → M Value) (ctor : Class) : M Value :=
  let* o := fresh_loc in
  let* _ := run_body (c_name ctor) res (c_body ctor) in
  ret (VObj (c_name ctor) o).

Definition Maker := Graph → M Value.

(** ** Scopes *)

Module scopes.

(** Every value that a scope tests with [||] or [&&] is an object or a
    function, hence truthy: [x || y] is [x] when [x] is there, and [y]
    (evaluated only then) when [x] is [undefined]. *)

Definition none (maker : Maker) (graph : Graph) (_iface : Iface) : M Value :=
  maker graph.

Definition singleton (maker : Maker) (graph : Graph) (iface : Iface) : M Value :=
  let* descriptor := getOwnPropertyDescriptor graph singletonSymbol in
  let* singletonMap := match descriptor with
                       | Some value => ret value
                       | None => Cache_new KMap
                       end in
  let* _ := match descriptor with
            | None => defineProperty graph singletonSymbol singletonMap
            | Some _ => ret tt
            end in
  let* cached := Cache_get singletonMap iface in
  let* value := match cached with
                | Some v => ret v
                | None => maker graph
                end in
  let* _ := Cache_set singletonMap iface value in
  ret value.

Definition weak (maker : Maker) (graph : Graph) (iface : Iface) : M Value :=
  let* descriptor := getOwnPropertyDescriptor graph weakSymbol in
  let* weakMap := match descriptor with
                  | Some value => ret value
                  | None => Cache_new KWeakMap
                  end in
  let* _ := match descriptor with
            | None => defineProperty graph singletonSymbol weakMap
            | Some _ => ret tt
            end in
  let* cached := Cache_get weakMap iface in
  let* value := match cached with
                | Some v => ret v
                | None => maker graph
                end in
  let* _ := Cache_set weakMap iface VSingletonFn in
  ret value.

End scopes.

Definition apply_scope (sc : Scope) : Maker → Graph → Iface → M Value :=
  match sc with
  | ScopeNone => scopes.none
  | ScopeSingleton => scopes.singleton
  | ScopeWeak => scopes.weak
  end.

(** ** Graph *)

(** The maker closed over by a provider: [graph => new ctor(graph)] for
    [add], [() => new ctor()] for [start].  [rec] is the [resolve] method
    available to the constructor; the invocation is recorded in the log
    under the interface the provider is bound to. *)
Definition maker_of (rec : Graph → Iface → M Value) (p : Provider) (iface : Iface)
    : Maker :=
  λ graph,
    let* _ := log_invocation graph iface (c_name (p_ctor p)) in
    new_instance
      (if p_graph p then rec graph else λ _, throw TypeError_undefined)
      (p_ctor p).

(** Calling a bound provider: [provider(this, iface)]. *)
Definition call_provider (rec : Graph → Iface → M Value) (p : Provider)
    (g : Graph) (iface : Iface) : M Value :=
  apply_scope (p_scope p) (maker_of rec p iface) g iface.

(** [this.map] of a graph object. *)
Definition Graph_map (g : Graph) : M Loc :=
  λ s, match graphs s !! g with
       | Some go => Return (g_map go) s
       | None => Throw TypeError_undefined s
       end.

(** [Graph.resolve]; [fuel] bounds the depth of nested resolutions. *)
Fixpoint resolve (fuel : nat) (g : Graph) (iface : Iface) : M Value :=
  let* m := Graph_map g in
  let* provider := Map_get m iface in
  match provider with
  | None => throw (UnsatisfiedDependency iface)
  | Some p =>
      match fuel with
      | 0 => overflow
      | S fuel' => call_provider (resolve fuel') p g iface
      end
  end.

(** [new Graph(map)] *)
Definition Graph_new (map : Loc) : M Graph :=
  let* g := fresh_loc in
  let* m := Map_copy map in
  λ s, Return g (set_graphs <[g := {| g_map := m; g_props := ∅ |}]> s).

(** [Graph.modify] *)
Definition modify (g : Graph) : M GraphBuilder :=
  let* m := Graph_map g in
  ret {| b_map := m |}.

(** ** GraphBuilder *)

(** [GraphBuilder.start]; the constructor is called without a graph. *)
Definition start (impl : Iface) (ctor : Class) (scope : Scope) : M GraphBuilder :=
  let* map := Map_new ∅ in
  let* _ := Map_set map impl {| p_scope := scope; p_ctor := ctor; p_graph := false |} in
  ret {| b_map := map |}.

(** [GraphBuilder.add] *)
Definition add (b : GraphBuilder) (impl : Iface) (ctor : Class) (scope : Scope)
    : M GraphBuilder :=
  let* map := Map_copy (b_map b) in
  let* _ := Map_set map impl {| p_scope := scope; p_ctor := ctor; p_graph := true |} in
  ret {| b_map := map |}.

(** [GraphBuilder.build] *)
Definition build (b : GraphBuilder) : M Graph :=
  Graph_new (b_map b).

(** ** The coffee shop of [packages/examples/coffee-shop.ts] *)

Module CoffeeShop.
Definition Heater : Iface := 1.
Definition Pump : Iface := 2.
Definition CoffeeMaker : Iface := 3.

Definition ElectricHeater : Class := {| c_name := 11; c_body := Done |}.
Definition Thermosiphon : Class :=
  {| c_name := 12; c_body := Resolve Heater (λ _, Done) |}.
Definition CoffeeMakerC : Class :=
  {| c_name := 13; c_body := Resolve Pump (λ _, Done) |}.

Definition shop (sc : Scope) : M Graph :=
  let* b0 := start Heater ElectricHeater ScopeNone in
  let* b1 := add b0 Pump Thermosiphon ScopeNone in
  let* b2 := add b1 CoffeeMaker CoffeeMakerC sc in
  build b2.
End CoffeeShop.

(** ** Reading the heap *)

(** The value of the own property [sym] of graph [g]. *)
Definition prop_of (s : State) (g : Graph) (sym : Symbol) : option Loc :=
  match graphs s !! g with
  | Some go => g_props go !! sym
  | None => None
  end.

(** The entry of cache [r] for [iface]. *)
Definition slot (s : State) (r : Loc) (iface : Iface) : option Value :=
  match caches s !! r with
  | Some c => c_entries c !! iface
  | None => None
  end.

(** What the cache registered on [g] under [singletonSymbol] holds for
    [iface]. *)
Definition cached (s : State) (g : Graph) (iface : Iface) : option Value :=
  match prop_of s g singletonSymbol with
  | Some r => slot s r iface
  | None => None
  end.

(** The bindings a graph resolves from. *)
Definition bindings (s : State) (g : Graph) : option (gmap Iface Provider) :=
  match graphs s !! g with
  | Some go => maps s !! g_map go
  | None => None
  end.

Definition bound (s : State) (g : Graph) (iface : Iface) (p : Provider) : Prop :=
  ∃ m, bindings s g = Some m ∧ m !! iface = Some p.

(** The bindings a builder has accumulated. *)
Definition builder_bindings (s : State) (b : GraphBuilder) : gmap Iface Provider :=
  default ∅ (maps s !! b_map b).

(** How often the maker bound to [iface] in [g] has been invoked. *)
Definition invocations (s : State) (g : Graph) (iface : Iface) : nat :=
  length (filter (λ e, e.1 = (g, iface)) (log s)).

(** ** Operations of a client, and the states it can reach *)

Inductive Op :=
| OpStart (impl : Iface) (ctor : Class) (scope : Scope)
| OpAdd (b : GraphBuilder) (impl : Iface) (ctor : Class) (scope : Scope)
| OpBuild (b : GraphBuilder)
| OpModify (g : Graph)
| OpResolve (fuel : nat) (g : Graph) (iface : Iface).

Definition exec_op (op : Op) (s : State) : option State :=
  match op with
  | OpStart impl ctor scope => final (start impl ctor scope s)
  | OpAdd b impl ctor scope => final (add b impl ctor scope s)
  | OpBuild b => final (build b s)
  | OpModify g => final (modify g s)
  | OpResolve fuel g iface => final (resolve fuel g iface s)
  end.

Fixpoint exec_ops (ops : list Op) (s : State) : option State :=
  match ops with
  | [] => Some s
  | op :: ops' =>
      match exec_op op s with
      | Some s' => exec_ops ops' s'
      | None => None
      end
  end.

(** ** Well-formed heaps *)

Record wf (s : State) : Prop := {
  wf_maps : ∀ m c, maps s !! m = Some c → m < next s;
  wf_caches : ∀ r c, caches s !! r = Some c → r < next s;
  wf_graphs : ∀ g go, graphs s !! g = Some go →
    g < next s ∧ is_Some (maps s !! g_map go) ∧ g_props go !! weakSymbol = None;
  wf_props : ∀ g sym r, prop_of s g sym = Some r → is_Some (caches s !! r);
  wf_objs : ∀ r i cls o, slot s r i = Some (VObj cls o) → o < next s;
  wf_slot_inj : ∀ r1 i1 c1 r2 i2 c2 o,
    slot s r1 i1 = Some (VObj c1 o) → slot s r2 i2 = Some (VObj c2 o) →
    r1 = r2 ∧ i1 = i2;
  wf_prop_inj : ∀ g1 sym1 g2 sym2 r,
    prop_of s g1 sym1 = Some r → prop_of s g2 sym2 = Some r → g1 = g2;
  wf_fn : ∀ g sym r i, prop_of s g sym = Some r → slot s r i = Some VSingletonFn →
    ∃ p, bound s g i p ∧ p_scope p = ScopeWeak;
  wf_log : ∀ g i cls, (g, i, cls) ∈ log s → is_Some (graphs s !! g)
}.

(** [ext s s']: [s'] is a later heap than [s].  Maps and the [map] field of
    graphs are never written again, properties and cache entries that exist
    stay as they are, an object that is older than [s] sits in a cache
    slot of [s'] only if it sat there in [s], and a singleton-scoped maker
    whose instance is cached in [s] has not been invoked since. *)
Record ext (s s' : State) : Prop := {
  ext_next : next s ≤ next s';
  ext_maps : ∀ m c, maps s !! m = Some c → maps s' !! m = Some c;
  ext_graphs : ∀ g go, graphs s !! g = Some go →
    ∃ go', graphs s' !! g = Some go' ∧ g_map go' = g_map go;
  ext_props : ∀ g sym r, prop_of s g sym = Some r → prop_of s' g sym = Some r;
  ext_caches : ∀ r c, caches s !! r = Some c →
    ∃ c', caches s' !! r = Some c' ∧ c_kind c' = c_kind c;
  ext_slots : ∀ r i v, slot s r i = Some v → slot s' r i = Some v;
  ext_old : ∀ r i c o, slot s' r i = Some (VObj c o) → o < next s →
    slot s r i = Some (VObj c o);
  ext_log : ∃ l, log s' = l ++ log s;
  ext_quiet : ∀ g i p v, bound s g i p → p_scope p = ScopeSingleton →
    cached s g i = Some v → invocations s' g i = invocations s g i
}.

(** The postcondition of a computation: [Q] on return, [E] on an
    exception. *)
Definition post {A} (o : Outcome A) (Q : A → State → Prop) (E : Error → State → Prop)
    : Prop :=
  match o with
  | Return a s => Q a s
  | Throw e s => E e s
  | Overflow => True
  end.

(** A resolver that keeps the heap well formed. *)
Definition sound (rec : Graph → Iface → M Value) : Prop :=
  ∀ g i s, wf s →
    post (rec g i s) (λ _ s', wf s' ∧ ext s s') (λ _ s', wf s' ∧ ext s s').

(** ** Acyclic bindings *)

(** [acyclic m rk n b]: along every path of the body [b], each interface
    resolved is bound in [m] by a provider that is not weak-scoped, has a
    rank below [n], and the constructor bound to it is acyclic below its own
    rank; no path fails. *)
Inductive acyclic (m : gmap Iface Provider) (rk : Iface → nat) : nat → Body → Prop :=
| acyclic_Done n : acyclic m rk n Done
| acyclic_Resolve n i k p :
    m !! i = Some p →
    p_scope p ≠ ScopeWeak →
    rk i < n →
    (p_graph p = true → acyclic m rk (rk i) (c_body (p_ctor p))) →
    (p_graph p = false → c_body (p_ctor p) = Done) →
    (∀ v, acyclic m rk n (k v)) →
    acyclic m rk n (Resolve i k).

(** The provider bound to [i] can be resolved with a call stack of depth
    [rk i + 1]. *)
Definition resolvable (m : gmap Iface Provider) (rk : Iface → nat) (i : Iface) : Prop :=
  acyclic m rk (S (rk i)) (Resolve i (λ _, Done)).

(** ** Heap updates, named *)

(** The heap after [caches[r] := c]. *)
Definition with_cache (r : Loc) (c : Cache) (s : State) : State :=
  set_caches <[r := c]> s.

Definition empty_cache (k : CacheKind) : Cache := {| c_kind := k; c_entries := ∅ |}.

(** The heap after property [sym] of graph [g] was defined with value [r]. *)
Definition with_prop (g : Graph) (go : GraphObj) (sym : Symbol) (r : Loc) (s : State) : State :=
  set_graphs <[g := {| g_map := g_map go; g_props := <[sym := r]> (g_props go) |}]> s.

(** The heap after [r.set(i, v)] on a cache [r] that held [c]. *)
Definition with_slot (r : Loc) (c : Cache) (i : Iface) (v : Value) (s : State) : State :=
  with_cache r {| c_kind := c_kind c; c_entries := <[i := v]> (c_entries c) |} s.

Definition with_map (m : Loc) (content : gmap Iface Provider) (s : State) : State :=
  set_maps <[m := content]> s.

Definition with_graph (g : Graph) (m : Loc) (s : State) : State :=
  set_graphs <[g := {| g_map := m; g_props := ∅ |}]> s.

(** The usual postcondition: the heap is well formed and later. *)
Definition keeps {A} (s : State) (_ : A) (s' : State) : Prop := wf s' ∧ ext s s'.

(** What the maker of the provider [p] bound to [i] in [g] guarantees when
    no instance is cached for it: a new instance of its class, allocated
    during the call and held by no cache. *)
Definition maker_spec (maker : Maker) (g : Graph) (i : Iface) (p : Provider) : Prop :=
  ∀ s, wf s → bound s g i p →
    (p_scope p = ScopeSingleton → cached s g i = None) →
    post (maker g s)
      (λ v s', wf s' ∧ ext s s' ∧
         ∃ o, v = VObj (c_name (p_ctor p)) o ∧ next s ≤ o ∧ o < next s' ∧
              ∀ r i c, slot s' r i ≠ Some (VObj c o))
      (keeps s).

(** ** What a constructor requires *)

(** [requires b j]: some path of the body [b] resolves [j]. *)
Inductive requires : Body → Iface → Prop :=
| requires_here j k : requires (Resolve j k) j
| requires_later i k v j : requires (k v) j → requires (Resolve i k) j.

(** ** Heaps of the coffee shop *)

(** The heap after [m] ran in the empty heap. *)
Definition heap_after {A} (m : M A) : State := default initial (final (m initial)).

Definition shop_graph : Graph := 3.
Definition shop_heap (sc : Scope) : State := heap_after (CoffeeShop.shop sc).
Definition shop_bindings (sc : Scope) : gmap Iface Provider :=
  default ∅ (bindings (shop_heap sc) shop_graph).

(** A builder with the heater alone. *)
Definition heater_builder : GraphBuilder := {| b_map := 0 |}.
Definition heater_heap : State :=
  heap_after (start CoffeeShop.Heater CoffeeShop.ElectricHeater ScopeNone).

(** ** Total resolutions *)

(** The body of the constructor bound to [i] runs to its end, and invokes
    no maker of the rank of [i] or above. *)
Definition body_total (g : Graph) (m : gmap Iface Provider) (rk : Iface → nat)
    (res : Iface → M Value) (i : Iface) (p : Provider) : Prop :=
  ∀ s1, wf s1 → bindings s1 g = Some m →
    ∃ s2, run_body (c_name (p_ctor p)) res (c_body (p_ctor p)) s1 = Return tt s2 ∧
      wf s2 ∧ ext s1 s2 ∧
      ∀ j, rk i ≤ rk j → invocations s2 g j = invocations s1 g j.

(** What a resolution that returns has done. *)
Definition resolved (g : Graph) (rk : Iface → nat) (i : Iface) (p : Provider)
    (s : State) (v : Value) (s' : State) : Prop :=
  wf s' ∧ ext s s' ∧
  (∀ j, rk i < rk j → invocations s' g j = invocations s g j) ∧
  match p_scope p, cached s g i with
  | ScopeSingleton, Some v0 => v = v0 ∧ s' = s
  | _, _ =>
      (∃ o, v = VObj (c_name (p_ctor p)) o ∧ next s ≤ o ∧ o < next s') ∧
      invocations s' g i = S (invocations s g i)
  end.

(** ** Call stacks *)

(** [below o o']: the outcome [o] is [o'], unless the call stack was
    exceeded. *)
Definition below {A} (o o' : Outcome A) : Prop := o = Overflow ∨ o = o'.

(** ** At most one invocation *)

(** The invariant of a singleton-scoped interface [i] of graph [g] with
    bindings [m]: its maker has been invoked at most [c0] times while no
    instance is cached, and at most once more when one is. *)
Definition once_inv (g : Graph) (m : gmap Iface Provider) (i : Iface) (c0 : nat)
    (s : State) : Prop :=
  wf s ∧ bindings s g = Some m ∧
  invocations s g i ≤ c0 + match cached s g i with Some _ => 1 | None => 0 end.

(** ** Resolving several times *)

(** [n] consecutive calls of [m], with their results in order: the loops of
    [coffee-shop.ts] around [coffeeShop.make()] and
    [coffeeLibrary.borrow()]. *)
Fixpoint times {A} (n : nat) (m : M A) : M (list A) :=
  match n with
  | 0 => ret []
  | S n' =>
      let* v := m in
      let* vs := times n' m in
      ret (v :: vs)
  end.

(** ** The callers of [packages/examples/coffee-shop.ts] *)

Module CoffeeApp.
Import CoffeeShop.

Definition GasHeater : Class := {| c_name := 14; c_body := Done |}.

(** The field [graph] of [class CoffeeShop]; [coin] is the outcome of
    [Math.random() > 0.5]. *)
Definition CoffeeShop_graph (coin : bool) : M Graph :=
  let* b0 := start Heater (if coin then ElectricHeater else GasHeater) ScopeNone in
  let* b1 := add b0 Pump Thermosiphon ScopeNone in
  let* b2 := add b1 CoffeeMaker CoffeeMakerC ScopeNone in
  build b2.

(** [CoffeeShop.make] *)
Definition make (fuel : nat) (graph : Graph) : M Value :=
  resolve fuel graph CoffeeMaker.

(** The field [graph] of [class CoffeeLibrary]. *)
Definition CoffeeLibrary_graph : M Graph :=
  let* b0 := start Heater ElectricHeater ScopeNone in
  let* b1 := add b0 Pump Thermosiphon ScopeNone in
  let* b2 := add b1 CoffeeMaker CoffeeMakerC ScopeSingleton in
  build b2.

(** [CoffeeLibrary.borrow] *)
Definition borrow (fuel : nat) (graph : Graph) : M Value :=
  resolve fuel graph CoffeeMaker.

End CoffeeApp.

(** The heap and the bindings of a coffee shop. *)
Definition app_heap (coin : bool) : State := heap_after (CoffeeApp.CoffeeShop_graph coin).
Definition app_bindings (coin : bool) : gmap Iface Provider :=
  default ∅ (bindings (app_heap coin) shop_graph).

(** ** What a resolution leaves alone *)

(** [untouched g' s s']: between [s] and [s'] nothing happened to the graph
    [g']: the graph object is the same, the caches registered on it are the
    same, and none of its makers has been invoked. *)
Definition untouched (g' : Graph) (s s' : State) : Prop :=
  graphs s' !! g' = graphs s !! g' ∧
  (∀ sym r, prop_of s g' sym = Some r → caches s' !! r = caches s !! r) ∧
  (∀ j, invocations s' g' j = invocations s g' j).


(** ** Instances of the bound class *)

(** [typed s]: an object cached for an interface of a graph is an instance
    of the class bound to that interface in the graph. *)
Definition typed (s : State) : Prop :=
  ∀ g i cls o, cached s g i = Some (VObj cls o) →
    ∃ p, bound s g i p ∧ cls = c_name (p_ctor p).

(** The heap is well formed, later and typed. *)
Definition keeps_typed {A} (s : State) (_ : A) (s' : State) : Prop :=
  wf s' ∧ ext s s' ∧ typed s'.

(** ** Heaps used as examples *)

(** A heater bound twice: the second binding wraps the interface it is
    bound to ([class HeaterWrapper { constructor(graph) { graph.resolve(Heater) } }]). *)
Definition HeaterWrapper : Class :=
  {| c_name := 15; c_body := Resolve CoffeeShop.Heater (λ _, Done) |}.

Definition wrapper_ops (sc : Scope) : list Op :=
  [OpStart CoffeeShop.Heater CoffeeShop.ElectricHeater ScopeNone;
   OpAdd {| b_map := 0 |} CoffeeShop.Heater HeaterWrapper sc;
   OpBuild {| b_map := 1 |}].

Definition wrapper_heap (sc : Scope) : State :=
  default initial (exec_ops (wrapper_ops sc) initial).

(** A weak-scoped heater under a pump of scope [sc], and a singleton-scoped
    coffee maker that needs nothing. *)
Definition Kettle : Class := {| c_name := 16; c_body := Done |}.

Definition weak_heater_ops (sc : Scope) : list Op :=
  [OpStart CoffeeShop.Heater CoffeeShop.ElectricHeater ScopeWeak;
   OpAdd {| b_map := 0 |} CoffeeShop.Pump CoffeeShop.Thermosiphon sc;
   OpAdd {| b_map := 1 |} CoffeeShop.CoffeeMaker Kettle ScopeSingleton;
   OpBuild {| b_map := 2 |}].

Definition weak_heater_heap (sc : Scope) : State :=
  default initial (exec_ops (weak_heater_ops sc) initial).

(** A coffee maker added to a builder that holds the heater alone: its
    constructor resolves [Pump], which is not bound. *)
Definition unmet_ops : list Op :=
  [OpStart CoffeeShop.Heater CoffeeShop.ElectricHeater ScopeNone;
   OpAdd {| b_map := 0 |} CoffeeShop.CoffeeMaker CoffeeShop.CoffeeMakerC ScopeNone;
   OpBuild {| b_map := 1 |}].

Definition unmet_heap : State := default initial (exec_ops unmet_ops initial).




(** Two graphs built from one builder with a singleton-scoped heater; the
    second one has resolved it. *)
Definition twin_ops : list Op :=
  [OpStart CoffeeShop.Heater CoffeeShop.ElectricHeater ScopeSingleton;
   OpBuild {| b_map := 0 |}; OpBuild {| b_map := 0 |};
   OpResolve 1 3 CoffeeShop.Heater].

Definition twin_heap : State := default initial (exec_ops twin_ops initial).

(** The graph of [weak_heater_ops] after its weak-scoped heater was
    resolved. *)
Definition shared_cache_heap : State :=
  default initial
    (exec_ops (weak_heater_ops ScopeNone ++ [OpResolve 1 3 CoffeeShop.Heater]) initial).

(** * Properties *)

(** ** The monad *)

Lemma post_bind {A B} (m : M A) (f : A → M B) s Q E :
  post (m s) (λ a s', post (f a s') Q E) E → post (bind m f s) Q E.
Proof. unfold bind. by destruct (m s). Qed.

Lemma post_mono {A} (o : Outcome A) (Q Q' : A → State → Prop) (E E' : Error → State → Prop) :
  post o Q E → (∀ a s, Q a s → Q' a s) → (∀ e s, E e s → E' e s) → post o Q' E'.
Proof. destruct o; simpl; auto. Qed.

Lemma post_final {A} (o : Outcome A) (P : State → Prop) s' :
  post o (λ _, P) (λ _, P) → final o = Some s' → P s'.
Proof. destruct o; simpl; intros H [= <-]; done. Qed.

Lemma bind_Return {A B} (m : M A) (f : A → M B) s a s' :
  m s = Return a s' → bind m f s = f a s'.
Proof. unfold bind. by intros ->. Qed.

Lemma bind_Throw {A B} (m : M A) (f : A → M B) s e s' :
  m s = Throw e s' → bind m f s = Throw e s'.
Proof. unfold bind. by intros ->. Qed.

Lemma bind_inv_Return {A B} (m : M A) (f : A → M B) s b s2 :
  bind m f s = Return b s2 → ∃ a s1, m s = Return a s1 ∧ f a s1 = Return b s2.
Proof. unfold bind. destruct (m s); try done. eauto. Qed.

(** ** [ext] is a preorder *)

Lemma ext_refl s : ext s s.
Proof. split; eauto. by exists []. Qed.

Lemma ext_bound s s' g i p : ext s s' → bound s g i p → bound s' g i p.
Proof.
  intros He (m & Hb & Hm). exists m. split; [| done].
  unfold bindings in *. destruct (graphs s !! g) as [go |] eqn:Hg; [| done].
  destruct (ext_graphs _ _ He _ _ Hg) as (go' & -> & ->).
  by apply He.
Qed.

Lemma ext_cached s s' g i v : ext s s' → cached s g i = Some v → cached s' g i = Some v.
Proof.
  intros He. unfold cached.
  destruct (prop_of s g singletonSymbol) as [r |] eqn:Hp; [| done].
  rewrite (ext_props _ _ He _ _ _ Hp). apply He.
Qed.

Lemma ext_trans s1 s2 s3 : ext s1 s2 → ext s2 s3 → ext s1 s3.
Proof.
  intros H12 H23. split.
  - etrans; [apply H12 | apply H23].
  - intros m c Hm. by apply H23, H12.
  - intros g go Hg. destruct (ext_graphs _ _ H12 _ _ Hg) as (go' & Hg' & Heq).
    destruct (ext_graphs _ _ H23 _ _ Hg') as (go'' & Hg'' & Heq').
    exists go''. split; [done | congruence].
  - intros g sym r Hp. by apply H23, H12.
  - intros r c Hc. destruct (ext_caches _ _ H12 _ _ Hc) as (c' & Hc' & Hk).
    destruct (ext_caches _ _ H23 _ _ Hc') as (c'' & Hc'' & Hk').
    exists c''. split; [done | congruence].
  - intros r i v Hs. by apply H23, H12.
  - intros r i c o Hs Ho. apply (ext_old _ _ H12); [| done].
    apply (ext_old _ _ H23); [done |]. pose proof (ext_next _ _ H12). lia.
  - destruct (ext_log _ _ H12) as [l1 H1], (ext_log _ _ H23) as [l2 H2].
    exists (l2 ++ l1). rewrite H2, H1. by rewrite app_assoc.
  - intros g i p v Hb Hsc Hc.
    rewrite (ext_quiet _ _ H23 g i p v); eauto using ext_bound, ext_cached.
    by eapply (ext_quiet _ _ H12).
Qed.

Ltac keeps_here := unfold keeps; simpl; split; [assumption | apply ext_refl].

Lemma bound_lookup s g i p :
  bound s g i p ↔
  ∃ go m, graphs s !! g = Some go ∧ maps s !! g_map go = Some m ∧ m !! i = Some p.
Proof.
  unfold bound, bindings. split.
  - intros (m & Hb & Hm). destruct (graphs s !! g) as [go |]; [| done]. eauto.
  - intros (go & m & -> & Hm & Hi). eauto.
Qed.

Lemma bound_live s g j p : bound s g j p → is_Some (graphs s !! g).
Proof. intros (go & m & -> & _)%bound_lookup. eauto. Qed.

Lemma bound_inj s g i p1 p2 : bound s g i p1 → bound s g i p2 → p1 = p2.
Proof. intros (m1 & H1 & L1) (m2 & H2 & L2). congruence. Qed.

(** A state that differs only in its allocation counter and its log. *)
Lemma wf_same s s' :
  maps s' = maps s → caches s' = caches s → graphs s' = graphs s →
  next s ≤ next s' → log s' = log s → wf s → wf s'.
Proof.
  intros Hm Hc Hg Hn Hl [W1 W2 W3 W4 W5 W6 W7 W8 W9].
  split; unfold prop_of, slot, bound, bindings in *; rewrite ?Hm, ?Hc, ?Hg, ?Hl.
  - intros m c H. specialize (W1 m c H). lia.
  - intros r c H. specialize (W2 r c H). lia.
  - intros g go H. destruct (W3 g go H) as (? & ? & ?). split; [lia | done].
  - done.
  - intros r i cls o H. specialize (W5 r i cls o H). lia.
  - done.
  - done.
  - done.
  - done.
Qed.

Lemma ext_same s s' :
  maps s' = maps s → caches s' = caches s → graphs s' = graphs s →
  next s ≤ next s' → log s' = log s → ext s s'.
Proof.
  intros Hm Hc Hg Hn Hl.
  split; unfold invocations, prop_of, slot in *; rewrite ?Hm, ?Hc, ?Hg, ?Hl; eauto.
  by exists [].
Qed.

Lemma wf_initial : wf initial.
Proof.
  split; unfold prop_of, slot, bound, bindings; simpl;
    try by (intros; simplify_map_eq).
  by intros g i cls ?%elem_of_nil.
Qed.

(** ** Allocation *)

Lemma fresh_map s : wf s → maps s !! next s = None.
Proof.
  intros W. destruct (maps s !! next s) eqn:H; [| done].
  apply (wf_maps _ W) in H. lia.
Qed.

Lemma fresh_cache s : wf s → caches s !! next s = None.
Proof.
  intros W. destruct (caches s !! next s) eqn:H; [| done].
  apply (wf_caches _ W) in H. lia.
Qed.

Lemma fresh_graph s : wf s → graphs s !! next s = None.
Proof.
  intros W. destruct (graphs s !! next s) eqn:H; [| done].
  apply (wf_graphs _ W) in H. lia.
Qed.

Lemma wf_bump s : wf s → wf (bump s).
Proof. apply wf_same; simpl; auto. Qed.

Lemma ext_bump s : ext s (bump s).
Proof. apply ext_same; simpl; auto. Qed.

Lemma wf_push_log g i cls s :
  is_Some (graphs s !! g) → wf s → wf (push_log (g, i, cls) s).
Proof.
  intros Hlive [W1 W2 W3 W4 W5 W6 W7 W8 W9]. split; try done.
  intros g' i' cls' [[= -> -> ->] | H]%elem_of_cons; [done | by eapply W9].
Qed.

Lemma invocations_push_log g i cls s g' i' :
  invocations (push_log (g, i, cls) s) g' i' =
    if decide ((g, i) = (g', i')) then S (invocations s g' i') else invocations s g' i'.
Proof.
  unfold invocations; simpl. rewrite filter_cons; simpl.
  repeat case_decide; simplify_eq; done.
Qed.

(** A maker may be invoked for [(g, i)] unless a singleton instance is
    cached for it. *)
Lemma ext_push_log g i cls p s :
  bound s g i p → (p_scope p = ScopeSingleton → cached s g i = None) →
  ext s (push_log (g, i, cls) s).
Proof.
  intros Hb Hnone. split; try done.
  - intros g' go H. eauto.
  - intros r c H. eauto.
  - by exists [(g, i, cls)].
  - intros g' i' p' v Hb' Hsc Hc. rewrite invocations_push_log.
    case_decide as Heq; [| done]. simplify_eq.
    rewrite (bound_inj _ _ _ _ _ Hb Hb') in Hnone. rewrite Hnone in Hc; done.
Qed.

(** ** A new cache *)



Lemma Cache_new_eq k s :
  Cache_new k s = Return (next s) (with_cache (next s) (empty_cache k) (bump s)).
Proof. reflexivity. Qed.

Lemma slot_with_cache r c s r' i :
  slot (with_cache r c s) r' i = if decide (r = r') then c_entries c !! i else slot s r' i.
Proof.
  unfold slot, with_cache; simpl. case_decide as H.
  - subst. by rewrite lookup_insert_eq.
  - by rewrite lookup_insert_ne.
Qed.

Lemma slot_cache_alloc k s r i :
  wf s → slot (with_cache (next s) (empty_cache k) (bump s)) r i = slot s r i.
Proof.
  intros W. rewrite slot_with_cache. case_decide as H; [| done].
  subst. unfold slot. by rewrite (fresh_cache _ W).
Qed.

Lemma wf_cache_alloc k s : wf s → wf (with_cache (next s) (empty_cache k) (bump s)).
Proof.
  intros W. pose proof (slot_cache_alloc k s) as Hs.
  pose proof W as [W1 W2 W3 W4 W5 W6 W7 W8 W9].
  split.
  - intros m c H. specialize (W1 m c H). simpl. lia.
  - intros r c. unfold with_cache; simpl. intros H.
    destruct (decide (next s = r)) as [<- | Hne]; [lia |].
    rewrite lookup_insert_ne in H by done. specialize (W2 r c H). lia.
  - intros g go H. destruct (W3 g go H) as (? & ? & ?). simpl. split; [lia | done].
  - intros g sym r H. unfold with_cache; simpl.
    destruct (W4 g sym r H) as [c Hc].
    destruct (decide (next s = r)) as [<- | Hne].
    + rewrite lookup_insert_eq. eauto.
    + rewrite lookup_insert_ne by done. eauto.
  - intros r i cls o. rewrite Hs by done. intros H. specialize (W5 _ _ _ _ H). simpl. lia.
  - intros r1 i1 c1 r2 i2 c2 o. rewrite !Hs by done. apply W6.
  - exact W7.
  - intros g sym r i H. rewrite Hs by done. intros H'. by eapply W8.
  - exact W9.
Qed.

Lemma ext_cache_alloc k s : wf s → ext s (with_cache (next s) (empty_cache k) (bump s)).
Proof.
  intros W. pose proof (slot_cache_alloc k s) as Hs. split.
  - simpl. lia.
  - done.
  - intros g go H. eauto.
  - done.
  - intros r c H. exists c. split; [| done]. unfold with_cache; simpl.
    rewrite lookup_insert_ne; [done |]. intros <-. rewrite (fresh_cache _ W) in H. done.
  - intros r i v. by rewrite Hs.
  - intros r i c o. by rewrite Hs.
  - by exists [].
  - done.
Qed.

Lemma unregistered_cache_alloc k s g sym :
  wf s → prop_of (with_cache (next s) (empty_cache k) (bump s)) g sym ≠ Some (next s).
Proof.
  intros W H. destruct (wf_props _ W g sym (next s) H) as [c Hc].
  by rewrite (fresh_cache _ W) in Hc.
Qed.

(** ** Defining a property *)


Lemma defineProperty_new g sym r s go :
  graphs s !! g = Some go → g_props go !! sym = None →
  defineProperty g sym r s = Return tt (with_prop g go sym r s).
Proof. intros Hg Hp. unfold defineProperty. by rewrite Hg, Hp. Qed.

Lemma defineProperty_old g sym r s old :
  prop_of s g sym = Some old → old ≠ r →
  defineProperty g sym r s = Throw (TypeError_redefine sym) s.
Proof.
  unfold prop_of, defineProperty. destruct (graphs s !! g); [| done].
  intros -> Hne. by rewrite decide_False.
Qed.

Lemma prop_of_with_prop g go sym r s g' sym' :
  graphs s !! g = Some go →
  prop_of (with_prop g go sym r s) g' sym' =
    if decide (g = g' ∧ sym = sym') then Some r else prop_of s g' sym'.
Proof.
  intros Hg. unfold prop_of, with_prop; simpl.
  destruct (decide (g = g')) as [<- | Hne].
  - rewrite lookup_insert_eq, Hg; simpl.
    destruct (decide (sym = sym')) as [<- | Hs].
    + rewrite lookup_insert_eq. by rewrite decide_True.
    + rewrite lookup_insert_ne by done. rewrite decide_False; [done | tauto].
  - rewrite lookup_insert_ne by done. rewrite decide_False; [done | tauto].
Qed.

Lemma bindings_with_prop g go sym r s g' :
  graphs s !! g = Some go → bindings (with_prop g go sym r s) g' = bindings s g'.
Proof.
  intros Hg. unfold bindings, with_prop; simpl.
  destruct (decide (g = g')) as [<- | Hne].
  - by rewrite lookup_insert_eq, Hg.
  - by rewrite lookup_insert_ne.
Qed.

Lemma wf_with_prop g go r c s :
  wf s → graphs s !! g = Some go → g_props go !! singletonSymbol = None →
  caches s !! r = Some c → c_entries c = ∅ →
  (∀ g' sym', prop_of s g' sym' ≠ Some r) →
  wf (with_prop g go singletonSymbol r s).
Proof.
  intros W Hg Hnone Hc Hempty Hunreg.
  pose proof W as [W1 W2 W3 W4 W5 W6 W7 W8 W9].
  pose proof (prop_of_with_prop g go singletonSymbol r s) as Hp.
  split.
  - exact W1.
  - exact W2.
  - intros g' go'. unfold with_prop; simpl.
    destruct (decide (g = g')) as [<- | Hne].
    + rewrite lookup_insert_eq. intros [= <-]; simpl.
      destruct (W3 g go Hg) as (? & ? & ?). by rewrite lookup_insert_ne.
    + rewrite lookup_insert_ne by done. apply W3.
  - intros g' sym' r'. rewrite Hp by done. case_decide.
    + intros [= <-]. exists c. exact Hc.
    + apply W4.
  - exact W5.
  - exact W6.
  - intros g1 sym1 g2 sym2 r'. rewrite !Hp by done.
    destruct (decide (g = g1 ∧ singletonSymbol = sym1)) as [[<- <-] | H1],
             (decide (g = g2 ∧ singletonSymbol = sym2)) as [[<- <-] | H2].
    + done.
    + intros [= <-] H. by apply Hunreg in H.
    + intros H [= <-]. by apply Hunreg in H.
    + apply W7.
  - intros g' sym' r' i. rewrite Hp by done.
    unfold bound. rewrite bindings_with_prop by done. case_decide.
    + intros [= <-]. unfold slot; simpl. rewrite Hc, Hempty. by rewrite lookup_empty.
    + apply W8.
  - intros g' i' cls H. unfold with_prop; simpl.
    destruct (decide (g = g')) as [<- | Hne].
    + rewrite lookup_insert_eq. eauto.
    + rewrite lookup_insert_ne by done. by eapply W9.
Qed.

Lemma ext_with_prop g go sym r s :
  graphs s !! g = Some go → g_props go !! sym = None → ext s (with_prop g go sym r s).
Proof.
  intros Hg Hnone. split; try done.
  - intros g' go'. unfold with_prop; simpl.
    destruct (decide (g = g')) as [<- | Hne].
    + rewrite lookup_insert_eq. intros H. eexists. split; [done |]. simpl. congruence.
    + rewrite lookup_insert_ne by done. eauto.
  - intros g' sym' r'. rewrite prop_of_with_prop by done. case_decide as Hd; [| done].
    destruct Hd as [<- <-]. unfold prop_of. rewrite Hg. congruence.
  - intros r' c H. eauto.
  - by exists [].
Qed.

(** ** Writing a cache entry *)


Lemma Cache_set_eq r i v s c :
  caches s !! r = Some c → Cache_set r i v s = Return tt (with_slot r c i v s).
Proof. intros H. unfold Cache_set. by rewrite H. Qed.

Lemma Cache_get_eq r i s c :
  caches s !! r = Some c → Cache_get r i s = Return (slot s r i) s.
Proof. intros H. unfold Cache_get, slot. by rewrite H. Qed.

Lemma with_slot_same r c i v s :
  caches s !! r = Some c → slot s r i = Some v → with_slot r c i v s = s.
Proof.
  intros Hc Hs. unfold slot in Hs. rewrite Hc in Hs.
  unfold with_slot, with_cache, set_caches. destruct s as [ms cs gs n l]; simpl in *.
  f_equal. apply insert_id. rewrite Hc. f_equal.
  destruct c as [k es]; simpl in *. f_equal. symmetry. by apply insert_id.
Qed.

Lemma slot_with_slot r c i v s r' i' :
  caches s !! r = Some c →
  slot (with_slot r c i v s) r' i' =
    if decide (r = r' ∧ i = i') then Some v else slot s r' i'.
Proof.
  intros Hc. unfold with_slot. rewrite slot_with_cache; simpl.
  destruct (decide (r = r')) as [<- | Hne].
  - destruct (decide (i = i')) as [<- | Hi].
    + rewrite lookup_insert_eq. by rewrite decide_True.
    + rewrite lookup_insert_ne by done. rewrite decide_False by tauto.
      unfold slot. by rewrite Hc.
  - rewrite decide_False by tauto. done.
Qed.

Lemma wf_with_slot r c i v s :
  wf s → caches s !! r = Some c →
  match v with
  | VObj _ o => o < next s ∧ ∀ r' i' c', slot s r' i' ≠ Some (VObj c' o)
  | VSingletonFn =>
      ∀ g sym, prop_of s g sym = Some r → ∃ p, bound s g i p ∧ p_scope p = ScopeWeak
  end →
  wf (with_slot r c i v s).
Proof.
  intros W Hc Hv.
  pose proof W as [W1 W2 W3 W4 W5 W6 W7 W8 W9].
  pose proof (slot_with_slot r c i v s) as Hs.
  split.
  - exact W1.
  - intros r' c'. unfold with_slot, with_cache; simpl.
    destruct (decide (r = r')) as [<- | Hne].
    + intros _. by eapply W2.
    + rewrite lookup_insert_ne by done. apply W2.
  - exact W3.
  - intros g sym r' H. destruct (W4 g sym r' H) as [c' Hc'].
    unfold with_slot, with_cache; simpl.
    destruct (decide (r = r')) as [<- | Hne].
    + rewrite lookup_insert_eq. eauto.
    + rewrite lookup_insert_ne by done. eauto.
  - intros r' i' cls o. rewrite Hs by done. case_decide.
    + intros [= ->]. apply Hv.
    + apply W5.
  - intros r1 i1 c1 r2 i2 c2 o. rewrite !Hs by done.
    destruct (decide (r = r1 ∧ i = i1)) as [[<- <-] | H1],
             (decide (r = r2 ∧ i = i2)) as [[<- <-] | H2].
    + done.
    + intros [= ->] H. destruct Hv as [_ Hv]. by apply Hv in H.
    + intros H [= ->]. destruct Hv as [_ Hv]. by apply Hv in H.
    + apply W6.
  - exact W7.
  - intros g sym r' i' Hp. rewrite Hs by done. case_decide as Hd.
    + intros [= ->]. destruct Hd as [<- <-]. by eapply Hv.
    + by eapply W8.
  - exact W9.
Qed.

Lemma ext_with_slot s0 r c i v s :
  ext s0 s → caches s !! r = Some c → slot s0 r i = None →
  (∀ cls o, v = VObj cls o → next s0 ≤ o) →
  ext s0 (with_slot r c i v s).
Proof.
  intros He Hc Hnone Hv.
  pose proof (slot_with_slot r c i v s) as Hs.
  split; try apply He.
  - intros r' c' H. destruct (ext_caches _ _ He _ _ H) as (c'' & Hc'' & Hk).
    unfold with_slot, with_cache; simpl.
    destruct (decide (r = r')) as [<- | Hne].
    + rewrite lookup_insert_eq. eexists. split; [done |]. simpl. congruence.
    + rewrite lookup_insert_ne by done. eauto.
  - intros r' i' v' H. rewrite Hs by done. case_decide as Hd.
    + destruct Hd as [<- <-]. congruence.
    + by apply He.
  - intros r' i' cls o. rewrite Hs by done. case_decide as Hd.
    + intros [= ->] Ho. specialize (Hv _ _ eq_refl). lia.
    + apply He.
Qed.

(** ** Constructors keep the heap well formed *)



Lemma keeps_refl {A} s (a : A) : wf s → keeps s a s.
Proof. split; [done | apply ext_refl]. Qed.

Lemma run_body_sound cls res b :
  (∀ i s, wf s → post (res i s) (keeps s) (keeps s)) →
  ∀ s, wf s → post (run_body cls res b s) (keeps s) (keeps s).
Proof.
  intros Hres. induction b as [| i k IH |]; intros s W; simpl.
  - by apply keeps_refl.
  - apply post_bind. eapply post_mono; [by apply Hres | | done].
    intros v s1 [W1 E1]. eapply post_mono; [by apply IH | |];
      intros ? s2 [W2 E2]; split; eauto using ext_trans.
  - by apply keeps_refl.
Qed.

Lemma new_instance_sound res ctor s :
  (∀ i s, wf s → post (res i s) (keeps s) (keeps s)) →
  wf s →
  post (new_instance res ctor s)
    (λ v s', wf s' ∧ ext s s' ∧
       v = VObj (c_name ctor) (next s) ∧ next s < next s' ∧
       ∀ r i c, slot s' r i ≠ Some (VObj c (next s)))
    (keeps s).
Proof.
  intros Hres W. unfold new_instance. apply post_bind. simpl.
  apply post_bind.
  eapply post_mono; [by apply run_body_sound, wf_bump | |].
  - intros _ s' [W' E']. simpl.
    assert (ext s s') as E by (eapply ext_trans; [apply ext_bump | done]).
    split_and!; try done.
    + pose proof (ext_next _ _ E'). simpl in *. lia.
    + intros r i c Hs. apply (ext_old _ _ E') in Hs; [| simpl; lia].
      apply (wf_objs _ W) in Hs. lia.
  - intros e s' [W' E']. split; [done |].
    eapply ext_trans; [apply ext_bump | done].
Qed.

Lemma maker_of_sound rec p g iface :
  sound rec → maker_spec (maker_of rec p iface) g iface p.
Proof.
  intros Hrec s W Hb Hnone. unfold maker_of. apply post_bind. simpl.
  pose proof (ext_push_log g iface (c_name (p_ctor p)) p s Hb Hnone) as Elog.
  eapply post_mono;
    [apply new_instance_sound; [| apply wf_push_log; eauto using bound_live] | |].
  - intros i s' W'. destruct (p_graph p).
    + eapply post_mono; [by apply Hrec | |]; by intros.
    + by apply keeps_refl.
  - intros v s' (W' & E' & -> & Hn & Hu). simpl in *.
    split; [done |]. split; [by eapply ext_trans |].
    exists (next s). split_and!; try done.
  - intros e s' [W' E']. split; [done |]. by eapply ext_trans.
Qed.

(** ** The scopes keep the heap well formed *)

Lemma singleton_tail_spec maker p g i r s :
  maker_spec maker g i p → wf s → bound s g i p →
  prop_of s g singletonSymbol = Some r →
  post ((let* cached := Cache_get r i in
         let* value := match cached with
                       | Some v => ret v
                       | None => maker g
                       end in
         let* _ := Cache_set r i value in
         ret value) s)
    (λ v s', wf s' ∧ ext s s' ∧ slot s' r i = Some v ∧
       match slot s r i with
       | Some v0 => v = v0 ∧ s' = s
       | None => ∃ o, v = VObj (c_name (p_ctor p)) o ∧ next s ≤ o
       end)
    (keeps s).
Proof.
  intros Hmaker W Hb Hp.
  destruct (wf_props _ W _ _ _ Hp) as [c Hc].
  apply post_bind. rewrite (Cache_get_eq _ _ _ _ Hc). simpl.
  destruct (slot s r i) as [v0 |] eqn:Hs.
  - apply post_bind. simpl. apply post_bind.
    rewrite (Cache_set_eq _ _ _ _ _ Hc). simpl.
    rewrite (with_slot_same _ _ _ _ _ Hc Hs).
    split_and!; try done. apply ext_refl.
  - apply post_bind. eapply post_mono; [apply Hmaker | | done]; try done.
    { intros _. unfold cached. by rewrite Hp. }
    intros v s3 (W3 & E3 & o & -> & Hlo & Hhi & Hu).
    destruct (ext_caches _ _ E3 _ _ Hc) as (c3 & Hc3 & _).
    apply post_bind. rewrite (Cache_set_eq _ _ _ _ _ Hc3). simpl.
    split_and!.
    + by apply wf_with_slot.
    + apply (ext_with_slot s); try done. intros ? ? [= _ <-]. done.
    + rewrite slot_with_slot by done. by rewrite decide_True.
    + eauto.
Qed.

Lemma singleton_spec maker p g i s :
  maker_spec maker g i p → wf s → bound s g i p →
  post (scopes.singleton maker g i s)
    (λ v s', wf s' ∧ ext s s' ∧ cached s' g i = Some v ∧
       match cached s g i with
       | Some v0 => v = v0 ∧ s' = s
       | None => ∃ o, v = VObj (c_name (p_ctor p)) o ∧ next s ≤ o
       end)
    (λ _ s', wf s' ∧ ext s s' ∧ is_Some (prop_of s' g singletonSymbol)).
Proof.
  intros Hmaker W Hb. unfold scopes.singleton.
  destruct (proj1 (bound_lookup _ _ _ _) Hb) as (go & m & Hg & _).
  apply post_bind. unfold getOwnPropertyDescriptor. rewrite Hg. simpl.
  destruct (g_props go !! singletonSymbol) as [r |] eqn:Hd.
  - assert (prop_of s g singletonSymbol = Some r) as Hp
      by (unfold prop_of; by rewrite Hg).
    apply post_bind. simpl. apply post_bind. simpl.
    eapply post_mono; [by eapply singleton_tail_spec | |].
    + intros v s' (W' & E' & Hs' & Hm). split_and!; try done.
      * unfold cached. by rewrite (ext_props _ _ E' _ _ _ Hp).
      * unfold cached. by rewrite Hp.
    + intros e s' [W' E']. split_and!; try done.
      rewrite (ext_props _ _ E' _ _ _ Hp). eauto.
  - assert (prop_of s g singletonSymbol = None) as Hp
      by (unfold prop_of; by rewrite Hg).
    apply post_bind. rewrite Cache_new_eq. simpl.
    set (s1 := with_cache (next s) (empty_cache KMap) (bump s)).
    assert (wf s1) as W1 by (by apply wf_cache_alloc).
    assert (ext s s1) as E1 by (by apply ext_cache_alloc).
    assert (graphs s1 !! g = Some go) as Hg1 by done.
    assert (caches s1 !! next s = Some (empty_cache KMap)) as Hc1
      by (unfold s1, with_cache; simpl; by rewrite lookup_insert_eq).
    apply post_bind. rewrite (defineProperty_new _ _ _ _ _ Hg1 Hd). simpl.
    set (s2 := with_prop g go singletonSymbol (next s) s1).
    assert (wf s2) as W2.
    { eapply wf_with_prop; try done. intros g' sym'.
      by apply unregistered_cache_alloc. }
    assert (ext s s2) as E2.
    { eapply ext_trans; [exact E1 |]. by apply ext_with_prop. }
    assert (prop_of s2 g singletonSymbol = Some (next s)) as Hp2.
    { unfold s2. rewrite prop_of_with_prop by done. by rewrite decide_True. }
    assert (slot s2 (next s) i = None) as Hs2.
    { unfold slot, s2; simpl. unfold s1, with_cache; simpl.
      by rewrite lookup_insert_eq. }
    eapply post_mono;
      [eapply singleton_tail_spec; eauto using ext_bound | |].
    + intros v s' (W' & E' & Hs' & Hm). rewrite Hs2 in Hm.
      destruct Hm as (o & -> & Ho). split_and!; try done.
      * by eapply ext_trans.
      * unfold cached. by rewrite (ext_props _ _ E' _ _ _ Hp2).
      * unfold cached. rewrite Hp. exists o. split; [done |].
        pose proof (ext_next _ _ E2). lia.
    + intros e s' [W' E']. split_and!; try done.
      * by eapply ext_trans.
      * rewrite (ext_props _ _ E' _ _ _ Hp2). eauto.
Qed.

Lemma weak_defined maker g i s r :
  wf s → is_Some (graphs s !! g) → prop_of s g singletonSymbol = Some r →
  scopes.weak maker g i s =
    Throw (TypeError_redefine singletonSymbol)
      (with_cache (next s) (empty_cache KWeakMap) (bump s)).
Proof.
  intros W [go Hg] Hp.
  destruct (wf_graphs _ W _ _ Hg) as (_ & _ & Hweak).
  unfold scopes.weak.
  erewrite bind_Return; [| unfold getOwnPropertyDescriptor; by rewrite Hg, Hweak].
  erewrite bind_Return; [| apply Cache_new_eq].
  erewrite bind_Throw; [done |].
  eapply defineProperty_old; [exact Hp |].
  destruct (wf_props _ W _ _ _ Hp) as [c Hc]. apply (wf_caches _ W) in Hc. lia.
Qed.

Lemma weak_spec maker g i p s :
  maker_spec maker g i p → wf s → bound s g i p → p_scope p = ScopeWeak →
  post (scopes.weak maker g i s)
    (λ v s', wf s' ∧ ext s s' ∧
       prop_of s g singletonSymbol = None ∧
       prop_of s' g singletonSymbol = Some (next s) ∧
       (∃ c, caches s' !! next s = Some c ∧ c_kind c = KWeakMap) ∧
       slot s' (next s) i = Some VSingletonFn ∧
       ∃ o, v = VObj (c_name (p_ctor p)) o)
    (λ _ s', wf s' ∧ ext s s' ∧ is_Some (prop_of s' g singletonSymbol)).
Proof.
  intros Hmaker W Hb Hsc.
  assert (∃ go, graphs s !! g = Some go) as [go Hg].
  { destruct Hb as (m & Hb & _). unfold bindings in Hb.
    destruct (graphs s !! g); [eauto | done]. }
  set (s1 := with_cache (next s) (empty_cache KWeakMap) (bump s)).
  assert (wf s1) as W1 by (by apply wf_cache_alloc).
  assert (ext s s1) as E1 by (by apply ext_cache_alloc).
  destruct (prop_of s g singletonSymbol) as [old |] eqn:Hp.
  { rewrite (weak_defined _ _ _ _ old) by eauto. simpl. split_and!; try done.
    all: exists old; by apply (ext_props _ _ E1). }
  destruct (wf_graphs _ W _ _ Hg) as (_ & _ & Hweak).
  assert (g_props go !! singletonSymbol = None) as Hd
    by (unfold prop_of in Hp; by rewrite Hg in Hp).
  unfold scopes.weak.
  apply post_bind. unfold getOwnPropertyDescriptor. rewrite Hg, Hweak. simpl.
  apply post_bind. rewrite Cache_new_eq. simpl. fold s1.
  assert (graphs s1 !! g = Some go) as Hg1 by done.
  assert (caches s1 !! next s = Some (empty_cache KWeakMap)) as Hc1
    by (unfold s1, with_cache; simpl; by rewrite lookup_insert_eq).
  apply post_bind. rewrite (defineProperty_new _ _ _ _ _ Hg1 Hd). simpl.
  set (s2 := with_prop g go singletonSymbol (next s) s1).
  assert (wf s2) as W2.
  { eapply wf_with_prop; try done. intros g' sym'.
    by apply unregistered_cache_alloc. }
  assert (ext s1 s2) as E12 by (by apply ext_with_prop).
  assert (prop_of s2 g singletonSymbol = Some (next s)) as Hp2.
  { unfold s2. rewrite prop_of_with_prop by done. by rewrite decide_True. }
  assert (caches s2 !! next s = Some (empty_cache KWeakMap)) as Hc2 by done.
  assert (slot s2 (next s) i = None) as Hs2 by (unfold slot; by rewrite Hc2).
  apply post_bind. rewrite (Cache_get_eq _ _ _ _ Hc2), Hs2. simpl.
  assert (ext s s2) as E2 by (by eapply ext_trans).
  apply post_bind. eapply post_mono; [apply Hmaker | |]; try done.
  { by eapply ext_bound. }
  { rewrite Hsc. done. }
  - intros v s3 (W3 & E3 & o & -> & Hlo & Hhi & Hu).
    destruct (ext_caches _ _ E3 _ _ Hc2) as (c3 & Hc3 & Hk3).
    pose proof (ext_props _ _ E3 _ _ _ Hp2) as Hp3.
    apply post_bind. rewrite (Cache_set_eq _ _ _ _ _ Hc3). simpl.
    split_and!.
    + apply wf_with_slot; try done. intros g' sym' Hp'.
      assert (g' = g) as -> by (by eapply (wf_prop_inj _ W3)).
      exists p. split; [| done].
      eapply ext_bound; [| exact Hb]. eauto using ext_trans.
    + eapply ext_trans; [exact E1 |]. eapply ext_trans; [exact E12 |].
      by apply (ext_with_slot s2).
    + done.
    + exact Hp3.
    + exists {| c_kind := c_kind c3; c_entries := <[i := VSingletonFn]> (c_entries c3) |}.
      split; [| done]. unfold with_slot, with_cache; simpl. by rewrite lookup_insert_eq.
    + rewrite slot_with_slot by done. by rewrite decide_True.
    + eauto.
  - intros e s3 [W3 E3]. split_and!; try done.
    + eauto using ext_trans.
    + exists (next s). by apply (ext_props _ _ E3).
Qed.

(** ** [resolve] keeps the heap well formed *)


Lemma resolve_bound fuel g i p s :
  bound s g i p → resolve (S fuel) g i s = call_provider (resolve fuel) p g i s.
Proof.
  intros (go & m & Hg & Hm & Hi)%bound_lookup. simpl.
  unfold bind at 1. unfold Graph_map. rewrite Hg.
  unfold bind at 1. unfold Map_get. rewrite Hm, Hi. done.
Qed.

Lemma resolve_unbound fuel g i s m :
  bindings s g = Some m → m !! i = None →
  resolve fuel g i s = Throw (UnsatisfiedDependency i) s.
Proof.
  unfold bindings. destruct (graphs s !! g) as [go |] eqn:Hg; [| done].
  intros Hm Hi. destruct fuel; simpl.
  all: unfold bind at 1; unfold Graph_map; rewrite Hg.
  all: unfold bind at 1; unfold Map_get; rewrite Hm, Hi; done.
Qed.

Lemma call_provider_sound rec p g i s :
  sound rec → wf s → bound s g i p →
  post (call_provider rec p g i s) (keeps s) (keeps s).
Proof.
  intros Hrec W Hb. unfold call_provider.
  pose proof (maker_of_sound rec p g i Hrec) as Hmaker.
  destruct (p_scope p) eqn:Hsc; simpl.
  - unfold scopes.none. eapply post_mono; [apply Hmaker | | done]; try done.
    + by rewrite Hsc.
    + by intros v s' (? & ? & _).
  - eapply post_mono; [by eapply singleton_spec | |].
    + by intros v s' (? & ? & _).
    + by intros v s' (? & ? & _).
  - eapply post_mono; [by eapply weak_spec | |].
    + by intros v s' (? & ? & _).
    + by intros v s' (? & ? & _).
Qed.

Lemma resolve_sound fuel : sound (resolve fuel).
Proof.
  induction fuel as [| fuel IH]; intros g i s W.
  - simpl. apply post_bind. unfold Graph_map.
    destruct (graphs s !! g) as [go |]; simpl; [| keeps_here].
    apply post_bind. unfold Map_get.
    destruct (maps s !! g_map go) as [m |]; simpl; [| keeps_here].
    destruct (m !! i); simpl; [done | keeps_here].
  - destruct (bindings s g) as [m |] eqn:Hb.
    + destruct (m !! i) as [p |] eqn:Hi.
      * rewrite (resolve_bound _ _ _ p) by (by exists m).
        apply call_provider_sound; [done | done | by exists m].
      * rewrite (resolve_unbound _ _ _ _ m) by done. keeps_here.
    + simpl. apply post_bind. unfold Graph_map. unfold bindings in Hb.
      destruct (graphs s !! g) as [go |]; simpl; [| keeps_here].
      apply post_bind. unfold Map_get. rewrite Hb. keeps_here.
Qed.

Lemma resolve_final fuel g i s s' :
  wf s → final (resolve fuel g i s) = Some s' → wf s' ∧ ext s s'.
Proof.
  intros W H. pose proof (resolve_sound fuel g i s W) as Hp.
  destruct (resolve fuel g i s); simpl in *; by simplify_eq.
Qed.

(** ** The builder and [new Graph] *)



Lemma with_map_set m content i p s :
  Map_set m i p (with_map m content s) = Return tt (with_map m (<[i := p]> content) s).
Proof.
  unfold Map_set, with_map; simpl. rewrite lookup_insert_eq.
  unfold set_maps; simpl. by rewrite insert_insert_eq.
Qed.

Lemma start_eq impl ctor scope s :
  start impl ctor scope s =
    Return {| b_map := next s |}
      (with_map (next s)
         {[ impl := {| p_scope := scope; p_ctor := ctor; p_graph := false |} ]}
         (bump s)).
Proof.
  unfold start. erewrite bind_Return; [| reflexivity].
  erewrite bind_Return; [| apply with_map_set]. by rewrite insert_empty.
Qed.

Lemma add_eq b impl ctor scope s :
  add b impl ctor scope s =
    Return {| b_map := next s |}
      (with_map (next s)
         (<[ impl := {| p_scope := scope; p_ctor := ctor; p_graph := true |} ]>
            (builder_bindings s b))
         (bump s)).
Proof.
  unfold add. erewrite bind_Return; [| reflexivity].
  erewrite bind_Return; [| apply with_map_set]. done.
Qed.

Lemma build_eq b s :
  build b s =
    Return (next s)
      (with_graph (next s) (S (next s))
         (with_map (S (next s)) (builder_bindings s b) (bump (bump s)))).
Proof. reflexivity. Qed.

Lemma modify_eq g s go :
  graphs s !! g = Some go → modify g s = Return {| b_map := g_map go |} s.
Proof.
  intros Hg. unfold modify. erewrite bind_Return; [done |].
  unfold Graph_map. by rewrite Hg.
Qed.

Lemma wf_with_map content s : wf s → wf (with_map (next s) content (bump s)).
Proof.
  intros W. pose proof W as [W1 W2 W3 W4 W5 W6 W7 W8 W9].
  pose proof (fresh_map _ W) as Hfresh.
  assert (∀ g, bindings s g = bindings (with_map (next s) content (bump s)) g) as Hb.
  { intros g. unfold bindings; simpl. destruct (graphs s !! g) as [go |] eqn:Hg; [| done].
    destruct (W3 _ _ Hg) as (_ & [m Hm] & _).
    rewrite lookup_insert_ne; [done |]. intros Heq. rewrite Heq in Hfresh. congruence. }
  split.
  - intros m c. unfold with_map; simpl.
    destruct (decide (next s = m)) as [<- | Hne]; [lia |].
    rewrite lookup_insert_ne by done. intros H. specialize (W1 _ _ H). lia.
  - intros r c H. specialize (W2 r c H). simpl. lia.
  - intros g go H. destruct (W3 g go H) as (? & [m Hm] & ?). simpl.
    split_and!; [lia | | done].
    destruct (decide (next s = g_map go)) as [Heq | Hne].
    + rewrite Heq. rewrite lookup_insert_eq. eauto.
    + rewrite lookup_insert_ne by done. eauto.
  - exact W4.
  - intros r i cls o H. specialize (W5 _ _ _ _ H). simpl. lia.
  - exact W6.
  - exact W7.
  - intros g sym r i Hp Hs. destruct (W8 g sym r i Hp Hs) as (p & Hbd & Hsc).
    exists p. split; [| done]. unfold bound. by rewrite <- Hb.
  - exact W9.
Qed.

Lemma ext_with_map content s : wf s → ext s (with_map (next s) content (bump s)).
Proof.
  intros W. pose proof (fresh_map _ W) as Hfresh. split; try done.
  - simpl. lia.
  - intros m c H. unfold with_map; simpl. rewrite lookup_insert_ne; [done |].
    intros <-. congruence.
  - intros g go H. eauto.
  - intros r c H. eauto.
  - by exists [].
Qed.

Lemma wf_with_graph g m s :
  wf s → g < next s → graphs s !! g = None → is_Some (maps s !! m) →
  wf (with_graph g m s).
Proof.
  intros W Hlt Hfresh Hm. pose proof W as [W1 W2 W3 W4 W5 W6 W7 W8 W9].
  assert (∀ g' sym, prop_of (with_graph g m s) g' sym = prop_of s g' sym) as Hp.
  { intros g' sym. unfold prop_of, with_graph; simpl.
    destruct (decide (g = g')) as [<- | Hne].
    - by rewrite lookup_insert_eq, Hfresh.
    - by rewrite lookup_insert_ne. }
  split.
  - exact W1.
  - exact W2.
  - intros g' go'. unfold with_graph; simpl.
    destruct (decide (g = g')) as [<- | Hne].
    + rewrite lookup_insert_eq. intros [= <-]. simpl. done.
    + rewrite lookup_insert_ne by done. apply W3.
  - intros g' sym r. rewrite Hp. apply W4.
  - exact W5.
  - exact W6.
  - intros g1 sym1 g2 sym2 r. rewrite !Hp. apply W7.
  - intros g' sym r i. rewrite Hp. intros Hpr Hs.
    destruct (W8 _ _ _ _ Hpr Hs) as (p & Hb & Hsc). exists p. split; [| done].
    destruct Hb as (mm & Hb & Hi). exists mm. split; [| done].
    unfold bindings, with_graph in *; simpl.
    destruct (decide (g = g')) as [<- | Hne].
    + by rewrite Hfresh in Hb.
    + by rewrite lookup_insert_ne.
  - intros g' i' cls H. unfold with_graph; simpl.
    destruct (decide (g = g')) as [<- | Hne].
    + rewrite lookup_insert_eq. eauto.
    + rewrite lookup_insert_ne by done. by eapply W9.
Qed.

Lemma ext_with_graph g m s : graphs s !! g = None → ext s (with_graph g m s).
Proof.
  intros Hfresh. split; try done.
  - intros g' go' H. exists go'. split; [| done]. unfold with_graph; simpl.
    rewrite lookup_insert_ne; [done |]. intros <-. congruence.
  - intros g' sym r. unfold prop_of, with_graph; simpl.
    destruct (decide (g = g')) as [<- | Hne].
    + by rewrite Hfresh.
    + by rewrite lookup_insert_ne.
  - intros r c H. eauto.
  - by exists [].
Qed.

Lemma start_sound impl ctor scope s :
  wf s → post (start impl ctor scope s) (keeps s) (keeps s).
Proof.
  intros W. rewrite start_eq. split; [by apply wf_with_map | by apply ext_with_map].
Qed.

Lemma add_sound b impl ctor scope s :
  wf s → post (add b impl ctor scope s) (keeps s) (keeps s).
Proof.
  intros W. rewrite add_eq. split; [by apply wf_with_map | by apply ext_with_map].
Qed.

Lemma build_sound b s : wf s → post (build b s) (keeps s) (keeps s).
Proof.
  intros W. rewrite build_eq.
  pose proof (wf_bump _ W) as W1.
  pose proof (wf_with_map (builder_bindings s b) _ W1) as W2.
  pose proof (ext_with_map (builder_bindings s b) _ W1) as E2.
  simpl in W2, E2.
  assert (graphs (with_map (S (next s)) (builder_bindings s b) (bump (bump s))) !! next s
          = None) as Hfresh by exact (fresh_graph _ W).
  split.
  - apply wf_with_graph; try done.
    + simpl. lia.
    + unfold with_map; simpl. rewrite lookup_insert_eq. eauto.
  - eapply ext_trans; [apply ext_bump |].
    eapply ext_trans; [exact E2 |]. by apply ext_with_graph.
Qed.

Lemma modify_sound g s : wf s → post (modify g s) (keeps s) (keeps s).
Proof.
  intros W. unfold modify. apply post_bind. unfold Graph_map.
  destruct (graphs s !! g); simpl; keeps_here.
Qed.

Lemma exec_op_sound op s s' : wf s → exec_op op s = Some s' → wf s' ∧ ext s s'.
Proof.
  intros W H.
  destruct op; unfold exec_op in H;
    apply (post_final _ (λ s', wf s' ∧ ext s s') _) with (2 := H).
  - by apply start_sound.
  - by apply add_sound.
  - by apply build_sound.
  - by apply modify_sound.
  - by apply resolve_sound.
Qed.

Lemma exec_ops_sound ops s s' : wf s → exec_ops ops s = Some s' → wf s' ∧ ext s s'.
Proof.
  revert s. induction ops as [| op ops IH]; intros s W; simpl.
  - intros [= <-]. split; [done | apply ext_refl].
  - destruct (exec_op op s) as [s1 |] eqn:H1; [| done].
    destruct (exec_op_sound _ _ _ W H1) as [W1 E1]. intros H.
    destruct (IH _ W1 H) as [W' E']. split; [done | by eapply ext_trans].
Qed.

(** ** What the scopes compute *)

Lemma resolve_kept fuel g i s v s' :
  wf s → resolve fuel g i s = Return v s' → wf s' ∧ ext s s'.
Proof. intros W H. apply (resolve_final fuel g i); [done | by rewrite H]. Qed.

(** A cached singleton is returned as it is; the heap does not change. *)
Lemma singleton_hit maker g i s v :
  wf s → cached s g i = Some v → scopes.singleton maker g i s = Return v s.
Proof.
  intros W Hc. unfold cached in Hc.
  destruct (prop_of s g singletonSymbol) as [r |] eqn:Hp; [| done].
  destruct (wf_props _ W _ _ _ Hp) as [c Hcr].
  unfold prop_of in Hp. destruct (graphs s !! g) as [go |] eqn:Hg; [| done].
  unfold scopes.singleton.
  erewrite bind_Return; [| unfold getOwnPropertyDescriptor; by rewrite Hg].
  rewrite Hp.
  erewrite bind_Return; [| reflexivity].
  erewrite bind_Return; [| reflexivity].
  erewrite bind_Return; [| by apply (Cache_get_eq _ _ _ _ Hcr)].
  rewrite Hc.
  erewrite bind_Return; [| reflexivity].
  erewrite bind_Return; [| by apply Cache_set_eq].
  by rewrite (with_slot_same _ _ _ _ _ Hcr Hc).
Qed.

(** Without a cached instance the maker runs, in a heap [s2] where the
    cache is registered on the graph, and its result is stored. *)
Lemma singleton_miss maker g i s :
  wf s → is_Some (graphs s !! g) → cached s g i = None →
  ∃ s2 r, wf s2 ∧ ext s s2 ∧ log s2 = log s ∧
    prop_of s2 g singletonSymbol = Some r ∧ slot s2 r i = None ∧
    scopes.singleton maker g i s =
      (let* value := maker g in
       let* _ := Cache_set r i value in
       ret value) s2.
Proof.
  intros W [go Hg] Hc. unfold scopes.singleton.
  erewrite bind_Return; [| unfold getOwnPropertyDescriptor; by rewrite Hg].
  destruct (g_props go !! singletonSymbol) as [r |] eqn:Hd.
  - assert (prop_of s g singletonSymbol = Some r) as Hp
      by (unfold prop_of; by rewrite Hg).
    destruct (wf_props _ W _ _ _ Hp) as [c Hcr].
    unfold cached in Hc. rewrite Hp in Hc.
    exists s, r. split_and!; try done; [apply ext_refl |].
    erewrite bind_Return; [| reflexivity].
    erewrite bind_Return; [| reflexivity].
    erewrite bind_Return; [| by apply (Cache_get_eq _ _ _ _ Hcr)].
    by rewrite Hc.
  - set (s1 := with_cache (next s) (empty_cache KMap) (bump s)).
    assert (wf s1) as W1 by (by apply wf_cache_alloc).
    assert (ext s s1) as E1 by (by apply ext_cache_alloc).
    assert (graphs s1 !! g = Some go) as Hg1 by done.
    assert (caches s1 !! next s = Some (empty_cache KMap)) as Hc1
      by (unfold s1, with_cache; simpl; by rewrite lookup_insert_eq).
    set (s2 := with_prop g go singletonSymbol (next s) s1).
    assert (slot s2 (next s) i = None) as Hs2.
    { unfold slot, s2; simpl. unfold s1, with_cache; simpl.
      by rewrite lookup_insert_eq. }
    exists s2, (next s). split_and!; try done.
    + eapply wf_with_prop; try done. intros g' sym'.
      by apply unregistered_cache_alloc.
    + eapply ext_trans; [exact E1 |]. by apply ext_with_prop.
    + unfold s2. rewrite prop_of_with_prop by done. by rewrite decide_True.
    + erewrite bind_Return; [| apply Cache_new_eq].
      erewrite bind_Return; [| by apply defineProperty_new].
      fold s1 s2.
      erewrite bind_Return; [| by apply (Cache_get_eq _ _ _ (empty_cache KMap))].
      by rewrite Hs2.
Qed.

(** The first scoped resolution on a graph, when it is weak-scoped: the
    maker runs in a heap [s2] where a new [WeakMap] is registered on the
    graph under [singletonSymbol]. *)
Lemma weak_first maker g i s :
  wf s → is_Some (graphs s !! g) → prop_of s g singletonSymbol = None →
  ∃ s2, wf s2 ∧ ext s s2 ∧ log s2 = log s ∧
    prop_of s2 g singletonSymbol = Some (next s) ∧
    caches s2 !! next s = Some (empty_cache KWeakMap) ∧
    scopes.weak maker g i s =
      (let* value := maker g in
       let* _ := Cache_set (next s) i VSingletonFn in
       ret value) s2.
Proof.
  intros W [go Hg] Hp.
  destruct (wf_graphs _ W _ _ Hg) as (_ & _ & Hweak).
  assert (g_props go !! singletonSymbol = None) as Hd
    by (unfold prop_of in Hp; by rewrite Hg in Hp).
  set (s1 := with_cache (next s) (empty_cache KWeakMap) (bump s)).
  assert (wf s1) as W1 by (by apply wf_cache_alloc).
  assert (ext s s1) as E1 by (by apply ext_cache_alloc).
  assert (graphs s1 !! g = Some go) as Hg1 by done.
  assert (caches s1 !! next s = Some (empty_cache KWeakMap)) as Hc1
    by (unfold s1, with_cache; simpl; by rewrite lookup_insert_eq).
  set (s2 := with_prop g go singletonSymbol (next s) s1).
  assert (slot s2 (next s) i = None) as Hs2.
  { unfold slot, s2; simpl. unfold s1, with_cache; simpl.
    by rewrite lookup_insert_eq. }
  exists s2. split_and!; try done.
  - eapply wf_with_prop; try done. intros g' sym'.
    by apply unregistered_cache_alloc.
  - eapply ext_trans; [exact E1 |]. by apply ext_with_prop.
  - unfold s2. rewrite prop_of_with_prop by done. by rewrite decide_True.
  - unfold scopes.weak.
    erewrite bind_Return; [| unfold getOwnPropertyDescriptor; by rewrite Hg, Hweak].
    erewrite bind_Return; [| apply Cache_new_eq].
    erewrite bind_Return; [| by apply defineProperty_new].
    fold s1 s2.
    erewrite bind_Return; [| by apply (Cache_get_eq _ _ _ (empty_cache KWeakMap))].
    by rewrite Hs2.
Qed.

(** Storing the result of a maker that returned. *)
Lemma store_result (maker : Maker) (g : Graph) r i (w : Value → Value) s2 v s3 c :
  maker g s2 = Return v s3 → caches s3 !! r = Some c →
  (let* value := maker g in
   let* _ := Cache_set r i (w value) in
   ret value) s2 = Return v (with_slot r c i (w v) s3).
Proof.
  intros Hm Hc. erewrite bind_Return; [| exact Hm].
  erewrite bind_Return; [| by apply Cache_set_eq]. done.
Qed.

Lemma invocations_same s s' g i : log s' = log s → invocations s' g i = invocations s g i.
Proof. unfold invocations. by intros ->. Qed.

(** ** Acyclic bindings resolve *)

Lemma maker_of_eq rec p i g s s' :
  run_body (c_name (p_ctor p))
    (if p_graph p then rec g else λ _, throw TypeError_undefined)
    (c_body (p_ctor p)) (bump (push_log (g, i, c_name (p_ctor p)) s)) = Return tt s' →
  maker_of rec p i g s = Return (VObj (c_name (p_ctor p)) (next s)) s'.
Proof.
  intros H. unfold maker_of.
  erewrite bind_Return; [| reflexivity].
  unfold new_instance.
  erewrite bind_Return; [| reflexivity].
  erewrite bind_Return; [| exact H]. done.
Qed.

Lemma ext_bindings s s' g m : ext s s' → bindings s g = Some m → bindings s' g = Some m.
Proof.
  intros He. unfold bindings. destruct (graphs s !! g) as [go |] eqn:Hg; [| done].
  destruct (ext_graphs _ _ He _ _ Hg) as (go' & -> & ->). apply He.
Qed.

Section acyclic_bindings.
Context (g : Graph) (m : gmap Iface Provider) (rk : Iface → nat).


Lemma maker_total rec i p s :
  body_total g m rk (if p_graph p then rec g else λ _, throw TypeError_undefined) i p →
  wf s → bindings s g = Some m →
  ∃ s', maker_of rec p i g s = Return (VObj (c_name (p_ctor p)) (next s)) s' ∧
    next s < next s' ∧
    (∀ r c, caches s !! r = Some c → is_Some (caches s' !! r)) ∧
    (∀ j, rk i < rk j → invocations s' g j = invocations s g j) ∧
    invocations s' g i = S (invocations s g i).
Proof.
  intros Hbody W Hb.
  set (s1 := bump (push_log (g, i, c_name (p_ctor p)) s)).
  assert (wf s1) as W1.
  { apply wf_bump, wf_push_log; [| done].
    unfold bindings in Hb. destruct (graphs s !! g); [eauto | done]. }
  destruct (Hbody s1 W1 Hb) as (s2 & Hrun & W2 & E2 & Hinv).
  assert (∀ j, invocations s1 g j =
               invocations (push_log (g, i, c_name (p_ctor p)) s) g j) as Hs1 by done.
  exists s2. split_and!.
  - by apply maker_of_eq.
  - pose proof (ext_next _ _ E2). simpl in *. lia.
  - intros r c Hc. destruct (ext_caches _ _ E2 r c Hc) as (c' & -> & _). eauto.
  - intros j Hj. rewrite Hinv by lia. rewrite Hs1.
    rewrite invocations_push_log. rewrite decide_False; [done |].
    intros [= <-]. lia.
  - rewrite Hinv by lia. rewrite Hs1.
    rewrite invocations_push_log. by rewrite decide_True.
Qed.


Lemma provider_total fuel i p s :
  m !! i = Some p → p_scope p ≠ ScopeWeak →
  body_total g m rk (if p_graph p then resolve fuel g else λ _, throw TypeError_undefined) i p →
  wf s → bindings s g = Some m →
  ∃ v s', resolve (S fuel) g i s = Return v s' ∧ resolved g rk i p s v s'.
Proof.
  intros Hi Hsc Hbody W Hb.
  assert (bound s g i p) as Hbd by (by exists m).
  assert (is_Some (graphs s !! g)) as Hlive.
  { unfold bindings in Hb. destruct (graphs s !! g); [eauto | done]. }
  rewrite (resolve_bound _ _ _ p) by done.
  assert (∀ v s', call_provider (resolve fuel) p g i s = Return v s' →
                  wf s' ∧ ext s s') as Hkept.
  { intros v s' H.
    pose proof (call_provider_sound _ p g i s (resolve_sound fuel) W Hbd) as Hp.
    by rewrite H in Hp. }
  unfold resolved, call_provider in *.
  destruct (p_scope p) eqn:Hscope; [| | done]; simpl in *.
  - unfold scopes.none in *.
    destruct (maker_total (resolve fuel) i p s Hbody W Hb)
      as (s' & Hrun & Hnext & _ & Hinv & Hinv').
    exists (VObj (c_name (p_ctor p)) (next s)), s'.
    destruct (Hkept _ _ Hrun) as [W' E']. split_and!; try done. eauto.
  - destruct (cached s g i) as [v0 |] eqn:Hc.
    + exists v0, s. rewrite (singleton_hit _ _ _ _ v0) in * by done.
      split_and!; try done. apply ext_refl.
    + destruct (singleton_miss (maker_of (resolve fuel) p i) g i s W Hlive Hc)
        as (s2 & r & W2 & E2 & Hlog & Hp2 & Hs2 & Heq).
      rewrite Heq in *.
      destruct (maker_total (resolve fuel) i p s2 Hbody W2 (ext_bindings _ _ _ _ E2 Hb))
        as (s3 & Hrun & Hnext & Hcaches & Hinv & Hinv').
      destruct (wf_props _ W2 _ _ _ Hp2) as [c2 Hc2].
      destruct (Hcaches _ _ Hc2) as [c3 Hc3].
      rewrite (store_result _ _ _ _ (λ v, v) _ _ _ _ Hrun Hc3) in *.
      eexists _, _. split; [done |].
      destruct (Hkept _ _ eq_refl) as [W' E']. split_and!; try done.
      * intros j Hj. rewrite <- (invocations_same s s2 g j Hlog).
        rewrite <- Hinv by done. by apply invocations_same.
      * exists (next s2). split_and!; [done | apply E2 | done].
      * rewrite <- (invocations_same s s2 g i Hlog).
        rewrite <- Hinv'. by apply invocations_same.
Qed.

Lemma acyclic_run_body n b :
  acyclic m rk n b →
  ∀ cls fuel s, n ≤ fuel → wf s → bindings s g = Some m →
    ∃ s', run_body cls (resolve fuel g) b s = Return tt s' ∧
      wf s' ∧ ext s s' ∧
      ∀ j, n ≤ rk j → invocations s' g j = invocations s g j.
Proof.
  induction 1 as [n | n i k p Hi Hsc Hrk _ IHbody Hnodep _ IHk];
    intros cls fuel s Hfuel W Hb; simpl.
  - exists s. split_and!; try done. apply ext_refl.
  - destruct fuel as [| fuel]; [lia |].
    assert (body_total g m rk
              (if p_graph p then resolve fuel g else λ _, throw TypeError_undefined)
              i p) as Hbody.
    { intros s1 W1 Hb1. destruct (p_graph p) eqn:Hpg.
      - apply IHbody; try done. lia.
      - rewrite Hnodep by done. simpl. exists s1.
        split_and!; try done. apply ext_refl. }
    destruct (provider_total fuel i p s Hi Hsc Hbody W Hb)
      as (v & s1 & Hres & W1 & E1 & Hinv & _).
    erewrite bind_Return; [| exact Hres].
    destruct (IHk v cls (S fuel) s1 Hfuel W1 (ext_bindings _ _ _ _ E1 Hb))
      as (s2 & Hrun & W2 & E2 & Hinv2).
    exists s2. split_and!; try done.
    + by eapply ext_trans.
    + intros j Hj. rewrite Hinv2 by done. apply Hinv. lia.
Qed.

Lemma acyclic_body_total fuel i p :
  (p_graph p = true → acyclic m rk (rk i) (c_body (p_ctor p))) →
  (p_graph p = false → c_body (p_ctor p) = Done) →
  rk i ≤ fuel →
  body_total g m rk (if p_graph p then resolve fuel g else λ _, throw TypeError_undefined) i p.
Proof.
  intros Hacyc Hnodep Hfuel s1 W1 Hb1. destruct (p_graph p) eqn:Hpg.
  - by apply (acyclic_run_body (rk i)); auto.
  - rewrite Hnodep by done. simpl. exists s1.
    split_and!; try done. apply ext_refl.
Qed.

(** An interface whose dependencies are acyclic resolves, with a call
    stack of depth [rk i + 1]. *)
Lemma resolvable_total i fuel s :
  resolvable m rk i → rk i ≤ fuel → wf s → bindings s g = Some m →
  ∃ p v s', m !! i = Some p ∧ resolve (S fuel) g i s = Return v s' ∧
    resolved g rk i p s v s'.
Proof.
  intros Hres Hfuel W Hb. unfold resolvable in Hres.
  inversion Hres as [| n i' k p Hi Hsc Hrk Hacyc Hnodep Hk]; subst.
  exists p.
  destruct (provider_total fuel i p s Hi Hsc
              (acyclic_body_total fuel i p Hacyc Hnodep Hfuel) W Hb)
    as (v & s' & Hr & Hd).
  eauto.
Qed.
End acyclic_bindings.

(** ** Facts about [add], [build] and [modify] *)

Lemma builder_bindings_with_map n content s b :
  builder_bindings (with_map n content (bump s)) b =
    if decide (n = b_map b) then content else builder_bindings s b.
Proof.
  unfold builder_bindings, with_map; simpl. case_decide as H.
  - subst. by rewrite lookup_insert_eq.
  - by rewrite lookup_insert_ne.
Qed.

Lemma add_spec b impl ctor scope s :
  let p := {| p_scope := scope; p_ctor := ctor; p_graph := true |} in
  ∃ s', add b impl ctor scope s = Return {| b_map := next s |} s' ∧
    builder_bindings s' {| b_map := next s |} = <[impl := p]> (builder_bindings s b) ∧
    (wf s → wf s' ∧ ext s s' ∧
       ∀ b0, is_Some (maps s !! b_map b0) →
             builder_bindings s' b0 = builder_bindings s b0).
Proof.
  intros p. eexists. split; [apply add_eq |]. split.
  - rewrite builder_bindings_with_map. by rewrite decide_True.
  - intros W. split_and!; [by apply wf_with_map | by apply ext_with_map |].
    intros b0 [c Hc]. rewrite builder_bindings_with_map.
    rewrite decide_False; [done |]. intros Heq. rewrite <- Heq in Hc.
    by rewrite (fresh_map _ W) in Hc.
Qed.

Lemma build_spec b s :
  ∃ s', build b s = Return (next s) s' ∧
    bindings s' (next s) = Some (builder_bindings s b) ∧
    (∀ sym, prop_of s' (next s) sym = None) ∧
    log s' = log s ∧
    (wf s → wf s' ∧ ext s s' ∧ graphs s !! next s = None ∧
       ∀ b0, is_Some (maps s !! b_map b0) →
             builder_bindings s' b0 = builder_bindings s b0).
Proof.
  eexists. split; [apply build_eq |]. split_and!.
  - unfold bindings, with_graph, with_map; simpl.
    rewrite lookup_insert_eq; simpl. by rewrite lookup_insert_eq.
  - intros sym. unfold prop_of, with_graph; simpl. by rewrite lookup_insert_eq.
  - done.
  - intros W. pose proof (build_sound b s W) as Hs. rewrite build_eq in Hs.
    destruct Hs as [W' E']. split_and!; try done.
    + by apply fresh_graph.
    + intros b0 [c Hc]. unfold builder_bindings, with_graph, with_map; simpl.
      rewrite lookup_insert_ne; [done |]. intros Heq.
      apply (wf_maps _ W) in Hc. lia.
Qed.

Lemma bound_of_bindings s g m i p : bindings s g = Some m → m !! i = Some p → bound s g i p.
Proof. intros Hb Hi. by exists m. Qed.

Lemma exec_ops_bindings ops s s' g m :
  wf s → exec_ops ops s = Some s' → bindings s g = Some m → bindings s' g = Some m.
Proof.
  intros W H. destruct (exec_ops_sound _ _ _ W H) as [_ E]. by apply ext_bindings.
Qed.

Lemma exec_ops_builder ops s s' b :
  wf s → exec_ops ops s = Some s' → is_Some (maps s !! b_map b) →
  builder_bindings s' b = builder_bindings s b.
Proof.
  intros W H [c Hc]. destruct (exec_ops_sound _ _ _ W H) as [_ E].
  unfold builder_bindings. by rewrite (ext_maps _ _ E _ _ Hc), Hc.
Qed.

(** ** Facts about resolutions that returned *)

Lemma resolve_returns_instance fuel g i p s v s' :
  wf s → bound s g i p → (p_scope p = ScopeSingleton → cached s g i = None) →
  resolve fuel g i s = Return v s' →
  ∃ o, v = VObj (c_name (p_ctor p)) o.
Proof.
  intros W Hb Hnone. destruct fuel as [| fuel].
  { simpl. destruct (proj1 (bound_lookup _ _ _ _) Hb) as (go & m & Hg & Hm & Hi).
    unfold bind at 1. unfold Graph_map. rewrite Hg.
    unfold bind at 1. unfold Map_get. by rewrite Hm, Hi. }
  rewrite (resolve_bound _ _ _ p) by done. unfold call_provider.
  pose proof (maker_of_sound (resolve fuel) p g i (resolve_sound fuel)) as Hmaker.
  destruct (p_scope p) eqn:Hsc; simpl; intros Hr.
  - pose proof (Hmaker s W Hb) as Hp. unfold scopes.none in Hr. rewrite Hr in Hp.
    destruct Hp as (_ & _ & o & -> & Ho & _); [by rewrite Hsc |]. eauto.
  - pose proof (singleton_spec _ p g i s Hmaker W Hb) as Hp. rewrite Hr in Hp.
    destruct Hp as (_ & _ & _ & Hm). rewrite Hnone in Hm by done.
    destruct Hm as (o & -> & _). eauto.
  - pose proof (weak_spec _ g i p s Hmaker W Hb Hsc) as Hp. rewrite Hr in Hp.
    destruct Hp as (_ & E & _ & _ & _ & _ & o & ->). eauto.
Qed.

(** A singleton-scoped resolution that returned has cached what it
    returned, and that is an instance. *)
Lemma resolve_singleton fuel g i p s v s' :
  wf s → bound s g i p → p_scope p = ScopeSingleton →
  resolve fuel g i s = Return v s' →
  wf s' ∧ ext s s' ∧ cached s' g i = Some v ∧ is_instance v.
Proof.
  intros W Hb Hsc Hr. destruct (resolve_kept _ _ _ _ _ _ W Hr) as [W' E'].
  destruct fuel as [| fuel].
  { simpl in Hr. destruct (proj1 (bound_lookup _ _ _ _) Hb) as (go & m & Hg & Hm & Hi).
    revert Hr. unfold bind at 1. unfold Graph_map. rewrite Hg.
    unfold bind at 1. unfold Map_get. by rewrite Hm, Hi. }
  rewrite (resolve_bound _ _ _ p) in Hr by done. unfold call_provider in Hr.
  rewrite Hsc in Hr. simpl in Hr.
  pose proof (maker_of_sound (resolve fuel) p g i (resolve_sound fuel)) as Hmaker.
  pose proof (singleton_spec _ p g i s Hmaker W Hb) as Hp. rewrite Hr in Hp.
  destruct Hp as (_ & _ & Hc & Hm). split_and!; try done.
  destruct (cached s g i) as [v0 |] eqn:Hc0.
  - destruct Hm as [Hv _]. subst v. destruct v0 as [cls o |]; [done |].
    unfold cached in Hc0.
    destruct (prop_of s g singletonSymbol) as [r |] eqn:Hp; [| done].
    destruct (wf_fn _ W _ _ _ _ Hp Hc0) as (p' & Hb' & Hsc').
    rewrite (bound_inj _ _ _ _ _ Hb Hb') in Hsc. congruence.
  - by destruct Hm as (o & -> & _).
Qed.

(** A scoped resolution that came to an end, by a result or by an
    exception, has left [singletonSymbol] defined on the graph. *)
Lemma scoped_defines fuel g i p s s' :
  wf s → bound s g i p → p_scope p ≠ ScopeNone →
  final (resolve fuel g i s) = Some s' →
  is_Some (prop_of s' g singletonSymbol).
Proof.
  intros W Hb Hsc. destruct fuel as [| fuel].
  { simpl. destruct (proj1 (bound_lookup _ _ _ _) Hb) as (go & m & Hg & Hm & Hi).
    unfold bind at 1. unfold Graph_map. rewrite Hg.
    unfold bind at 1. unfold Map_get. by rewrite Hm, Hi. }
  rewrite (resolve_bound _ _ _ p) by done. unfold call_provider.
  pose proof (maker_of_sound (resolve fuel) p g i (resolve_sound fuel)) as Hmaker.
  destruct (p_scope p) eqn:Hscope; [done | |]; simpl.
  - pose proof (singleton_spec _ p g i s Hmaker W Hb) as Hp.
    destruct (scopes.singleton _ g i s); simpl in *; intros [= ->].
    + destruct Hp as (_ & _ & Hc & _). unfold cached in Hc.
      destruct (prop_of s' g singletonSymbol); [eauto | done].
    + by destruct Hp as (_ & _ & Hc).
  - pose proof (weak_spec _ g i p s Hmaker W Hb Hscope) as Hp.
    destruct (scopes.weak _ g i s); simpl in *; intros [= ->].
    + destruct Hp as (_ & _ & _ & Hc & _). eauto.
    + by destruct Hp as (_ & _ & Hc).
Qed.

(** Two graphs never hold the same instance in their singleton caches. *)
Lemma distinct_graphs_distinct_instances f1 f2 g1 g2 i p1 p2 s v1 s1 v2 s2 :
  wf s → g1 ≠ g2 →
  bound s g1 i p1 → p_scope p1 = ScopeSingleton →
  bound s g2 i p2 → p_scope p2 = ScopeSingleton →
  resolve f1 g1 i s = Return v1 s1 → resolve f2 g2 i s1 = Return v2 s2 →
  v1 ≠ v2.
Proof.
  intros W Hne Hb1 Hsc1 Hb2 Hsc2 Hr1 Hr2.
  destruct (resolve_singleton _ _ _ _ _ _ _ W Hb1 Hsc1 Hr1) as (W1 & E1 & Hc1 & Hi1).
  destruct (resolve_singleton _ _ _ _ _ _ _ W1 (ext_bound _ _ _ _ _ E1 Hb2) Hsc2 Hr2)
    as (W2 & E2 & Hc2 & Hi2).
  apply (ext_cached _ _ _ _ _ E2) in Hc1.
  intros <-. destruct v1 as [cls o |]; [| done].
  unfold cached in Hc1, Hc2.
  destruct (prop_of s2 g1 singletonSymbol) as [r1 |] eqn:Hp1; [| done].
  destruct (prop_of s2 g2 singletonSymbol) as [r2 |] eqn:Hp2; [| done].
  destruct (wf_slot_inj _ W2 _ _ _ _ _ _ _ Hc1 Hc2) as [-> _].
  apply Hne. by eapply (wf_prop_inj _ W2).
Qed.

(** On a graph without scope caches an interface whose constructor is
    acyclic resolves, whatever its scope. *)
Lemma fresh_total g m rk fuel i p s :
  m !! i = Some p →
  (p_graph p = true → acyclic m rk (rk i) (c_body (p_ctor p))) →
  (p_graph p = false → c_body (p_ctor p) = Done) →
  rk i ≤ fuel →
  wf s → bindings s g = Some m → prop_of s g singletonSymbol = None →
  ∃ o s', resolve (S fuel) g i s = Return (VObj (c_name (p_ctor p)) o) s' ∧
    wf s' ∧ ext s s'.
Proof.
  intros Hi Hacyc Hnodep Hfuel W Hb Hp.
  pose proof (acyclic_body_total g m rk fuel i p Hacyc Hnodep Hfuel) as Hbody.
  assert (bound s g i p) as Hbd by (by exists m).
  destruct (decide (p_scope p = ScopeWeak)) as [Hsc | Hsc].
  - assert (is_Some (graphs s !! g)) as Hlive.
    { unfold bindings in Hb. destruct (graphs s !! g); [eauto | done]. }
    destruct (weak_first (maker_of (resolve fuel) p i) g i s W Hlive Hp)
      as (s2 & W2 & E2 & Hlog & Hp2 & Hc2 & Heq).
    destruct (maker_total g m rk (resolve fuel) i p s2 Hbody W2
                (ext_bindings _ _ _ _ E2 Hb))
      as (s3 & Hrun & _ & Hcaches & _).
    destruct (Hcaches _ _ Hc2) as [c3 Hc3].
    assert (resolve (S fuel) g i s =
            Return (VObj (c_name (p_ctor p)) (next s2))
              (with_slot (next s) c3 i VSingletonFn s3)) as Hr.
    { rewrite (resolve_bound _ _ _ p) by done. unfold call_provider.
      rewrite Hsc. simpl. rewrite Heq.
      by apply (store_result _ _ _ _ (λ _, VSingletonFn)). }
    eexists _, _. split; [exact Hr |]. by eapply resolve_kept.
  - destruct (provider_total g m rk fuel i p s Hi Hsc Hbody W Hb)
      as (v & s' & Hr & W' & E' & _ & Hm).
    assert (cached s g i = None) as Hc by (unfold cached; by rewrite Hp).
    rewrite Hc in Hm.
    assert (∃ o, v = VObj (c_name (p_ctor p)) o) as [o ->].
    { destruct (p_scope p); destruct Hm as [(o & -> & _) _]; eauto. }
    eauto.
Qed.

(** ** The coffee shop is well formed *)

Lemma shop_heap_ops sc :
  exec_ops
    [OpStart CoffeeShop.Heater CoffeeShop.ElectricHeater ScopeNone;
     OpAdd {| b_map := 0 |} CoffeeShop.Pump CoffeeShop.Thermosiphon ScopeNone;
     OpAdd {| b_map := 1 |} CoffeeShop.CoffeeMaker CoffeeShop.CoffeeMakerC sc;
     OpBuild {| b_map := 2 |}] initial = Some (shop_heap sc).
Proof. reflexivity. Qed.

Lemma wf_shop_heap sc : wf (shop_heap sc).
Proof. eapply exec_ops_sound; [apply wf_initial | apply shop_heap_ops]. Qed.

Lemma wf_heater_heap : wf heater_heap.
Proof.
  apply (exec_ops_sound
           [OpStart CoffeeShop.Heater CoffeeShop.ElectricHeater ScopeNone] initial);
    [apply wf_initial | reflexivity].
Qed.

Lemma shop_bindings_eq sc : bindings (shop_heap sc) shop_graph = Some (shop_bindings sc).
Proof. reflexivity. Qed.

Lemma shop_resolvable sc :
  sc ≠ ScopeWeak → resolvable (shop_bindings sc) (λ i, i) CoffeeShop.CoffeeMaker.
Proof.
  intros Hsc. unfold resolvable.
  eapply acyclic_Resolve; [reflexivity | done | cbv; lia | | done | constructor].
  intros _. simpl.
  eapply acyclic_Resolve; [reflexivity | done | cbv; lia | | done | constructor].
  intros _. simpl.
  eapply acyclic_Resolve; [reflexivity | done | cbv; lia | done | done | constructor].
Qed.

(** ** A deeper call stack changes no result *)


Lemma below_refl {A} (o : Outcome A) : below o o.
Proof. by right. Qed.

Lemma below_bind {A B} (m m' : M A) (f f' : A → M B) s :
  below (m s) (m' s) → (∀ a s1, below (f a s1) (f' a s1)) →
  below (bind m f s) (bind m' f' s).
Proof.
  unfold bind. intros [H | H] Hf.
  - rewrite H. by left.
  - rewrite H. destruct (m' s); [apply Hf | by right | by right].
Qed.

Lemma below_bind_same {A B} (m : M A) (f f' : A → M B) s :
  (∀ a s1, below (f a s1) (f' a s1)) → below (bind m f s) (bind m f' s).
Proof. intros Hf. apply below_bind; [apply below_refl | done]. Qed.

Lemma run_body_below cls (res res' : Iface → M Value) b s :
  (∀ i s1, below (res i s1) (res' i s1)) →
  below (run_body cls res b s) (run_body cls res' b s).
Proof.
  intros Hres. revert s. induction b as [| i k IH |]; intros s; simpl.
  - apply below_refl.
  - apply below_bind; [apply Hres | intros v s1; apply IH].
  - apply below_refl.
Qed.

Lemma maker_of_below (rec rec' : Graph → Iface → M Value) p i g s :
  (∀ g1 i1 s1, below (rec g1 i1 s1) (rec' g1 i1 s1)) →
  below (maker_of rec p i g s) (maker_of rec' p i g s).
Proof.
  intros Hrec. unfold maker_of, new_instance.
  apply below_bind_same. intros _ s1.
  apply below_bind_same. intros o s2.
  apply below_bind; [| intros; apply below_refl].
  apply run_body_below. intros i1 s3.
  destruct (p_graph p); [apply Hrec | apply below_refl].
Qed.

Lemma apply_scope_below sc (maker maker' : Maker) g i s :
  (∀ s1, below (maker g s1) (maker' g s1)) →
  below (apply_scope sc maker g i s) (apply_scope sc maker' g i s).
Proof.
  intros Hm. destruct sc; simpl.
  - apply Hm.
  - unfold scopes.singleton.
    apply below_bind_same. intros descriptor s1.
    apply below_bind_same. intros singletonMap s2.
    apply below_bind_same. intros _ s3.
    apply below_bind_same. intros cached s4.
    apply below_bind; [| intros; apply below_refl].
    destruct cached; [apply below_refl | apply Hm].
  - unfold scopes.weak.
    apply below_bind_same. intros descriptor s1.
    apply below_bind_same. intros weakMap s2.
    apply below_bind_same. intros _ s3.
    apply below_bind_same. intros cached s4.
    apply below_bind; [| intros; apply below_refl].
    destruct cached; [apply below_refl | apply Hm].
Qed.

Lemma resolve_below_S fuel g i s : below (resolve fuel g i s) (resolve (S fuel) g i s).
Proof.
  revert g i s. induction fuel as [| fuel IH]; intros g i s.
  - simpl. apply below_bind_same. intros m s1.
    apply below_bind_same. intros provider s2.
    destruct provider; [by left | apply below_refl].
  - change (below
      ((let* m := Graph_map g in
        let* provider := Map_get m i in
        match provider with
        | None => throw (UnsatisfiedDependency i)
        | Some p => call_provider (resolve fuel) p g i
        end) s)
      ((let* m := Graph_map g in
        let* provider := Map_get m i in
        match provider with
        | None => throw (UnsatisfiedDependency i)
        | Some p => call_provider (resolve (S fuel)) p g i
        end) s)).
    apply below_bind_same. intros m s1.
    apply below_bind_same. intros provider s2.
    destruct provider as [p |]; [| apply below_refl].
    unfold call_provider. apply apply_scope_below. intros s3.
    apply maker_of_below. apply IH.
Qed.

Lemma resolve_below fuel fuel' g i s :
  fuel ≤ fuel' → below (resolve fuel g i s) (resolve fuel' g i s).
Proof.
  induction 1 as [| fuel' _ IH]; [apply below_refl |].
  destruct IH as [IH | IH]; [by left |]. rewrite IH. apply resolve_below_S.
Qed.

(** A result obtained with some call stack is the result with any deeper
    one. *)
Lemma resolve_fuel_mono fuel fuel' g i s v s' :
  fuel ≤ fuel' → resolve fuel g i s = Return v s' → resolve fuel' g i s = Return v s'.
Proof.
  intros Hle Hr. destruct (resolve_below fuel fuel' g i s Hle) as [H | H]; congruence.
Qed.

(** ** A singleton maker with acyclic dependencies runs at most once *)

Lemma resolve_cases fuel g j s :
  (∃ p, bound s g j p) ∨ (∃ e, resolve fuel g j s = Throw e s).
Proof.
  destruct (graphs s !! g) as [go |] eqn:Hg.
  - destruct (maps s !! g_map go) as [m |] eqn:Hm.
    + destruct (m !! j) as [p |] eqn:Hj.
      * left. exists p. apply bound_lookup. eauto.
      * right. eexists. apply (resolve_unbound _ _ _ _ m); [| done].
        unfold bindings. by rewrite Hg.
    + right. eexists. destruct fuel; simpl.
      all: unfold bind at 1; unfold Graph_map; rewrite Hg.
      all: unfold bind at 1; unfold Map_get; by rewrite Hm.
  - right. eexists. destruct fuel; simpl.
    all: unfold bind at 1; unfold Graph_map; by rewrite Hg.
Qed.

Lemma bind_Overflow {A B} (m : M A) (f : A → M B) s :
  m s = Overflow → bind m f s = Overflow.
Proof. unfold bind. by intros ->. Qed.

(** Writing the slot of another graph, or of another interface, leaves the
    cached instance alone. *)
Lemma cached_with_slot s g i g' r c j v :
  wf s → prop_of s g' singletonSymbol = Some r → caches s !! r = Some c →
  (g', j) ≠ (g, i) →
  cached (with_slot r c j v s) g i = cached s g i.
Proof.
  intros W Hp Hc Hne. unfold cached.
  change (prop_of (with_slot r c j v s) g singletonSymbol)
    with (prop_of s g singletonSymbol).
  destruct (prop_of s g singletonSymbol) as [r0 |] eqn:Hp0; [| done].
  rewrite slot_with_slot by done. rewrite decide_False; [done |].
  intros [<- <-]. apply Hne. f_equal. by eapply (wf_prop_inj _ W).
Qed.

Section once.
Context (g : Graph) (m : gmap Iface Provider) (rk : Iface → nat).
Context (i : Iface) (p : Provider) (c0 : nat).
Context (Hi : m !! i = Some p) (Hsc : p_scope p = ScopeSingleton).
Context (Hres : resolvable m rk i).

Lemma once_same s s' :
  wf s' → bindings s' g = bindings s g → cached s' g i = cached s g i →
  invocations s' g i = invocations s g i → once_inv g m i c0 s → once_inv g m i c0 s'.
Proof.
  intros W' Hb Hc Hn (_ & Hbs & Hcount). split_and!; [done | congruence |].
  by rewrite Hc, Hn.
Qed.

Lemma once_silent s s' :
  wf s' → ext s s' → invocations s' g i = invocations s g i →
  once_inv g m i c0 s → once_inv g m i c0 s'.
Proof.
  intros W' E Hn (_ & Hbs & Hcount). split_and!; [done | by eapply ext_bindings |].
  rewrite Hn. destruct (cached s g i) as [v |] eqn:Hc.
  - by rewrite (ext_cached _ _ _ _ _ E Hc).
  - destruct (cached s' g i); lia.
Qed.

Lemma once_run_body cls (res : Iface → M Value) b :
  (∀ j s, once_inv g m i c0 s →
     post (res j s) (λ _, once_inv g m i c0) (λ _, once_inv g m i c0)) →
  ∀ s, once_inv g m i c0 s →
    post (run_body cls res b s) (λ _, once_inv g m i c0) (λ _, once_inv g m i c0).
Proof.
  intros Hres'. induction b as [| j k IH |]; intros s K; simpl; try done.
  apply post_bind. eapply post_mono; [by apply Hres' | | done].
  intros v s1 K1. by apply IH.
Qed.

Lemma once_maker rec p' g' j s :
  (∀ g1 j1 s1, once_inv g m i c0 s1 →
     post (rec g1 j1 s1) (λ _, once_inv g m i c0) (λ _, once_inv g m i c0)) →
  (g', j) ≠ (g, i) → is_Some (graphs s !! g') → once_inv g m i c0 s →
  post (maker_of rec p' j g' s) (λ _, once_inv g m i c0) (λ _, once_inv g m i c0).
Proof.
  intros Hrec Hne Hlive K. unfold maker_of, new_instance.
  apply post_bind. simpl. apply post_bind. simpl. apply post_bind.
  eapply post_mono; [apply once_run_body | |]; try done.
  - intros j1 s1 K1. destruct (p_graph p'); [by apply Hrec | done].
  - destruct K as (W & Hb & Hc).
    apply (once_same s); try done.
    + by apply wf_bump, wf_push_log.
    + change (invocations (push_log (g', j, c_name (p_ctor p')) s) g i = invocations s g i).
      rewrite invocations_push_log. by rewrite decide_False.
Qed.

(** The maker of [i] itself: it exceeds the call stack, or it returns after
    one invocation. *)
Lemma once_own_maker fuel s :
  wf s → bindings s g = Some m →
  maker_of (resolve fuel) p i g s = Overflow ∨
  ∃ v s', maker_of (resolve fuel) p i g s = Return v s' ∧
    invocations s' g i = S (invocations s g i) ∧
    ∀ r c, caches s !! r = Some c → is_Some (caches s' !! r).
Proof.
  intros W Hb. unfold resolvable in Hres.
  inversion Hres as [| n i' k p' Hi' Hsc' Hrk Hacyc Hnodep Hk]; subst.
  assert (p' = p) as -> by congruence.
  destruct (maker_total g m rk (resolve (fuel + rk i)) i p s) as
    (s' & Hrun & _ & Hcaches & _ & Hinv); try done.
  { apply acyclic_body_total; try done. lia. }
  destruct (maker_of_below (resolve fuel) (resolve (fuel + rk i)) p i g s) as [H | H].
  { intros g1 i1 s1. apply resolve_below. lia. }
  - by left.
  - right. exists (VObj (c_name (p_ctor p)) (next s)), s'.
    split_and!; try done. by rewrite H.
Qed.

Lemma once_resolve fuel g' j s :
  once_inv g m i c0 s →
  post (resolve fuel g' j s) (λ _, once_inv g m i c0) (λ _, once_inv g m i c0).
Proof.
  revert g' j s. induction fuel as [| fuel IH]; intros g' j s K.
  { destruct (resolve_cases 0 g' j s) as [[p' Hb'] | [e ->]]; [| done].
    simpl. destruct (proj1 (bound_lookup _ _ _ _) Hb') as (go & m' & Hg & Hm & Hj).
    unfold bind at 1. unfold Graph_map. rewrite Hg.
    unfold bind at 1. unfold Map_get. by rewrite Hm, Hj. }
  destruct (resolve_cases (S fuel) g' j s) as [[p' Hb'] | [e ->]]; [| done].
  pose proof K as (W & Hb & Hcount).
  pose proof (call_provider_sound _ p' g' j s (resolve_sound fuel) W Hb') as Hsound.
  pose proof (maker_of_sound (resolve fuel) p' g' j (resolve_sound fuel)) as Hmaker.
  pose proof (bound_live _ _ _ _ Hb') as Hlive.
  rewrite (resolve_bound _ _ _ p') in * by done. unfold call_provider in *.
  destruct (decide ((g', j) = (g, i))) as [Heq | Hne].
  - (* the maker of [i] itself *)
    simplify_eq.
    assert (p' = p) as ->.
    { destruct Hb' as (m' & Hbm & Hj). congruence. }
    rewrite Hsc in *. simpl in *.
    pose proof (singleton_spec _ p g i s Hmaker W Hb') as Hspec.
    destruct (cached s g i) as [v0 |] eqn:Hc.
    { by rewrite (singleton_hit _ _ _ _ v0) by done. }
    destruct (singleton_miss (maker_of (resolve fuel) p i) g i s W Hlive Hc)
      as (s2 & r & W2 & E2 & Hlog & Hp2 & Hs2 & Heq).
    rewrite Heq in *.
    destruct (once_own_maker fuel s2 W2 (ext_bindings _ _ _ _ E2 Hb))
      as [Hov | (v & s3 & Hrun & Hinv & Hcaches)].
    { by erewrite bind_Overflow. }
    destruct (wf_props _ W2 _ _ _ Hp2) as [c2 Hc2].
    destruct (Hcaches _ _ Hc2) as [c3 Hc3].
    rewrite (store_result _ _ _ _ (λ v, v) _ _ _ _ Hrun Hc3) in *.
    simpl in *. destruct Hsound as [W4 E4]. destruct Hspec as (_ & _ & Hc4 & _).
    split_and!; [done | by eapply ext_bindings |].
    rewrite Hc4.
    change (invocations (with_slot r c3 i v s3) g i) with (invocations s3 g i).
    rewrite Hinv, (invocations_same s s2 g i Hlog). lia.
  - (* another maker *)
    assert (∀ s1, is_Some (graphs s1 !! g') → once_inv g m i c0 s1 →
              post (maker_of (resolve fuel) p' j g' s1)
                (λ _, once_inv g m i c0) (λ _, once_inv g m i c0)) as Hk.
    { intros s1 Hlive1 K1. by apply once_maker. }
    assert (∀ r w s2, wf s2 → ext s s2 → log s2 = log s →
              prop_of s2 g' singletonSymbol = Some r →
              (p_scope p' = ScopeSingleton → cached s2 g' j = None) →
              post ((let* value := maker_of (resolve fuel) p' j g' in
                     let* _ := Cache_set r j (w value) in
                     ret value) s2) (keeps s) (keeps s) →
              post ((let* value := maker_of (resolve fuel) p' j g' in
                     let* _ := Cache_set r j (w value) in
                     ret value) s2)
                (λ _, once_inv g m i c0) (λ _, once_inv g m i c0)) as Htail.
    { intros r w s2 W2 E2 Hlog Hp2 Hnone Hkept.
      assert (once_inv g m i c0 s2) as K2.
      { apply (once_silent s); try done. by apply invocations_same. }
      assert (bound s2 g' j p') as Hb2 by (by eapply ext_bound).
      pose proof (Hk s2 (bound_live _ _ _ _ Hb2) K2) as Hk2.
      pose proof (Hmaker s2 W2 Hb2 Hnone) as Hms.
      revert Hkept. unfold bind at 1 3.
      destruct (maker_of (resolve fuel) p' j g' s2) as [v s3 | e s3 |] eqn:Hrun;
        simpl in *; try done.
      destruct Hk2 as (W3 & Hb3 & Hcount3).
      unfold bind at 1 2. unfold Cache_set.
      destruct (caches s3 !! r) as [c3 |] eqn:Hc3; simpl; [| done].
      intros [W4 _].
      assert (prop_of s3 g' singletonSymbol = Some r) as Hp3.
      { destruct Hms as (_ & E3 & _). by apply (ext_props _ _ E3). }
      apply (once_same s3); try done.
      by apply (cached_with_slot _ _ _ g'). }
    destruct (p_scope p') eqn:Hsc'; simpl in *.
    + unfold scopes.none. by apply Hk.
    + destruct (cached s g' j) as [v0 |] eqn:Hc.
      { by rewrite (singleton_hit _ _ _ _ v0) by done. }
      destruct (singleton_miss (maker_of (resolve fuel) p' j) g' j s W Hlive Hc)
        as (s2 & r & W2 & E2 & Hlog & Hp2 & Hs2 & Heq).
      rewrite Heq in *. apply (Htail r (λ v, v)); try done.
      intros _. unfold cached. by rewrite Hp2.
    + destruct (prop_of s g' singletonSymbol) as [r |] eqn:Hp.
      { rewrite (weak_defined _ _ _ _ r) in * by done. simpl in *.
        destruct Hsound as [W1 E1]. apply (once_silent s); try done. }
      destruct (weak_first (maker_of (resolve fuel) p' j) g' j s W Hlive Hp)
        as (s2 & W2 & E2 & Hlog & Hp2 & Hc2 & Heq).
      rewrite Heq in *. by apply (Htail (next s) (λ _, VSingletonFn)).
Qed.
End once.

(** * The claims *)

(** C2: for every graph [g] and every interface [J] that has no binding in
    [g], [g.resolve(J)] throws the unsatisfied-dependency error that names
    [J], whatever the depth of the call stack; it never returns a value. *)
Theorem resolve_unbound_throws fuel g J s m :
  bindings s g = Some m → m !! J = None →
  resolve fuel g J s = Throw (UnsatisfiedDependency J) s ∧
  ∀ v s', resolve fuel g J s ≠ Return v s'.
Proof.
  intros Hb Hi. rewrite (resolve_unbound _ _ _ _ m) by done. done.
Qed.

Lemma resolve_unbound_throws_witness :
  resolve 5 shop_graph 9 (shop_heap ScopeNone) =
    Throw (UnsatisfiedDependency 9) (shop_heap ScopeNone) ∧
  ∀ v s', resolve 5 shop_graph 9 (shop_heap ScopeNone) ≠ Return v s'.
Proof.
  apply (resolve_unbound_throws 5 shop_graph 9 (shop_heap ScopeNone)
           (shop_bindings ScopeNone)); reflexivity.
Defined.

(** The maker of a constructor whose first step resolves an unbound
    interface throws, in every heap where the graph has these bindings. *)
Lemma maker_unmet fuel g m p i J k s :
  bindings s g = Some m → m !! J = None →
  p_graph p = true → c_body (p_ctor p) = Resolve J k →
  ∃ s', maker_of (resolve fuel) p i g s = Throw (UnsatisfiedDependency J) s'.
Proof.
  intros Hb HJ Hpg Hbody. eexists. unfold maker_of.
  erewrite bind_Return; [| reflexivity]. unfold new_instance.
  erewrite bind_Return; [| reflexivity].
  erewrite bind_Throw; [done |].
  rewrite Hbody, Hpg. simpl.
  erewrite bind_Throw; [done |].
  by apply (resolve_unbound _ _ _ _ m).
Qed.

Lemma unmet_surfaces fuel g m p i J k s :
  wf s → bindings s g = Some m → m !! i = Some p → m !! J = None →
  prop_of s g singletonSymbol = None →
  p_graph p = true → c_body (p_ctor p) = Resolve J k →
  ∃ s', resolve (S fuel) g i s = Throw (UnsatisfiedDependency J) s'.
Proof.
  intros W Hb Hi HJ Hp Hpg Hbody.
  assert (is_Some (graphs s !! g)) as Hlive.
  { unfold bindings in Hb. destruct (graphs s !! g); [eauto | done]. }
  rewrite (resolve_bound _ _ _ p) by (by exists m). unfold call_provider.
  destruct (p_scope p); simpl.
  - by eapply maker_unmet.
  - destruct (singleton_miss (maker_of (resolve fuel) p i) g i s W Hlive)
      as (s2 & r & W2 & E2 & _ & _ & _ & ->).
    { unfold cached. by rewrite Hp. }
    destruct (maker_unmet fuel g m p i J k s2) as [s3 Hs3]; try done.
    { by eapply ext_bindings. }
    exists s3. by erewrite bind_Throw.
  - destruct (weak_first (maker_of (resolve fuel) p i) g i s W Hlive Hp)
      as (s2 & W2 & E2 & _ & _ & _ & ->).
    destruct (maker_unmet fuel g m p i J k s2) as [s3 Hs3]; try done.
    { by eapply ext_bindings. }
    exists s3. by erewrite bind_Throw.
Qed.

(** C1, as the claim states it, fails: the builder that holds the heater
    alone accepts a binding for [CoffeeMaker] whose constructor requires
    [Pump], which is not bound; [add] returns a builder that stores it. *)
Lemma add_accepts_unmet_dependency :
  requires (c_body CoffeeShop.CoffeeMakerC) CoffeeShop.Pump ∧
  builder_bindings heater_heap heater_builder !! CoffeeShop.Pump = None ∧
  ∃ b s,
    add heater_builder CoffeeShop.CoffeeMaker CoffeeShop.CoffeeMakerC ScopeNone
      heater_heap = Return b s ∧
    builder_bindings s b !! CoffeeShop.CoffeeMaker =
      Some {| p_scope := ScopeNone; p_ctor := CoffeeShop.CoffeeMakerC; p_graph := true |} ∧
    builder_bindings s b !! CoffeeShop.Pump = None.
Proof.
  split; [constructor |]. split; [reflexivity |].
  eexists _, _. split; [reflexivity |]. split; reflexivity.
Qed.

(** C1, amended: [add] makes no check at run time.  For every builder and
    every binding, also one whose constructor requires an interface that is
    not bound, [add] returns a new builder that stores the binding, and
    [build] returns a graph in which it is bound.  When the first interface
    that the constructor resolves, [J], is bound neither in the builder nor
    by this [add] ([J] is not the interface being bound), resolving the
    binding on the graph just built throws the unsatisfied-dependency error
    for [J], under each of the three scopes. *)
Theorem add_makes_no_check s b impl ctor scope :
  wf s →
  let p := {| p_scope := scope; p_ctor := ctor; p_graph := true |} in
  ∃ b' s', add b impl ctor scope s = Return b' s' ∧
    builder_bindings s' b' = <[impl := p]> (builder_bindings s b) ∧
    ∃ g s'', build b' s' = Return g s'' ∧
      bound s'' g impl p ∧
      ∀ J k, c_body ctor = Resolve J k → J ≠ impl → builder_bindings s b !! J = None →
        ∀ fuel, ∃ s3, resolve (S fuel) g impl s'' = Throw (UnsatisfiedDependency J) s3.
Proof.
  intros W p.
  destruct (add_spec b impl ctor scope s) as (s' & Hadd & Hb' & Hwf).
  destruct (Hwf W) as (W' & E' & _).
  destruct (build_spec {| b_map := next s |} s') as (s'' & Hbuild & Hbind & Hprops & _ & Hwf').
  destruct (Hwf' W') as (W'' & _).
  exists {| b_map := next s |}, s'. split_and!; try done.
  exists (next s'), s''. split_and!; try done.
  - eapply bound_of_bindings; [exact Hbind |]. rewrite Hb'. by rewrite lookup_insert_eq.
  - intros J k Hbody HJ Hunbound fuel.
    eapply (unmet_surfaces fuel _ _ p); try done.
    + rewrite Hb'. by rewrite lookup_insert_eq.
    + rewrite Hb'. by rewrite lookup_insert_ne.
Qed.

Lemma add_makes_no_check_witness :
  ∃ b' s',
    add heater_builder CoffeeShop.CoffeeMaker CoffeeShop.CoffeeMakerC ScopeNone
      heater_heap = Return b' s' ∧
    builder_bindings s' b' =
      <[CoffeeShop.CoffeeMaker :=
          {| p_scope := ScopeNone; p_ctor := CoffeeShop.CoffeeMakerC; p_graph := true |}]>
        (builder_bindings heater_heap heater_builder) ∧
    ∃ g s'', build b' s' = Return g s'' ∧
      bound s'' g CoffeeShop.CoffeeMaker
        {| p_scope := ScopeNone; p_ctor := CoffeeShop.CoffeeMakerC; p_graph := true |} ∧
      ∀ J k, c_body CoffeeShop.CoffeeMakerC = Resolve J k → J ≠ CoffeeShop.CoffeeMaker →
        builder_bindings heater_heap heater_builder !! J = None →
        ∀ fuel, ∃ s3,
          resolve (S fuel) g CoffeeShop.CoffeeMaker s'' =
            Throw (UnsatisfiedDependency J) s3.
Proof.
  apply (add_makes_no_check heater_heap heater_builder CoffeeShop.CoffeeMaker
           CoffeeShop.CoffeeMakerC ScopeNone wf_heater_heap).
Defined.

(** C5: [add] is a persistent update.  [B2 = B1.add(I, ctor)] is a new
    builder that holds the bindings of [B1] and the binding for [I]; the
    bindings of [B1] are what they were.  A graph built from [B1] afterwards
    has the bindings [B1] had before, so that when [I] was not bound in
    [B1], resolving [I] on it throws; a graph built from [B2] has the
    binding. *)
Theorem add_is_persistent s b1 impl ctor scope :
  wf s → is_Some (maps s !! b_map b1) →
  let p := {| p_scope := scope; p_ctor := ctor; p_graph := true |} in
  ∃ b2 s', add b1 impl ctor scope s = Return b2 s' ∧
    builder_bindings s' b2 = <[impl := p]> (builder_bindings s b1) ∧
    builder_bindings s' b1 = builder_bindings s b1 ∧
    (∃ g1 s1, build b1 s' = Return g1 s1 ∧
       bindings s1 g1 = Some (builder_bindings s b1) ∧
       (builder_bindings s b1 !! impl = None →
        ∀ fuel, resolve fuel g1 impl s1 = Throw (UnsatisfiedDependency impl) s1)) ∧
    (∃ g2 s2, build b2 s' = Return g2 s2 ∧ bound s2 g2 impl p).
Proof.
  intros W Hlive p.
  destruct (add_spec b1 impl ctor scope s) as (s' & Hadd & Hb2 & Hwf).
  destruct (Hwf W) as (W' & E' & Hframe).
  exists {| b_map := next s |}, s'. split_and!; try done.
  - by apply Hframe.
  - destruct (build_spec b1 s') as (s1 & Hbuild & Hbind & _).
    exists (next s'), s1. rewrite Hframe in Hbind by done. split_and!; try done.
    intros Hnone fuel. by apply (resolve_unbound _ _ _ _ (builder_bindings s b1)).
  - destruct (build_spec {| b_map := next s |} s') as (s2 & Hbuild & Hbind & _).
    exists (next s'), s2. split; [done |].
    eapply bound_of_bindings; [exact Hbind |]. rewrite Hb2. by rewrite lookup_insert_eq.
Qed.

Lemma add_is_persistent_witness :
  ∃ b2 s',
    add heater_builder CoffeeShop.Pump CoffeeShop.Thermosiphon ScopeNone heater_heap
      = Return b2 s' ∧
    builder_bindings s' b2 =
      <[CoffeeShop.Pump :=
          {| p_scope := ScopeNone; p_ctor := CoffeeShop.Thermosiphon; p_graph := true |}]>
        (builder_bindings heater_heap heater_builder) ∧
    builder_bindings s' heater_builder = builder_bindings heater_heap heater_builder ∧
    (∃ g1 s1, build heater_builder s' = Return g1 s1 ∧
       bindings s1 g1 = Some (builder_bindings heater_heap heater_builder) ∧
       (builder_bindings heater_heap heater_builder !! CoffeeShop.Pump = None →
        ∀ fuel, resolve fuel g1 CoffeeShop.Pump s1 =
                  Throw (UnsatisfiedDependency CoffeeShop.Pump) s1)) ∧
    (∃ g2 s2, build b2 s' = Return g2 s2 ∧
       bound s2 g2 CoffeeShop.Pump
         {| p_scope := ScopeNone; p_ctor := CoffeeShop.Thermosiphon; p_graph := true |}).
Proof.
  apply (add_is_persistent heater_heap heater_builder CoffeeShop.Pump
           CoffeeShop.Thermosiphon ScopeNone wf_heater_heap).
  vm_compute. eauto.
Defined.

(** C8: binding an interface that is bound already raises no error.  The
    new builder holds the new binding for the interface and the other
    bindings as they were; a graph built from it calls the new provider,
    every instance it returns for the interface is one of the new
    constructor, and when the dependencies of the new constructor are
    acyclic it does return one. *)
Theorem add_rebinds s b impl old ctor2 scope :
  wf s → builder_bindings s b !! impl = Some old →
  let p2 := {| p_scope := scope; p_ctor := ctor2; p_graph := true |} in
  ∃ b' s', add b impl ctor2 scope s = Return b' s' ∧
    builder_bindings s' b' !! impl = Some p2 ∧
    (∀ j, j ≠ impl → builder_bindings s' b' !! j = builder_bindings s b !! j) ∧
    ∃ g s'', build b' s' = Return g s'' ∧
      bound s'' g impl p2 ∧
      (∀ fuel, resolve (S fuel) g impl s'' = call_provider (resolve fuel) p2 g impl s'') ∧
      (∀ fuel v s3, resolve fuel g impl s'' = Return v s3 →
         ∃ o, v = VObj (c_name ctor2) o) ∧
      (∀ rk fuel,
         acyclic (<[impl := p2]> (builder_bindings s b)) rk (rk impl) (c_body ctor2) →
         rk impl ≤ fuel →
         ∃ o s3, resolve (S fuel) g impl s'' = Return (VObj (c_name ctor2) o) s3).
Proof.
  intros W Hold p2.
  destruct (add_spec b impl ctor2 scope s) as (s' & Hadd & Hb' & Hwf).
  destruct (Hwf W) as (W' & E' & _).
  destruct (build_spec {| b_map := next s |} s')
    as (s'' & Hbuild & Hbind & Hprops & _ & Hwf').
  destruct (Hwf' W') as (W'' & _).
  assert (bound s'' (next s') impl p2) as Hbound.
  { eapply bound_of_bindings; [exact Hbind |]. rewrite Hb'. by rewrite lookup_insert_eq. }
  exists {| b_map := next s |}, s'. split_and!; try done.
  - rewrite Hb'. by rewrite lookup_insert_eq.
  - intros j Hj. rewrite Hb'. by rewrite lookup_insert_ne.
  - exists (next s'), s''. split_and!; try done.
    + intros fuel. by apply resolve_bound.
    + intros fuel v s3 Hr.
      eapply (resolve_returns_instance fuel _ _ p2); try done.
      intros _. unfold cached. by rewrite Hprops.
    + intros rk fuel Hacyc Hfuel. unfold p2 in Hacyc. rewrite <- Hb' in Hacyc.
      destruct (fresh_total (next s') (builder_bindings s' {| b_map := next s |})
                  rk fuel impl p2 s'') as (o & s3 & Hr & _);
        try done; eauto.
      rewrite Hb'. by rewrite lookup_insert_eq.
Qed.

Lemma add_rebinds_witness :
  let p2 := {| p_scope := ScopeSingleton; p_ctor := CoffeeShop.Thermosiphon;
               p_graph := true |} in
  ∃ b' s',
    add {| b_map := 1 |} CoffeeShop.Pump CoffeeShop.Thermosiphon ScopeSingleton
      (shop_heap ScopeNone) = Return b' s' ∧
    builder_bindings s' b' !! CoffeeShop.Pump = Some p2 ∧
    (∀ j, j ≠ CoffeeShop.Pump →
       builder_bindings s' b' !! j =
       builder_bindings (shop_heap ScopeNone) {| b_map := 1 |} !! j) ∧
    ∃ g s'', build b' s' = Return g s'' ∧
      bound s'' g CoffeeShop.Pump p2 ∧
      (∀ fuel, resolve (S fuel) g CoffeeShop.Pump s'' =
               call_provider (resolve fuel) p2 g CoffeeShop.Pump s'') ∧
      (∀ fuel v s3, resolve fuel g CoffeeShop.Pump s'' = Return v s3 →
         ∃ o, v = VObj (c_name CoffeeShop.Thermosiphon) o) ∧
      (∀ rk fuel,
         acyclic (<[CoffeeShop.Pump := p2]>
                    (builder_bindings (shop_heap ScopeNone) {| b_map := 1 |}))
           rk (rk CoffeeShop.Pump) (c_body CoffeeShop.Thermosiphon) →
         rk CoffeeShop.Pump ≤ fuel →
         ∃ o s3, resolve (S fuel) g CoffeeShop.Pump s'' =
                   Return (VObj (c_name CoffeeShop.Thermosiphon) o) s3).
Proof.
  apply (add_rebinds (shop_heap ScopeNone) {| b_map := 1 |} CoffeeShop.Pump
           {| p_scope := ScopeNone; p_ctor := CoffeeShop.Thermosiphon; p_graph := true |}
           CoffeeShop.Thermosiphon ScopeSingleton (wf_shop_heap ScopeNone)).
  reflexivity.
Defined.

(** C9: [build] takes a snapshot and leaves the builder as it was.  The
    graph has the bindings the builder had at the call, the builder keeps
    them, and after any further operations (on this builder, on builders
    derived from it, on any graph) the graph still has exactly these
    bindings, and the builder can still be built from and added to. *)
Theorem build_takes_snapshot s b :
  wf s → is_Some (maps s !! b_map b) →
  ∃ g s', build b s = Return g s' ∧
    bindings s' g = Some (builder_bindings s b) ∧
    builder_bindings s' b = builder_bindings s b ∧
    ∀ ops s'', exec_ops ops s' = Some s'' →
      bindings s'' g = Some (builder_bindings s b) ∧
      builder_bindings s'' b = builder_bindings s b ∧
      (∃ g' s3, build b s'' = Return g' s3 ∧
         bindings s3 g' = Some (builder_bindings s b)) ∧
      (∀ impl ctor scope, ∃ b' s3, add b impl ctor scope s'' = Return b' s3 ∧
         builder_bindings s3 b' =
           <[impl := {| p_scope := scope; p_ctor := ctor; p_graph := true |}]>
             (builder_bindings s b)).
Proof.
  intros W Hlive.
  destruct (build_spec b s) as (s' & Hbuild & Hbind & _ & _ & Hwf).
  destruct (Hwf W) as (W' & E' & _ & Hframe).
  exists (next s), s'. split_and!; try done; [by apply Hframe |].
  intros ops s'' Hops.
  assert (is_Some (maps s' !! b_map b)) as Hlive'.
  { destruct Hlive as [c Hc]. rewrite (ext_maps _ _ E' _ _ Hc). eauto. }
  assert (builder_bindings s'' b = builder_bindings s b) as Hsame.
  { rewrite (exec_ops_builder _ _ _ _ W' Hops Hlive'). by apply Hframe. }
  split_and!; try done.
  - by eapply exec_ops_bindings.
  - destruct (build_spec b s'') as (s3 & Hbuild3 & Hbind3 & _).
    exists (next s''), s3. by rewrite Hsame in Hbind3.
  - intros impl ctor scope.
    destruct (add_spec b impl ctor scope s'') as (s3 & Hadd & Hb3 & _).
    eexists _, s3. split; [exact Hadd |]. by rewrite <- Hsame.
Qed.

Lemma build_takes_snapshot_witness :
  ∃ g s', build heater_builder heater_heap = Return g s' ∧
    bindings s' g = Some (builder_bindings heater_heap heater_builder) ∧
    builder_bindings s' heater_builder = builder_bindings heater_heap heater_builder ∧
    ∀ ops s'', exec_ops ops s' = Some s'' →
      bindings s'' g = Some (builder_bindings heater_heap heater_builder) ∧
      builder_bindings s'' heater_builder = builder_bindings heater_heap heater_builder ∧
      (∃ g' s3, build heater_builder s'' = Return g' s3 ∧
         bindings s3 g' = Some (builder_bindings heater_heap heater_builder)) ∧
      (∀ impl ctor scope, ∃ b' s3,
         add heater_builder impl ctor scope s'' = Return b' s3 ∧
         builder_bindings s3 b' =
           <[impl := {| p_scope := scope; p_ctor := ctor; p_graph := true |}]>
             (builder_bindings heater_heap heater_builder)).
Proof.
  apply (build_takes_snapshot heater_heap heater_builder wf_heater_heap).
  vm_compute. eauto.
Defined.

(** ** Resolutions that do not return *)

Lemma invocations_ext s s' g i : ext s s' → invocations s g i ≤ invocations s' g i.
Proof.
  intros E. destruct (ext_log _ _ E) as [l Hl]. unfold invocations.
  rewrite Hl, filter_app, length_app. lia.
Qed.

(** A result or an exception obtained with some call stack is the outcome
    with any deeper one. *)
Lemma resolve_outcome_mono fuel fuel' g i s :
  fuel ≤ fuel' → resolve fuel g i s ≠ Overflow →
  resolve fuel' g i s = resolve fuel g i s.
Proof.
  intros Hle Hne. destruct (resolve_below fuel fuel' g i s Hle) as [H | H]; congruence.
Qed.

(** A none-scoped resolution that returned has made a new instance of the
    bound class and has invoked the maker. *)
Lemma none_resolve_fresh fuel g i p s v s' :
  wf s → bound s g i p → p_scope p = ScopeNone →
  resolve fuel g i s = Return v s' →
  wf s' ∧ ext s s' ∧
  (∃ o, v = VObj (c_name (p_ctor p)) o ∧ next s ≤ o ∧ o < next s') ∧
  invocations s g i < invocations s' g i.
Proof.
  intros W Hb Hsc Hr. destruct fuel as [| fuel].
  { revert Hr. simpl.
    destruct (proj1 (bound_lookup _ _ _ _) Hb) as (go & m & Hg & Hm & Hi).
    unfold bind at 1. unfold Graph_map. rewrite Hg.
    unfold bind at 1. unfold Map_get. by rewrite Hm, Hi. }
  rewrite (resolve_bound _ _ _ p) in Hr by done. unfold call_provider in Hr.
  rewrite Hsc in Hr. unfold apply_scope, scopes.none in Hr.
  pose proof (maker_of_sound (resolve fuel) p g i (resolve_sound fuel) s W Hb) as Hp.
  rewrite Hr in Hp. destruct Hp as (W' & E' & o & -> & Hlo & Hhi & _);
    [by rewrite Hsc |].
  split_and!; try done; [eauto |].
  unfold maker_of in Hr. erewrite bind_Return in Hr; [| reflexivity].
  assert (wf (push_log (g, i, c_name (p_ctor p)) s)) as Wlog
    by (apply wf_push_log; eauto using bound_live).
  assert (∀ j s0, wf s0 →
            post ((if p_graph p then resolve fuel g else λ _, throw TypeError_undefined)
                    j s0) (keeps s0) (keeps s0)) as Hres.
  { intros j s0 W0. destruct (p_graph p).
    - eapply post_mono; [by apply resolve_sound | |]; by intros.
    - by apply keeps_refl. }
  pose proof (new_instance_sound _ (p_ctor p) _ Hres Wlog) as Hn.
  rewrite Hr in Hn. destruct Hn as (_ & Elog & _).
  apply (invocations_ext _ _ g i) in Elog.
  rewrite invocations_push_log in Elog. rewrite decide_True in Elog by done. lia.
Qed.

Lemma unmet_heap_eq : exec_ops unmet_ops initial = Some unmet_heap.
Proof. reflexivity. Qed.



(** C6, as the claim states it, fails: two consecutive resolutions of a
    none-scoped interface need not both succeed.  The coffee maker added
    to the builder that holds the heater alone is bound with scope [none];
    resolving it throws the unsatisfied-dependency error for [Pump], with
    every call stack.  And a none-scoped pump over a weak-scoped heater
    resolves once; the next resolution throws the type error of the weak
    scope. *)
Lemma none_scoped_resolution_may_throw :
  (bound unmet_heap 2 CoffeeShop.CoffeeMaker
     {| p_scope := ScopeNone; p_ctor := CoffeeShop.CoffeeMakerC; p_graph := true |} ∧
   ∀ fuel, ∃ s1,
     resolve (S fuel) 2 CoffeeShop.CoffeeMaker unmet_heap =
       Throw (UnsatisfiedDependency CoffeeShop.Pump) s1) ∧
  (bound (weak_heater_heap ScopeNone) 3 CoffeeShop.Pump
     {| p_scope := ScopeNone; p_ctor := CoffeeShop.Thermosiphon; p_graph := true |} ∧
   ∃ o s1 s2, ∀ fuel, 2 ≤ fuel →
     resolve fuel 3 CoffeeShop.Pump (weak_heater_heap ScopeNone) =
       Return (VObj (c_name CoffeeShop.Thermosiphon) o) s1 ∧
     resolve fuel 3 CoffeeShop.Pump s1 =
       Throw (TypeError_redefine singletonSymbol) s2).
Proof.
  split.
  - split; [eexists; split; reflexivity |]. intros fuel.
    destruct (exec_ops_sound _ _ _ wf_initial unmet_heap_eq) as [W _].
    apply (unmet_surfaces fuel 2 (default ∅ (bindings unmet_heap 2))
             {| p_scope := ScopeNone; p_ctor := CoffeeShop.CoffeeMakerC;
                p_graph := true |}
             CoffeeShop.CoffeeMaker CoffeeShop.Pump (λ _, Done)); try done.
  - split; [eexists; split; reflexivity |].
    set (h := weak_heater_heap ScopeNone).
    set (s1 := default initial (final (resolve 2 3 CoffeeShop.Pump h))).
    set (s2 := default initial (final (resolve 2 3 CoffeeShop.Pump s1))).
    assert (resolve 2 3 CoffeeShop.Pump h =
            Return (VObj (c_name CoffeeShop.Thermosiphon) 5) s1) as H1
      by (vm_compute; reflexivity).
    assert (resolve 2 3 CoffeeShop.Pump s1 =
            Throw (TypeError_redefine singletonSymbol) s2) as H2
      by (vm_compute; reflexivity).
    exists 5, s1, s2. intros fuel Hfuel. split.
    + rewrite (resolve_outcome_mono 2 fuel) by (done || by rewrite H1). exact H1.
    + rewrite (resolve_outcome_mono 2 fuel) by (done || by rewrite H2). exact H2.
Qed.

(** C6, amended: with scope [none] nothing is cached: every [g.resolve(i)]
    is the call of the maker itself.  Whenever two consecutive resolutions
    both return, they return two distinct instances of the bound class, and
    the maker has been invoked during each of them.  When the interface is
    resolvable in the graph (it and every interface that the constructors
    can resolve on the way are bound by providers that are not weak-scoped,
    constructors bound by [start] resolve nothing, no constructor on the
    way can throw, and the ranks [rk] of the interfaces decrease along every
    dependency, so that there is no cycle), two consecutive resolutions do
    both return, and the maker bound to the interface is invoked exactly
    once by each. *)
Theorem none_scope_constructs_afresh s g i p :
  wf s → bound s g i p → p_scope p = ScopeNone →
  (∀ n s0, bound s0 g i p → resolve (S n) g i s0 = maker_of (resolve n) p i g s0) ∧
  (∀ fuel1 fuel2 v1 s1 v2 s2,
     resolve fuel1 g i s = Return v1 s1 → resolve fuel2 g i s1 = Return v2 s2 →
     ∃ o1 o2, v1 = VObj (c_name (p_ctor p)) o1 ∧ v2 = VObj (c_name (p_ctor p)) o2 ∧
       o1 ≠ o2 ∧
       invocations s g i < invocations s1 g i ∧
       invocations s1 g i < invocations s2 g i) ∧
  (∀ m rk fuel, bindings s g = Some m → resolvable m rk i → rk i ≤ fuel →
     ∃ o1 s1 o2 s2,
       resolve (S fuel) g i s = Return (VObj (c_name (p_ctor p)) o1) s1 ∧
       resolve (S fuel) g i s1 = Return (VObj (c_name (p_ctor p)) o2) s2 ∧
       o1 ≠ o2 ∧
       invocations s1 g i = S (invocations s g i) ∧
       invocations s2 g i = S (S (invocations s g i))).
Proof.
  intros W Hbd Hsc. split_and!.
  - intros n s0 Hbd0. rewrite (resolve_bound _ _ _ p) by done.
    unfold call_provider. by rewrite Hsc.
  - intros fuel1 fuel2 v1 s1 v2 s2 Hr1 Hr2.
    destruct (none_resolve_fresh _ _ _ _ _ _ _ W Hbd Hsc Hr1)
      as (W1 & E1 & (o1 & -> & Hlo1 & Hhi1) & Hinv1).
    destruct (none_resolve_fresh _ _ _ _ _ _ _ W1 (ext_bound _ _ _ _ _ E1 Hbd) Hsc Hr2)
      as (W2 & E2 & (o2 & -> & Hlo2 & Hhi2) & Hinv2).
    exists o1, o2. split_and!; try done. lia.
  - intros m rk fuel Hb Hres Hfuel.
    assert (m !! i = Some p) as Hi.
    { destruct Hbd as (m' & Hbm' & Hi). congruence. }
    destruct (resolvable_total g m rk i fuel s Hres Hfuel W Hb)
      as (p' & v1 & s1 & Hi' & Hr1 & W1 & E1 & _ & Hm1).
    assert (p' = p) as -> by congruence.
    rewrite Hsc in Hm1. destruct Hm1 as [(o1 & -> & Hlo1 & Hhi1) Hinv1].
    destruct (resolvable_total g m rk i fuel s1 Hres Hfuel W1 (ext_bindings _ _ _ _ E1 Hb))
      as (p' & v2 & s2 & Hi'' & Hr2 & W2 & E2 & _ & Hm2).
    assert (p' = p) as -> by congruence.
    rewrite Hsc in Hm2. destruct Hm2 as [(o2 & -> & Hlo2 & Hhi2) Hinv2].
    exists o1, s1, o2, s2. split_and!; try done; lia.
Qed.

Lemma none_scope_constructs_afresh_witness :
  let g := shop_graph in
  let i := CoffeeShop.CoffeeMaker in
  let s := shop_heap ScopeNone in
  let p := {| p_scope := ScopeNone; p_ctor := CoffeeShop.CoffeeMakerC; p_graph := true |} in
  (∀ n s0, bound s0 g i p → resolve (S n) g i s0 = maker_of (resolve n) p i g s0) ∧
  (∀ fuel1 fuel2 v1 s1 v2 s2,
     resolve fuel1 g i s = Return v1 s1 → resolve fuel2 g i s1 = Return v2 s2 →
     ∃ o1 o2, v1 = VObj (c_name (p_ctor p)) o1 ∧ v2 = VObj (c_name (p_ctor p)) o2 ∧
       o1 ≠ o2 ∧
       invocations s g i < invocations s1 g i ∧
       invocations s1 g i < invocations s2 g i) ∧
  (∀ m rk fuel, bindings s g = Some m → resolvable m rk i → rk i ≤ fuel →
     ∃ o1 s1 o2 s2,
       resolve (S fuel) g i s = Return (VObj (c_name (p_ctor p)) o1) s1 ∧
       resolve (S fuel) g i s1 = Return (VObj (c_name (p_ctor p)) o2) s2 ∧
       o1 ≠ o2 ∧
       invocations s1 g i = S (invocations s g i) ∧
       invocations s2 g i = S (S (invocations s g i))).
Proof.
  apply (none_scope_constructs_afresh (shop_heap ScopeNone) shop_graph
           CoffeeShop.CoffeeMaker
           {| p_scope := ScopeNone; p_ctor := CoffeeShop.CoffeeMakerC; p_graph := true |}
           (wf_shop_heap ScopeNone)).
  - exists (shop_bindings ScopeNone). split; reflexivity.
  - reflexivity.
Defined.

(** The coffee shop of the witness: its two first resolutions return, with
    coffee makers that differ. *)
Example shop_makes_two_coffee_makers :
  ∃ o1 s1 o2 s2,
    resolve 4 shop_graph CoffeeShop.CoffeeMaker (shop_heap ScopeNone) =
      Return (VObj (c_name CoffeeShop.CoffeeMakerC) o1) s1 ∧
    resolve 4 shop_graph CoffeeShop.CoffeeMaker s1 =
      Return (VObj (c_name CoffeeShop.CoffeeMakerC) o2) s2 ∧
    o1 ≠ o2.
Proof.
  destruct (resolvable_total shop_graph (shop_bindings ScopeNone) (λ i, i)
              CoffeeShop.CoffeeMaker 3 (shop_heap ScopeNone)
              (shop_resolvable ScopeNone ltac:(done)) ltac:(reflexivity)
              (wf_shop_heap ScopeNone) (shop_bindings_eq ScopeNone))
    as (p & v1 & s1 & Hp & Hr1 & W1 & E1 & _ & Hd1).
  injection Hp as <-. destruct Hd1 as [(o1 & -> & Hlo1 & Hhi1) _].
  destruct (resolvable_total shop_graph (shop_bindings ScopeNone) (λ i, i)
              CoffeeShop.CoffeeMaker 3 s1
              (shop_resolvable ScopeNone ltac:(done)) ltac:(reflexivity) W1
              (ext_bindings _ _ _ _ E1 (shop_bindings_eq ScopeNone)))
    as (p & v2 & s2 & Hp & Hr2 & W2 & E2 & _ & Hd2).
  injection Hp as <-. destruct Hd2 as [(o2 & -> & Hlo2 & Hhi2) _].
  exists o1, s1, o2, s2. split_and!; try done. lia.
Qed.

(** The operations of a builder leave the log as it is. *)
Lemma builder_op_log op s s' :
  (∀ fuel g i, op ≠ OpResolve fuel g i) → exec_op op s = Some s' → log s' = log s.
Proof.
  intros Hop.
  destruct op as [impl ctor sc | b impl ctor sc | b | g | fuel g i]; unfold exec_op.
  - rewrite start_eq. by intros [= <-].
  - rewrite add_eq. by intros [= <-].
  - rewrite build_eq. by intros [= <-].
  - unfold modify, bind, Graph_map. destruct (graphs s !! g); by intros [= <-].
  - by destruct (Hop fuel g i).
Qed.

Lemma once_exec_op g m rk i p c0 op s s' :
  m !! i = Some p → p_scope p = ScopeSingleton → resolvable m rk i →
  once_inv g m i c0 s → exec_op op s = Some s' → once_inv g m i c0 s'.
Proof.
  intros Hi Hsc Hres K Hop.
  destruct (exec_op_sound _ _ _ (proj1 K) Hop) as [W' E'].
  destruct op as [impl ctor sc | b impl ctor sc | b | g' | fuel g' j].
  5: { apply (post_final _ (once_inv g m i c0) _) with (2 := Hop).
       by apply (once_resolve g m rk i p c0). }
  all: apply (once_silent g m i c0 s); try done.
  all: apply invocations_same; eapply builder_op_log; [| exact Hop]; done.
Qed.

Lemma once_exec_ops g m rk i p c0 ops s s' :
  m !! i = Some p → p_scope p = ScopeSingleton → resolvable m rk i →
  once_inv g m i c0 s → exec_ops ops s = Some s' → once_inv g m i c0 s'.
Proof.
  intros Hi Hsc Hres. revert s. induction ops as [| op ops IH]; intros s K; simpl.
  - by intros [= <-].
  - destruct (exec_op op s) as [s1 |] eqn:H1; [| done].
    apply IH. by eapply once_exec_op.
Qed.

(** No maker has been invoked for a graph that does not exist yet. *)
Lemma invocations_fresh s g i : wf s → graphs s !! g = None → invocations s g i = 0.
Proof.
  intros W Hg. unfold invocations.
  destruct (filter (λ e, e.1 = (g, i)) (log s)) as [| [[g' i'] cls] l] eqn:Hf; [done |].
  assert (((g', i', cls) : nat * nat * nat) ∈ filter (λ e, e.1 = (g, i)) (log s)) as Hin
    by (rewrite Hf; apply elem_of_cons; by left).
  apply list_elem_of_filter in Hin as [Heq Hin]. simpl in Heq. simplify_eq.
  destruct (wf_log _ W _ _ _ Hin) as [go Hgo]. congruence.
Qed.

(** In a graph that was just built, the maker of a singleton-scoped
    interface with acyclic dependencies is invoked at most once, whatever
    the client does afterwards. *)
Lemma built_singleton_at_most_once s b rk i p :
  wf s → builder_bindings s b !! i = Some p → p_scope p = ScopeSingleton →
  resolvable (builder_bindings s b) rk i →
  ∃ g s1, build b s = Return g s1 ∧
    ∀ ops s', exec_ops ops s1 = Some s' → invocations s' g i ≤ 1.
Proof.
  intros W Hi Hsc Hres.
  destruct (build_spec b s) as (s1 & Hbuild & Hbind & Hprops & Hlog & Hwf).
  destruct (Hwf W) as (W1 & E1 & Hfresh & _).
  exists (next s), s1. split; [done |]. intros ops s' Hops.
  assert (once_inv (next s) (builder_bindings s b) i 0 s1) as K.
  { split_and!; try done.
    rewrite (invocations_same s s1 _ _ Hlog), (invocations_fresh s) by done. lia. }
  destruct (once_exec_ops _ _ rk i p 0 ops s1 s' Hi Hsc Hres K Hops) as (_ & _ & Hc).
  destruct (cached s' (next s) i); lia.
Qed.




(** C4: scope caches belong to one graph.  A graph [g2] built from
    [g1.modify()] is another graph object with the bindings of [g1] and no
    scope cache of its own; whatever happens afterwards, the two graphs
    never have the same cache object, and an instance that
    [g1.resolve(i)] returns for a singleton-scoped [i] is never the instance
    that [g2.resolve(i)] returns, in either order of the two calls; and when
    the dependencies of [i] are acyclic both calls do return. *)
Theorem scope_caches_are_per_graph s g1 i p :
  wf s → bound s g1 i p → p_scope p = ScopeSingleton →
  ∃ b g2 s1, modify g1 s = Return b s ∧ build b s = Return g2 s1 ∧
    g2 ≠ g1 ∧
    bindings s1 g2 = bindings s g1 ∧
    (∀ sym, prop_of s1 g2 sym = None) ∧
    (∀ j, cached s1 g2 j = None) ∧
    (∀ ops s2, exec_ops ops s1 = Some s2 →
       (∀ sym1 sym2 r, prop_of s2 g1 sym1 = Some r → prop_of s2 g2 sym2 ≠ Some r) ∧
       ∀ f1 f2 v1 v2 s3 s4,
         (resolve f1 g1 i s2 = Return v1 s3 → resolve f2 g2 i s3 = Return v2 s4 →
          v1 ≠ v2) ∧
         (resolve f1 g2 i s2 = Return v2 s3 → resolve f2 g1 i s3 = Return v1 s4 →
          v1 ≠ v2)) ∧
    (∀ m rk fuel, bindings s g1 = Some m → resolvable m rk i → rk i ≤ fuel →
       ∃ v1 s3 v2 s4,
         resolve (S fuel) g1 i s1 = Return v1 s3 ∧
         resolve (S fuel) g2 i s3 = Return v2 s4 ∧ v1 ≠ v2).
Proof.
  intros W Hb Hsc.
  destruct (proj1 (bound_lookup _ _ _ _) Hb) as (go & m & Hg & Hm & Hi).
  destruct (build_spec {| b_map := g_map go |} s)
    as (s1 & Hbuild & Hbind & Hprops & _ & Hwf).
  destruct (Hwf W) as (W1 & E1 & Hfresh & _).
  assert (next s ≠ g1) as Hne by (intros Heq; rewrite Heq in Hfresh; congruence).
  assert (bindings s g1 = Some m) as Hb1 by (unfold bindings; by rewrite Hg).
  assert (bindings s1 (next s) = Some m) as Hb2.
  { rewrite Hbind. unfold builder_bindings; simpl. by rewrite Hm. }
  assert (bound s1 g1 i p) as Hbd1 by (by eapply ext_bound).
  assert (bound s1 (next s) i p) as Hbd2 by (by exists m).
  assert (∀ ops s2, exec_ops ops s1 = Some s2 →
            (∀ sym1 sym2 r, prop_of s2 g1 sym1 = Some r →
                            prop_of s2 (next s) sym2 ≠ Some r) ∧
            ∀ f1 f2 v1 v2 s3 s4,
              (resolve f1 g1 i s2 = Return v1 s3 →
               resolve f2 (next s) i s3 = Return v2 s4 → v1 ≠ v2) ∧
              (resolve f1 (next s) i s2 = Return v2 s3 →
               resolve f2 g1 i s3 = Return v1 s4 → v1 ≠ v2)) as Hdistinct.
  { intros ops s2 Hops.
    destruct (exec_ops_sound _ _ _ W1 Hops) as [W2 E2]. split.
    { intros sym1 sym2 r Hp1 Hp2. apply Hne. symmetry.
      by eapply (wf_prop_inj _ W2). }
    intros f1 f2 v1 v2 s3 s4. split; intros Hr1 Hr2.
    - eapply (distinct_graphs_distinct_instances f1 f2 g1 (next s) i p p s2);
        eauto using ext_bound.
    - intros Heq. symmetry in Heq. revert Heq.
      eapply (distinct_graphs_distinct_instances f1 f2 (next s) g1 i p p s2);
        eauto using ext_bound. }
  exists {| b_map := g_map go |}, (next s), s1. split_and!; try done.
  - by apply modify_eq.
  - congruence.
  - intros j. unfold cached. by rewrite Hprops.
  - intros m' rk fuel Hbm Hres Hfuel. assert (m' = m) as -> by congruence.
    destruct (resolvable_total g1 m rk i fuel s1 Hres Hfuel W1
                (ext_bindings _ _ _ _ E1 Hb1))
      as (_ & v1 & s3 & _ & Hr1 & W3 & E3 & _).
    destruct (resolvable_total (next s) m rk i fuel s3 Hres Hfuel W3
                (ext_bindings _ _ _ _ E3 Hb2))
      as (_ & v2 & s4 & _ & Hr2 & _).
    exists v1, s3, v2, s4. split_and!; try done.
    destruct (Hdistinct [] s1 eq_refl) as [_ Hd].
    destruct (Hd (S fuel) (S fuel) v1 v2 s3 s4) as [H _].
    by apply H.
Qed.

Lemma scope_caches_are_per_graph_witness :
  ∃ b g2 s1,
    modify shop_graph (shop_heap ScopeSingleton) = Return b (shop_heap ScopeSingleton) ∧
    build b (shop_heap ScopeSingleton) = Return g2 s1 ∧
    g2 ≠ shop_graph ∧
    bindings s1 g2 = bindings (shop_heap ScopeSingleton) shop_graph ∧
    (∀ sym, prop_of s1 g2 sym = None) ∧
    (∀ j, cached s1 g2 j = None) ∧
    (∀ ops s2, exec_ops ops s1 = Some s2 →
       (∀ sym1 sym2 r, prop_of s2 shop_graph sym1 = Some r →
                       prop_of s2 g2 sym2 ≠ Some r) ∧
       ∀ f1 f2 v1 v2 s3 s4,
         (resolve f1 shop_graph CoffeeShop.CoffeeMaker s2 = Return v1 s3 →
          resolve f2 g2 CoffeeShop.CoffeeMaker s3 = Return v2 s4 → v1 ≠ v2) ∧
         (resolve f1 g2 CoffeeShop.CoffeeMaker s2 = Return v2 s3 →
          resolve f2 shop_graph CoffeeShop.CoffeeMaker s3 = Return v1 s4 → v1 ≠ v2)) ∧
    (∀ m rk fuel, bindings (shop_heap ScopeSingleton) shop_graph = Some m →
       resolvable m rk CoffeeShop.CoffeeMaker → rk CoffeeShop.CoffeeMaker ≤ fuel →
       ∃ v1 s3 v2 s4,
         resolve (S fuel) shop_graph CoffeeShop.CoffeeMaker s1 = Return v1 s3 ∧
         resolve (S fuel) g2 CoffeeShop.CoffeeMaker s3 = Return v2 s4 ∧ v1 ≠ v2).
Proof.
  apply (scope_caches_are_per_graph (shop_heap ScopeSingleton) shop_graph
           CoffeeShop.CoffeeMaker
           {| p_scope := ScopeSingleton; p_ctor := CoffeeShop.CoffeeMakerC;
              p_graph := true |}
           (wf_shop_heap ScopeSingleton)).
  - exists (shop_bindings ScopeSingleton). split; reflexivity.
  - reflexivity.
Defined.

(** C7: the weak scope as it is written.  Whenever a weak-scoped
    [g.resolve(i)] returns, the graph had no property under
    [singletonSymbol] before; afterwards nothing is defined under
    [weakSymbol], the cache registered under [singletonSymbol] is the new
    [WeakMap], and its entry for [i] is the function [scopes.singleton],
    while the value returned is the instance the constructor made.  On a
    graph without the property, when the dependencies of the constructor are
    acyclic, the resolution does return. *)
Theorem weak_scope_as_written s g i p :
  wf s → bound s g i p → p_scope p = ScopeWeak →
  (∀ fuel v s', resolve fuel g i s = Return v s' →
     prop_of s g singletonSymbol = None ∧
     prop_of s' g weakSymbol = None ∧
     ∃ r c, prop_of s' g singletonSymbol = Some r ∧
       caches s' !! r = Some c ∧ c_kind c = KWeakMap ∧
       c_entries c !! i = Some VSingletonFn ∧
       ∃ o, v = VObj (c_name (p_ctor p)) o) ∧
  (∀ m rk fuel, bindings s g = Some m → prop_of s g singletonSymbol = None →
     (p_graph p = true → acyclic m rk (rk i) (c_body (p_ctor p))) →
     (p_graph p = false → c_body (p_ctor p) = Done) →
     rk i ≤ fuel →
     ∃ o s', resolve (S fuel) g i s = Return (VObj (c_name (p_ctor p)) o) s').
Proof.
  intros W Hb Hsc. split.
  - intros fuel v s' Hr. destruct fuel as [| fuel].
    { revert Hr. simpl.
      destruct (proj1 (bound_lookup _ _ _ _) Hb) as (go & m & Hg & Hm & Hi).
      unfold bind at 1. unfold Graph_map. rewrite Hg.
      unfold bind at 1. unfold Map_get. by rewrite Hm, Hi. }
    rewrite (resolve_bound _ _ _ p) in Hr by done. unfold call_provider in Hr.
    rewrite Hsc in Hr. simpl in Hr.
    pose proof (maker_of_sound (resolve fuel) p g i (resolve_sound fuel)) as Hmaker.
    pose proof (weak_spec _ g i p s Hmaker W Hb Hsc) as Hp. rewrite Hr in Hp.
    destruct Hp as (W' & E' & Hnone & Hp' & (c & Hc & Hk) & Hslot & Hv).
    split_and!; try done.
    + unfold prop_of. destruct (graphs s' !! g) as [go |] eqn:Hg; [| done].
      by destruct (wf_graphs _ W' _ _ Hg) as (_ & _ & ?).
    + exists (next s), c. split_and!; try done.
      unfold slot in Hslot. by rewrite Hc in Hslot.
  - intros m rk fuel Hbm Hnone Hacyc Hnodep Hfuel.
    destruct Hb as (m' & Hbm' & Hi). assert (m' = m) as -> by congruence.
    destruct (fresh_total g m rk fuel i p s Hi Hacyc Hnodep Hfuel W Hbm Hnone)
      as (o & s' & Hr & _).
    eauto.
Qed.

Lemma weak_scope_as_written_witness :
  let p := {| p_scope := ScopeWeak; p_ctor := CoffeeShop.CoffeeMakerC; p_graph := true |} in
  (∀ fuel v s',
     resolve fuel shop_graph CoffeeShop.CoffeeMaker (shop_heap ScopeWeak) = Return v s' →
     prop_of (shop_heap ScopeWeak) shop_graph singletonSymbol = None ∧
     prop_of s' shop_graph weakSymbol = None ∧
     ∃ r c, prop_of s' shop_graph singletonSymbol = Some r ∧
       caches s' !! r = Some c ∧ c_kind c = KWeakMap ∧
       c_entries c !! CoffeeShop.CoffeeMaker = Some VSingletonFn ∧
       ∃ o, v = VObj (c_name (p_ctor p)) o) ∧
  (∀ m rk fuel, bindings (shop_heap ScopeWeak) shop_graph = Some m →
     prop_of (shop_heap ScopeWeak) shop_graph singletonSymbol = None →
     (p_graph p = true → acyclic m rk (rk CoffeeShop.CoffeeMaker) (c_body (p_ctor p))) →
     (p_graph p = false → c_body (p_ctor p) = Done) →
     rk CoffeeShop.CoffeeMaker ≤ fuel →
     ∃ o s',
       resolve (S fuel) shop_graph CoffeeShop.CoffeeMaker (shop_heap ScopeWeak) =
         Return (VObj (c_name (p_ctor p)) o) s').
Proof.
  apply (weak_scope_as_written (shop_heap ScopeWeak) shop_graph CoffeeShop.CoffeeMaker
           {| p_scope := ScopeWeak; p_ctor := CoffeeShop.CoffeeMakerC; p_graph := true |}
           (wf_shop_heap ScopeWeak)).
  - exists (shop_bindings ScopeWeak). split; reflexivity.
  - reflexivity.
Defined.

(** The coffee shop with a weak-scoped coffee maker: the first resolution
    returns the coffee maker and leaves [scopes.singleton] in the cache. *)
Example weak_shop_first_resolution :
  match resolve 4 shop_graph CoffeeShop.CoffeeMaker (shop_heap ScopeWeak) with
  | Return v s' =>
      v = VObj 13 6 ∧ cached s' shop_graph CoffeeShop.CoffeeMaker = Some VSingletonFn
  | _ => False
  end.
Proof. vm_compute. split; reflexivity. Qed.

(** C10: a weak-scoped [g.resolve(i)] in a heap where [singletonSymbol] is
    defined on the graph throws the type error of redefining that property.
    A weak- or singleton-scoped resolution on the graph that came to an end
    has defined the property, so after it (and after any further
    operations) every weak-scoped resolution on the graph throws this
    error; in particular the second weak-scoped resolution does. *)
Theorem weak_scope_throws_on_redefinition s g i p :
  wf s → bound s g i p → p_scope p = ScopeWeak →
  (is_Some (prop_of s g singletonSymbol) →
   ∀ fuel, ∃ s',
     resolve (S fuel) g i s = Throw (TypeError_redefine singletonSymbol) s') ∧
  (∀ i1 p1 fuel1 s1, bound s g i1 p1 → p_scope p1 ≠ ScopeNone →
     final (resolve fuel1 g i1 s) = Some s1 →
     ∀ ops s2, exec_ops ops s1 = Some s2 →
       ∀ fuel, ∃ s3,
         resolve (S fuel) g i s2 = Throw (TypeError_redefine singletonSymbol) s3).
Proof.
  intros W Hb Hsc.
  assert (∀ s0, wf s0 → ext s s0 → is_Some (prop_of s0 g singletonSymbol) →
            ∀ fuel, ∃ s',
              resolve (S fuel) g i s0 = Throw (TypeError_redefine singletonSymbol) s')
    as Hthrow.
  { intros s0 W0 E0 [r Hr] fuel.
    pose proof (ext_bound _ _ _ _ _ E0 Hb) as Hb0.
    assert (is_Some (graphs s0 !! g)) as Hlive.
    { unfold prop_of in Hr. destruct (graphs s0 !! g); [eauto | done]. }
    eexists. rewrite (resolve_bound _ _ _ p) by done. unfold call_provider.
    rewrite Hsc. simpl. by eapply weak_defined. }
  split.
  - intros Hdef fuel. apply Hthrow; [done | apply ext_refl | done].
  - intros i1 p1 fuel1 s1 Hb1 Hsc1 Hfin ops s2 Hops fuel.
    destruct (resolve_final _ _ _ _ _ W Hfin) as [W1 E1].
    destruct (exec_ops_sound _ _ _ W1 Hops) as [W2 E2].
    apply Hthrow; [done | by eapply ext_trans |].
    destruct (scoped_defines _ _ _ _ _ _ W Hb1 Hsc1 Hfin) as [r Hr].
    exists r. by apply (ext_props _ _ E2).
Qed.

Lemma weak_scope_throws_on_redefinition_witness :
  (is_Some (prop_of (shop_heap ScopeWeak) shop_graph singletonSymbol) →
   ∀ fuel, ∃ s',
     resolve (S fuel) shop_graph CoffeeShop.CoffeeMaker (shop_heap ScopeWeak) =
       Throw (TypeError_redefine singletonSymbol) s') ∧
  (∀ i1 p1 fuel1 s1, bound (shop_heap ScopeWeak) shop_graph i1 p1 →
     p_scope p1 ≠ ScopeNone →
     final (resolve fuel1 shop_graph i1 (shop_heap ScopeWeak)) = Some s1 →
     ∀ ops s2, exec_ops ops s1 = Some s2 →
       ∀ fuel, ∃ s3,
         resolve (S fuel) shop_graph CoffeeShop.CoffeeMaker s2 =
           Throw (TypeError_redefine singletonSymbol) s3).
Proof.
  apply (weak_scope_throws_on_redefinition (shop_heap ScopeWeak) shop_graph
           CoffeeShop.CoffeeMaker
           {| p_scope := ScopeWeak; p_ctor := CoffeeShop.CoffeeMakerC; p_graph := true |}
           (wf_shop_heap ScopeWeak)).
  - exists (shop_bindings ScopeWeak). split; reflexivity.
  - reflexivity.
Defined.

(** The coffee shop with a weak-scoped coffee maker: the second resolution
    throws. *)
Example weak_shop_second_resolution :
  match resolve 4 shop_graph CoffeeShop.CoffeeMaker (shop_heap ScopeWeak) with
  | Return v s1 =>
      match resolve 4 shop_graph CoffeeShop.CoffeeMaker s1 with
      | Throw e _ => e = TypeError_redefine singletonSymbol
      | _ => False
      end
  | _ => False
  end.
Proof. vm_compute. reflexivity. Qed.

(** * Further properties *)

(** ** Constructors that throw *)

Lemma post_both {A} (o : Outcome A) (Q1 Q2 : A → State → Prop)
    (E1 E2 : Error → State → Prop) :
  post o Q1 E1 → post o Q2 E2 →
  post o (λ a s, Q1 a s ∧ Q2 a s) (λ e s, E1 e s ∧ E2 e s).
Proof. destruct o; simpl; auto. Qed.

Lemma maker_of_throws rec p i g s e :
  (∀ s1, run_body (c_name (p_ctor p))
           (if p_graph p then rec g else λ _, throw TypeError_undefined)
           (c_body (p_ctor p)) s1 = Throw e s1) →
  maker_of rec p i g s =
    Throw e (bump (push_log (g, i, c_name (p_ctor p)) s)).
Proof.
  intros H. unfold maker_of.
  erewrite bind_Return; [| reflexivity]. unfold new_instance.
  erewrite bind_Return; [| reflexivity].
  erewrite bind_Throw; [done | apply H].
Qed.

(** A maker that throws wherever it runs: the exception reaches the caller
    of [resolve], the maker has been invoked once, and nothing is cached
    for the interface. *)
Lemma throwing_maker_surfaces fuel g i p s e :
  wf s → bound s g i p →
  (p_scope p = ScopeSingleton → cached s g i = None) →
  (p_scope p = ScopeWeak → prop_of s g singletonSymbol = None) →
  (∀ s1, maker_of (resolve fuel) p i g s1 =
           Throw e (bump (push_log (g, i, c_name (p_ctor p)) s1))) →
  ∃ s', resolve (S fuel) g i s = Throw e s' ∧ wf s' ∧ ext s s' ∧
    cached s' g i = cached s g i ∧
    invocations s' g i = S (invocations s g i).
Proof.
  intros W Hb Hnone Hundef Hthrow.
  pose proof (bound_live _ _ _ _ Hb) as Hlive.
  assert (∀ s2, invocations (bump (push_log (g, i, c_name (p_ctor p)) s2)) g i
                = S (invocations s2 g i)) as Hinv.
  { intros s2.
    change (invocations (push_log (g, i, c_name (p_ctor p)) s2) g i
            = S (invocations s2 g i)).
    rewrite invocations_push_log. by rewrite decide_True. }
  assert (∃ s', resolve (S fuel) g i s = Throw e s' ∧
            cached s' g i = cached s g i ∧
            invocations s' g i = S (invocations s g i)) as (s' & Hr & Hc & Hn).
  { rewrite (resolve_bound _ _ _ p) by done. unfold call_provider.
    destruct (p_scope p) eqn:Hsc; simpl.
    - unfold scopes.none. rewrite Hthrow. eexists. split_and!; [done | done | apply Hinv].
    - destruct (singleton_miss (maker_of (resolve fuel) p i) g i s W Hlive (Hnone eq_refl))
        as (s2 & r & W2 & E2 & Hlog & Hp2 & Hs2 & ->).
      erewrite bind_Throw; [| apply Hthrow]. eexists. split_and!; [done | |].
      + rewrite Hnone by done.
        change (cached s2 g i = None). unfold cached. by rewrite Hp2.
      + rewrite Hinv. f_equal. by apply invocations_same.
    - destruct (weak_first (maker_of (resolve fuel) p i) g i s W Hlive (Hundef eq_refl))
        as (s2 & W2 & E2 & Hlog & Hp2 & Hc2 & ->).
      erewrite bind_Throw; [| apply Hthrow]. eexists. split_and!; [done | |].
      + change (cached s2 g i = cached s g i). unfold cached.
        rewrite Hp2, (Hundef eq_refl). unfold slot. by rewrite Hc2.
      + rewrite Hinv. f_equal. by apply invocations_same. }
  exists s'. split_and!; try done.
  all: apply (resolve_final (S fuel) g i s); [done | by rewrite Hr].
Qed.

Lemma start_spec impl ctor scope s :
  let p := {| p_scope := scope; p_ctor := ctor; p_graph := false |} in
  ∃ s', start impl ctor scope s = Return {| b_map := next s |} s' ∧
    builder_bindings s' {| b_map := next s |} = {[ impl := p ]} ∧
    (wf s → wf s' ∧ ext s s').
Proof.
  intros p. eexists. split; [apply start_eq |]. split.
  - rewrite builder_bindings_with_map. by rewrite decide_True.
  - intros W. split; [by apply wf_with_map | by apply ext_with_map].
Qed.

(** X1: [GraphBuilder.start] makes a builder with one binding.  For a class
    that needs nothing, the graph built from it resolves the interface to an
    instance of the class under every scope, and every other interface is
    an unsatisfied dependency. *)
Theorem start_binds_one s impl ctor scope :
  wf s → c_body ctor = Done →
  let p := {| p_scope := scope; p_ctor := ctor; p_graph := false |} in
  ∃ b s1 g s2, start impl ctor scope s = Return b s1 ∧
    builder_bindings s1 b = {[ impl := p ]} ∧
    build b s1 = Return g s2 ∧
    bindings s2 g = Some {[ impl := p ]} ∧
    (∀ fuel, ∃ o s3, resolve (S fuel) g impl s2 = Return (VObj (c_name ctor) o) s3) ∧
    (∀ J fuel, J ≠ impl → resolve fuel g J s2 = Throw (UnsatisfiedDependency J) s2).
Proof.
  intros W Hbody p.
  destruct (start_spec impl ctor scope s) as (s1 & Hstart & Hb & Hwf).
  destruct (Hwf W) as [W1 E1].
  destruct (build_spec {| b_map := next s |} s1)
    as (s2 & Hbuild & Hbind & Hprops & _ & Hwf2).
  destruct (Hwf2 W1) as (W2 & _).
  rewrite Hb in Hbind.
  exists {| b_map := next s |}, s1, (next s1), s2. split_and!; try done.
  - intros fuel.
    destruct (fresh_total (next s1) {[ impl := p ]} (λ _, 0) fuel impl p s2)
      as (o & s3 & Hr & _); try done; [by rewrite lookup_singleton_eq | lia | eauto].
  - intros J fuel HJ. apply (resolve_unbound _ _ _ _ {[ impl := p ]}); [done |].
    by rewrite lookup_singleton_ne.
Qed.

Lemma start_binds_one_witness :
  let p := {| p_scope := ScopeSingleton; p_ctor := CoffeeApp.GasHeater;
              p_graph := false |} in
  ∃ b s1 g s2,
    start CoffeeShop.Heater CoffeeApp.GasHeater ScopeSingleton initial = Return b s1 ∧
    builder_bindings s1 b = {[ CoffeeShop.Heater := p ]} ∧
    build b s1 = Return g s2 ∧
    bindings s2 g = Some {[ CoffeeShop.Heater := p ]} ∧
    (∀ fuel, ∃ o s3,
       resolve (S fuel) g CoffeeShop.Heater s2 =
         Return (VObj (c_name CoffeeApp.GasHeater) o) s3) ∧
    (∀ J fuel, J ≠ CoffeeShop.Heater →
       resolve fuel g J s2 = Throw (UnsatisfiedDependency J) s2).
Proof.
  apply (start_binds_one initial CoffeeShop.Heater CoffeeApp.GasHeater ScopeSingleton
           wf_initial).
  reflexivity.
Defined.

(** X2: the constructor given to [GraphBuilder.start] is called without a
    graph.  When its body resolves an interface, whichever it is, resolving
    the binding throws the type error of reading through [undefined]. *)
Theorem start_passes_no_graph s impl ctor scope J k :
  wf s → c_body ctor = Resolve J k →
  ∃ b s1 g s2, start impl ctor scope s = Return b s1 ∧
    build b s1 = Return g s2 ∧
    ∀ fuel, ∃ s3, resolve (S fuel) g impl s2 = Throw TypeError_undefined s3.
Proof.
  intros W Hbody.
  set (p := {| p_scope := scope; p_ctor := ctor; p_graph := false |}).
  destruct (start_spec impl ctor scope s) as (s1 & Hstart & Hb & Hwf).
  destruct (Hwf W) as [W1 E1].
  destruct (build_spec {| b_map := next s |} s1)
    as (s2 & Hbuild & Hbind & Hprops & _ & Hwf2).
  destruct (Hwf2 W1) as (W2 & _).
  rewrite Hb in Hbind.
  exists {| b_map := next s |}, s1, (next s1), s2. split_and!; try done.
  intros fuel.
  destruct (throwing_maker_surfaces fuel (next s1) impl p s2 TypeError_undefined)
    as (s3 & Hr & _); try done; [| | | eauto].
  - eapply bound_of_bindings; [exact Hbind |]. by rewrite lookup_singleton_eq.
  - intros _. unfold cached. by rewrite Hprops.
  - intros s0. apply maker_of_throws. intros s4. simpl. by rewrite Hbody.
Qed.

Lemma start_passes_no_graph_witness :
  ∃ b s1 g s2,
    start CoffeeShop.Pump CoffeeShop.Thermosiphon ScopeNone initial = Return b s1 ∧
    build b s1 = Return g s2 ∧
    ∀ fuel, ∃ s3, resolve (S fuel) g CoffeeShop.Pump s2 = Throw TypeError_undefined s3.
Proof.
  apply (start_passes_no_graph initial CoffeeShop.Pump CoffeeShop.Thermosiphon ScopeNone
           CoffeeShop.Heater (λ _, Done) wf_initial).
  reflexivity.
Defined.



Lemma resolve_zero g i p s : bound s g i p → resolve 0 g i s = Overflow.
Proof.
  intros (go & m & Hg & Hm & Hi)%bound_lookup. simpl.
  unfold bind at 1. unfold Graph_map. rewrite Hg.
  unfold bind at 1. unfold Map_get. by rewrite Hm, Hi.
Qed.

(** A maker whose constructor first resolves [j] exceeds the call stack
    when that resolution does. *)
Lemma maker_of_overflow rec p i g s j k :
  p_graph p = true → c_body (p_ctor p) = Resolve j k →
  rec g j (bump (push_log (g, i, c_name (p_ctor p)) s)) = Overflow →
  maker_of rec p i g s = Overflow.
Proof.
  intros Hg Hbody Hrec. unfold maker_of.
  erewrite bind_Return; [| reflexivity].
  unfold new_instance.
  erewrite bind_Return; [| reflexivity].
  apply bind_Overflow. rewrite Hbody, Hg. simpl.
  by apply bind_Overflow.
Qed.

(** X4: a dependency cycle is not detected.  When the constructor bound to
    an interface with scope [none], or with scope [singleton] and nothing
    cached, resolves that same interface first, [resolve] calls itself
    without end: it exceeds every bound on the call stack. *)
Theorem self_dependency_never_resolves fuel g i p k s :
  wf s → bound s g i p → p_graph p = true → p_scope p ≠ ScopeWeak →
  c_body (p_ctor p) = Resolve i k →
  (p_scope p = ScopeSingleton → cached s g i = None) →
  resolve fuel g i s = Overflow.
Proof.
  intros W Hb Hg Hsc Hbody. revert s W Hb.
  induction fuel as [| fuel IH]; intros s W Hb Hnone.
  { by apply (resolve_zero _ _ p). }
  rewrite (resolve_bound _ _ _ p) by done. unfold call_provider.
  destruct (p_scope p) eqn:Hscope; [| | done]; simpl.
  - unfold scopes.none. apply (maker_of_overflow _ _ _ _ _ i k); try done.
    apply IH; try done.
    apply wf_bump. apply wf_push_log; [by eapply bound_live | done].
  - destruct (singleton_miss (maker_of (resolve fuel) p i) g i s W
                (bound_live _ _ _ _ Hb) (Hnone eq_refl))
      as (s2 & r & W2 & E2 & Hlog & Hp2 & Hs2 & ->).
    apply bind_Overflow. apply (maker_of_overflow _ _ _ _ _ i k); try done.
    pose proof (ext_bound _ _ _ _ _ E2 Hb) as Hb2.
    apply IH.
    + apply wf_bump. apply wf_push_log; [by eapply bound_live | done].
    + exact Hb2.
    + intros _. change (cached s2 g i = None). unfold cached. by rewrite Hp2.
Qed.

Lemma wrapper_heap_eq sc : exec_ops (wrapper_ops sc) initial = Some (wrapper_heap sc).
Proof. reflexivity. Qed.

Lemma self_dependency_never_resolves_witness :
  resolve 7 2 CoffeeShop.Heater (wrapper_heap ScopeSingleton) = Overflow.
Proof.
  apply (self_dependency_never_resolves 7 2 CoffeeShop.Heater
           {| p_scope := ScopeSingleton; p_ctor := HeaterWrapper; p_graph := true |}
           (λ _, Done)).
  - apply (exec_ops_sound _ _ _ wf_initial (wrapper_heap_eq ScopeSingleton)).
  - eexists. split; reflexivity.
  - reflexivity.
  - done.
  - reflexivity.
  - reflexivity.
Defined.




(** ** What a resolution leaves alone *)


Lemma untouched_trans g' s1 s2 s3 :
  untouched g' s1 s2 → untouched g' s2 s3 → untouched g' s1 s3.
Proof.
  intros (G1 & C1 & I1) (G2 & C2 & I2). split_and!.
  - by rewrite G2.
  - intros sym r Hp. rewrite <- (C1 _ _ Hp). apply (C2 sym).
    unfold prop_of in *. by rewrite G1.
  - intros j. by rewrite I2.
Qed.




Lemma untouched_cache_alloc c s g' :
  wf s → untouched g' s (with_cache (next s) c (bump s)).
Proof.
  intros W. split_and!; try done. intros sym r Hp.
  destruct (wf_props _ W _ _ _ Hp) as [c' Hc]. pose proof (wf_caches _ W _ _ Hc).
  unfold with_cache; simpl. rewrite lookup_insert_ne; [done | lia].
Qed.

Lemma untouched_with_prop g go sym r s g' :
  g ≠ g' → untouched g' s (with_prop g go sym r s).
Proof.
  intros Hne. split_and!; try done.
  unfold with_prop; simpl. by rewrite lookup_insert_ne.
Qed.




Lemma cached_cache_alloc k s g0 j :
  wf s → cached (with_cache (next s) (empty_cache k) (bump s)) g0 j = cached s g0 j.
Proof.
  intros W. unfold cached.
  change (prop_of (with_cache _ _ _) g0 singletonSymbol)
    with (prop_of s g0 singletonSymbol).
  destruct (prop_of s g0 singletonSymbol); [| done]. by apply slot_cache_alloc.
Qed.

(** Registering a new, empty cache on a graph without one changes no
    cached instance. *)
Lemma cached_prelude k g go s g0 j :
  wf s → graphs s !! g = Some go → g_props go !! singletonSymbol = None →
  cached (with_prop g go singletonSymbol (next s)
            (with_cache (next s) (empty_cache k) (bump s))) g0 j = cached s g0 j.
Proof.
  intros W Hg Hd. unfold cached. rewrite prop_of_with_prop by done.
  case_decide as Heq.
  - destruct Heq as [<- _].
    assert (prop_of s g singletonSymbol = None) as ->
      by (unfold prop_of; by rewrite Hg).
    unfold slot, with_prop, with_cache; simpl. by rewrite lookup_insert_eq.
  - change (prop_of (with_cache _ _ _) g0 singletonSymbol)
      with (prop_of s g0 singletonSymbol).
    destruct (prop_of s g0 singletonSymbol); [| done].
    by apply (slot_cache_alloc k).
Qed.

(** The preludes of the scopes, with what they leave alone. *)
Lemma singleton_miss_frame maker g i s :
  wf s → is_Some (graphs s !! g) → cached s g i = None →
  ∃ s2 r, wf s2 ∧ ext s s2 ∧ (∀ g', g ≠ g' → untouched g' s s2) ∧
    (∀ g0 j, cached s2 g0 j = cached s g0 j) ∧
    prop_of s2 g singletonSymbol = Some r ∧ slot s2 r i = None ∧
    scopes.singleton maker g i s =
      (let* value := maker g in
       let* _ := Cache_set r i value in
       ret value) s2.
Proof.
  intros W [go Hg] Hc. unfold scopes.singleton.
  erewrite bind_Return; [| unfold getOwnPropertyDescriptor; by rewrite Hg].
  destruct (g_props go !! singletonSymbol) as [r |] eqn:Hd.
  - assert (prop_of s g singletonSymbol = Some r) as Hp
      by (unfold prop_of; by rewrite Hg).
    destruct (wf_props _ W _ _ _ Hp) as [c Hcr].
    unfold cached in Hc. rewrite Hp in Hc.
    exists s, r. split_and!; try done; [apply ext_refl |].
    erewrite bind_Return; [| reflexivity].
    erewrite bind_Return; [| reflexivity].
    erewrite bind_Return; [| by apply (Cache_get_eq _ _ _ _ Hcr)].
    by rewrite Hc.
  - set (s1 := with_cache (next s) (empty_cache KMap) (bump s)).
    assert (wf s1) as W1 by (by apply wf_cache_alloc).
    assert (ext s s1) as E1 by (by apply ext_cache_alloc).
    assert (graphs s1 !! g = Some go) as Hg1 by done.
    assert (caches s1 !! next s = Some (empty_cache KMap)) as Hc1
      by (unfold s1, with_cache; simpl; by rewrite lookup_insert_eq).
    set (s2 := with_prop g go singletonSymbol (next s) s1).
    assert (slot s2 (next s) i = None) as Hs2.
    { unfold slot, s2; simpl. unfold s1, with_cache; simpl.
      by rewrite lookup_insert_eq. }
    exists s2, (next s). split_and!; try done.
    + eapply wf_with_prop; try done. intros g0 sym'.
      by apply unregistered_cache_alloc.
    + eapply ext_trans; [exact E1 |]. by apply ext_with_prop.
    + intros g' Hne.
      eapply untouched_trans; [by apply untouched_cache_alloc |].
      by apply untouched_with_prop.
    + intros g0 j. by apply cached_prelude.
    + unfold s2. rewrite prop_of_with_prop by done. by rewrite decide_True.
    + erewrite bind_Return; [| apply Cache_new_eq].
      erewrite bind_Return; [| by apply defineProperty_new].
      fold s1 s2.
      erewrite bind_Return; [| by apply (Cache_get_eq _ _ _ (empty_cache KMap))].
      by rewrite Hs2.
Qed.

Lemma weak_first_frame maker g i s :
  wf s → is_Some (graphs s !! g) → prop_of s g singletonSymbol = None →
  ∃ s2, wf s2 ∧ ext s s2 ∧ (∀ g', g ≠ g' → untouched g' s s2) ∧
    (∀ g0 j, cached s2 g0 j = cached s g0 j) ∧
    prop_of s2 g singletonSymbol = Some (next s) ∧
    caches s2 !! next s = Some (empty_cache KWeakMap) ∧
    scopes.weak maker g i s =
      (let* value := maker g in
       let* _ := Cache_set (next s) i VSingletonFn in
       ret value) s2.
Proof.
  intros W [go Hg] Hp.
  destruct (wf_graphs _ W _ _ Hg) as (_ & _ & Hweak).
  assert (g_props go !! singletonSymbol = None) as Hd
    by (unfold prop_of in Hp; by rewrite Hg in Hp).
  set (s1 := with_cache (next s) (empty_cache KWeakMap) (bump s)).
  assert (wf s1) as W1 by (by apply wf_cache_alloc).
  assert (ext s s1) as E1 by (by apply ext_cache_alloc).
  assert (graphs s1 !! g = Some go) as Hg1 by done.
  assert (caches s1 !! next s = Some (empty_cache KWeakMap)) as Hc1
    by (unfold s1, with_cache; simpl; by rewrite lookup_insert_eq).
  set (s2 := with_prop g go singletonSymbol (next s) s1).
  assert (slot s2 (next s) i = None) as Hs2.
  { unfold slot, s2; simpl. unfold s1, with_cache; simpl.
    by rewrite lookup_insert_eq. }
  exists s2. split_and!; try done.
  - eapply wf_with_prop; try done. intros g0 sym'.
    by apply unregistered_cache_alloc.
  - eapply ext_trans; [exact E1 |]. by apply ext_with_prop.
  - intros g' Hne.
    eapply untouched_trans; [by apply untouched_cache_alloc |].
    by apply untouched_with_prop.
  - intros g0 j. by apply cached_prelude.
  - unfold s2. rewrite prop_of_with_prop by done. by rewrite decide_True.
  - unfold scopes.weak.
    erewrite bind_Return; [| unfold getOwnPropertyDescriptor; by rewrite Hg, Hweak].
    erewrite bind_Return; [| apply Cache_new_eq].
    erewrite bind_Return; [| by apply defineProperty_new].
    fold s1 s2.
    erewrite bind_Return; [| by apply (Cache_get_eq _ _ _ (empty_cache KWeakMap))].
    by rewrite Hs2.
Qed.





Lemma twin_heap_eq : exec_ops twin_ops initial = Some twin_heap.
Proof. reflexivity. Qed.


(** ** Resolving in a loop *)

Lemma times_S {A} n (m : M A) s v s1 vs s2 :
  m s = Return v s1 → times n m s1 = Return vs s2 →
  times (S n) m s = Return (v :: vs) s2.
Proof.
  intros H1 H2. simpl. erewrite bind_Return; [| exact H1].
  erewrite bind_Return; [| exact H2]. done.
Qed.

Lemma times_hit n fuel g i p s v :
  wf s → bound s g i p → p_scope p = ScopeSingleton → cached s g i = Some v →
  times n (resolve (S fuel) g i) s = Return (replicate n v) s.
Proof.
  intros W Hb Hsc Hc. induction n as [| n IH]; [done |].
  apply (times_S _ _ _ _ s); [| exact IH].
  rewrite (resolve_bound _ _ _ p) by done. unfold call_provider.
  rewrite Hsc. by apply singleton_hit.
Qed.

Lemma wf_app_heap coin : wf (app_heap coin).
Proof.
  apply (exec_ops_sound
           [OpStart CoffeeShop.Heater
              (if coin then CoffeeShop.ElectricHeater else CoffeeApp.GasHeater) ScopeNone;
            OpAdd {| b_map := 0 |} CoffeeShop.Pump CoffeeShop.Thermosiphon ScopeNone;
            OpAdd {| b_map := 1 |} CoffeeShop.CoffeeMaker CoffeeShop.CoffeeMakerC ScopeNone;
            OpBuild {| b_map := 2 |}] initial);
    [apply wf_initial | by destruct coin].
Qed.

Lemma app_resolvable coin :
  resolvable (app_bindings coin) (λ i, i) CoffeeShop.CoffeeMaker.
Proof.
  unfold resolvable.
  eapply acyclic_Resolve; [by destruct coin | done | cbv; lia | | done | constructor].
  intros _. simpl.
  eapply acyclic_Resolve; [by destruct coin | done | cbv; lia | | done | constructor].
  intros _. simpl.
  eapply acyclic_Resolve;
    [by destruct coin | done | cbv; lia | done | by destruct coin | constructor].
Qed.

(** X7: resolving an interface of scope [none] in a loop, as the loop
    around [coffeeShop.make()] does.  When the interface is resolvable in
    the graph (it and every interface that the constructors can resolve on the
    way are bound by providers that are not weak-scoped, constructors bound
    by [start] resolve nothing, no constructor on the way can throw, and there
    is no cycle), [n] consecutive calls of [resolve] return [n] instances
    of the class bound to it, no two of them the same object, and the
    constructor has run [n] times. *)
Theorem none_scope_in_a_loop s g i p m rk fuel n :
  wf s → bindings s g = Some m → m !! i = Some p → p_scope p = ScopeNone →
  resolvable m rk i → rk i ≤ fuel →
  ∃ vs s', times n (resolve (S fuel) g i) s = Return vs s' ∧
    length vs = n ∧ NoDup vs ∧
    Forall (λ v, ∃ o, v = VObj (c_name (p_ctor p)) o) vs ∧
    invocations s' g i = n + invocations s g i.
Proof.
  intros W Hb Hi Hsc Hres Hfuel.
  assert (∀ s0, wf s0 → bindings s0 g = Some m →
            ∃ vs s', times n (resolve (S fuel) g i) s0 = Return vs s' ∧
              length vs = n ∧ NoDup vs ∧
              Forall (λ v, ∃ o, v = VObj (c_name (p_ctor p)) o ∧ next s0 ≤ o) vs ∧
              invocations s' g i = n + invocations s0 g i) as Hloop.
  { induction n as [| n IH]; intros s0 W0 Hb0.
    { exists [], s0. split_and!; try done; constructor. }
    destruct (resolvable_total g m rk i fuel s0 Hres Hfuel W0 Hb0)
      as (p' & v & s1 & Hi' & Hr & W1 & E1 & _ & Hd).
    assert (p' = p) as -> by congruence.
    rewrite Hsc in Hd. destruct Hd as [(o & -> & Hlo & Hhi) Hinv].
    destruct (IH s1 W1 (ext_bindings _ _ _ _ E1 Hb0))
      as (vs & s' & Hrun & Hlen & Hnd & Hall & Hinv').
    exists (VObj (c_name (p_ctor p)) o :: vs), s'. split_and!.
    - by apply (times_S _ _ _ _ s1).
    - simpl. by rewrite Hlen.
    - apply NoDup_cons. split; [| done]. intros Hin.
      rewrite Forall_forall in Hall. destruct (Hall _ Hin) as (o' & [= <-] & Ho'). lia.
    - apply Forall_cons. split; [eauto |].
      eapply Forall_impl; [exact Hall |]. intros v (o' & -> & Ho'). exists o'.
      split; [done |]. lia.
    - rewrite Hinv', Hinv. lia. }
  destruct (Hloop s W Hb) as (vs & s' & Hrun & Hlen & Hnd & Hall & Hinv).
  exists vs, s'. split_and!; try done.
  eapply Forall_impl; [exact Hall |]. intros v (o & -> & _). eauto.
Qed.

Lemma none_scope_in_a_loop_witness :
  let p := {| p_scope := ScopeNone; p_ctor := CoffeeShop.CoffeeMakerC; p_graph := true |} in
  ∃ vs s', times 5 (CoffeeApp.make 4 shop_graph) (app_heap false) = Return vs s' ∧
    length vs = 5 ∧ NoDup vs ∧
    Forall (λ v, ∃ o, v = VObj (c_name (p_ctor p)) o) vs ∧
    invocations s' shop_graph CoffeeShop.CoffeeMaker =
      5 + invocations (app_heap false) shop_graph CoffeeShop.CoffeeMaker.
Proof.
  apply (none_scope_in_a_loop (app_heap false) shop_graph CoffeeShop.CoffeeMaker _
           (app_bindings false) (λ i, i) 3 5 (wf_app_heap false)).
  - reflexivity.
  - reflexivity.
  - reflexivity.
  - apply app_resolvable.
  - reflexivity.
Defined.

(** X8: resolving a singleton-scoped interface in a loop, as the loop
    around [coffeeLibrary.borrow()] does.  When the interface is resolvable
    in the graph (it and every interface that the constructors can resolve on
    the way are bound by providers that are not weak-scoped, constructors
    bound by [start] resolve nothing, no constructor on the way can throw, and
    there is no cycle), consecutive calls of [resolve] all return one and
    the same instance, which is cached afterwards, and the constructor has
    run once if nothing was cached before and not at all otherwise. *)
Theorem singleton_scope_in_a_loop s g i p m rk fuel n :
  wf s → bindings s g = Some m → m !! i = Some p → p_scope p = ScopeSingleton →
  resolvable m rk i → rk i ≤ fuel →
  ∃ v s', times (S n) (resolve (S fuel) g i) s = Return (replicate (S n) v) s' ∧
    is_instance v ∧ cached s' g i = Some v ∧
    invocations s' g i =
      invocations s g i + match cached s g i with Some _ => 0 | None => 1 end.
Proof.
  intros W Hb Hi Hsc Hres Hfuel.
  assert (bound s g i p) as Hbd by (by exists m).
  destruct (resolvable_total g m rk i fuel s Hres Hfuel W Hb)
    as (p' & v & s1 & Hi' & Hr & W1 & E1 & _ & Hd).
  assert (p' = p) as -> by congruence.
  destruct (resolve_singleton _ _ _ _ _ _ _ W Hbd Hsc Hr) as (_ & _ & Hc1 & Hinst).
  exists v, s1. split_and!; try done.
  - apply (times_S _ _ _ _ s1); [done |].
    apply (times_hit _ _ _ _ p); try done. by apply (ext_bound _ _ _ _ _ E1).
  - rewrite Hsc in Hd. destruct (cached s g i) as [v0 |].
    + destruct Hd as [_ ->]. lia.
    + destruct Hd as [_ ->]. lia.
Qed.

Lemma singleton_scope_in_a_loop_witness :
  ∃ v s',
    times 5 (CoffeeApp.borrow 4 shop_graph) (heap_after CoffeeApp.CoffeeLibrary_graph) =
      Return (replicate 5 v) s' ∧
    is_instance v ∧ cached s' shop_graph CoffeeShop.CoffeeMaker = Some v ∧
    invocations s' shop_graph CoffeeShop.CoffeeMaker =
      invocations (heap_after CoffeeApp.CoffeeLibrary_graph) shop_graph
        CoffeeShop.CoffeeMaker +
      match cached (heap_after CoffeeApp.CoffeeLibrary_graph) shop_graph
              CoffeeShop.CoffeeMaker with
      | Some _ => 0
      | None => 1
      end.
Proof.
  apply (singleton_scope_in_a_loop (heap_after CoffeeApp.CoffeeLibrary_graph) shop_graph
           CoffeeShop.CoffeeMaker
           {| p_scope := ScopeSingleton; p_ctor := CoffeeShop.CoffeeMakerC;
              p_graph := true |}
           (shop_bindings ScopeSingleton) (λ i, i) 3 4 (wf_shop_heap ScopeSingleton)).
  - reflexivity.
  - reflexivity.
  - reflexivity.
  - by apply shop_resolvable.
  - reflexivity.
Defined.

(** ** Cached objects are instances of the bound class *)

Lemma typed_initial : typed initial.
Proof. intros g i cls o H. done. Qed.

Lemma typed_later s s' :
  ext s s' → (∀ g i, cached s' g i = cached s g i) → typed s → typed s'.
Proof.
  intros E Hc T g i cls o H. rewrite Hc in H.
  destruct (T _ _ _ _ H) as (p & Hb & ->). exists p. split; [| done].
  by apply (ext_bound _ _ _ _ _ E).
Qed.

Lemma typed_with_slot g r c i v s p :
  wf s → typed s → prop_of s g singletonSymbol = Some r → caches s !! r = Some c →
  bound s g i p → (∀ cls o, v = VObj cls o → cls = c_name (p_ctor p)) →
  typed (with_slot r c i v s).
Proof.
  intros W T Hp Hc Hb Hv g0 j cls o H.
  destruct (decide ((g, i) = (g0, j))) as [[= <- <-] | Hne].
  - exists p. split; [exact Hb |]. apply (Hv cls o).
    unfold cached in H.
    change (prop_of (with_slot r c i v s) g singletonSymbol)
      with (prop_of s g singletonSymbol) in H.
    rewrite Hp in H. rewrite slot_with_slot in H by done.
    rewrite decide_True in H by done. congruence.
  - rewrite (cached_with_slot s g0 j g r c i v) in H by done.
    exact (T _ _ _ _ H).
Qed.

Lemma run_body_typed cls res b :
  (∀ i s, wf s → typed s → post (res i s) (keeps_typed s) (keeps_typed s)) →
  ∀ s, wf s → typed s → post (run_body cls res b s) (keeps_typed s) (keeps_typed s).
Proof.
  intros Hres. induction b as [| i k IH |]; intros s W T; simpl.
  - split_and!; [done | apply ext_refl | done].
  - apply post_bind. eapply post_mono; [by apply Hres | | done].
    intros v s1 (W1 & E1 & T1). eapply post_mono; [by apply IH | |];
      intros ? s2 (W2 & E2 & T2); split_and!; eauto using ext_trans.
  - split_and!; [done | apply ext_refl | done].
Qed.

Lemma maker_of_typed rec p g i s :
  (∀ j s, wf s → typed s → post (rec g j s) (keeps_typed s) (keeps_typed s)) →
  wf s → typed s → is_Some (graphs s !! g) →
  post (maker_of rec p i g s) (λ _ s', typed s') (λ _ s', typed s').
Proof.
  intros Hrec W T Hlive. unfold maker_of. apply post_bind. simpl.
  unfold new_instance. apply post_bind. simpl. apply post_bind.
  eapply post_mono; [apply run_body_typed | |].
  - intros j s0 W0 T0. destruct (p_graph p); [by apply Hrec |].
    split_and!; [done | apply ext_refl | done].
  - apply wf_bump. by apply wf_push_log.
  - exact T.
  - by intros _ s' (_ & _ & T').
  - by intros e s' (_ & _ & T').
Qed.

Lemma resolve_typed fuel : ∀ g i s,
  wf s → typed s →
  post (resolve fuel g i s) (λ _ s', typed s') (λ _ s', typed s').
Proof.
  induction fuel as [| fuel IH]; intros g i s W T.
  { destruct (resolve_cases 0 g i s) as [[p Hb] | [e He]].
    - by rewrite (resolve_zero _ _ p).
    - by rewrite He. }
  destruct (resolve_cases (S fuel) g i s) as [[p Hb] | [e He]];
    [| by rewrite He].
  assert (∀ j s0, wf s0 → typed s0 →
            post (resolve fuel g j s0) (keeps_typed s0) (keeps_typed s0)) as Hrec.
  { intros j s0 W0 T0.
    eapply post_mono;
      [apply (post_both _ _ _ _ _ (resolve_sound fuel g j s0 W0) (IH g j s0 W0 T0)) | |].
    - intros v s1 [[W1 E1] T1]. by split_and!.
    - intros e s1 [[W1 E1] T1]. by split_and!. }
  pose proof (bound_live _ _ _ _ Hb) as Hlive.
  assert (∀ s2, wf s2 → ext s s2 → typed s2 →
            (p_scope p = ScopeSingleton → cached s2 g i = None) →
            post (maker_of (resolve fuel) p i g s2)
              (λ v s3, wf s3 ∧ ext s2 s3 ∧ typed s3 ∧
                       ∃ o, v = VObj (c_name (p_ctor p)) o)
              (λ _ s3, typed s3))
    as Hmaker.
  { intros s2 W2 E2 T2 Hnone2.
    pose proof (ext_bound _ _ _ _ _ E2 Hb) as Hb2.
    eapply post_mono;
      [apply (post_both _ _ _ _ _
                (maker_of_sound (resolve fuel) p g i (resolve_sound fuel) s2 W2 Hb2 Hnone2)
                (maker_of_typed (resolve fuel) p g i s2 Hrec W2 T2
                   (bound_live _ _ _ _ Hb2))) | |].
    - intros v s3 [(W3 & E3 & o & -> & _) T3]. split_and!; eauto.
    - by intros e s3 [_ T3]. }
  rewrite (resolve_bound _ _ _ p) by done. unfold call_provider.
  destruct (p_scope p) eqn:Hsc; unfold apply_scope.
  - unfold scopes.none.
    eapply post_mono; [apply (Hmaker s W (ext_refl s) T); done | |].
    + by intros ? ? (_ & _ & T' & _).
    + done.
  - destruct (cached s g i) as [v |] eqn:Hc.
    { by rewrite (singleton_hit _ _ _ _ v). }
    destruct (singleton_miss_frame (maker_of (resolve fuel) p i) g i s W Hlive Hc)
      as (s2 & r & W2 & E2 & _ & Hsame & Hp2 & Hs2 & ->).
    apply post_bind.
    eapply post_mono; [apply (Hmaker s2 W2 E2) | | done].
    + by apply (typed_later s).
    + intros _. unfold cached. by rewrite Hp2.
    + intros v s3 (W3 & E3 & T3 & o & ->).
      destruct (wf_props _ W2 _ _ _ Hp2) as [c Hcr].
      destruct (ext_caches _ _ E3 _ _ Hcr) as (c3 & Hc3 & _).
      apply post_bind. rewrite (Cache_set_eq _ _ _ _ _ Hc3). simpl.
      apply (typed_with_slot g _ _ _ _ _ p); try done.
      * by apply (ext_props _ _ E3).
      * apply (ext_bound _ _ _ _ _ E3). by apply (ext_bound _ _ _ _ _ E2).
      * by intros cls o' [= -> _].
  - destruct (prop_of s g singletonSymbol) as [r |] eqn:Hp.
    { rewrite (weak_defined _ _ _ _ r) by done. simpl.
      apply (typed_later s); [by apply ext_cache_alloc | | done].
      intros g0 j. by apply cached_cache_alloc. }
    destruct (weak_first_frame (maker_of (resolve fuel) p i) g i s W Hlive Hp)
      as (s2 & W2 & E2 & _ & Hsame & Hp2 & Hc2 & ->).
    apply post_bind.
    eapply post_mono; [apply (Hmaker s2 W2 E2) | | done].
    + by apply (typed_later s).
    + done.
    + intros v s3 (W3 & E3 & T3 & o & ->).
      destruct (ext_caches _ _ E3 _ _ Hc2) as (c3 & Hc3 & _).
      apply post_bind. rewrite (Cache_set_eq _ _ _ _ _ Hc3). simpl.
      apply (typed_with_slot g _ _ _ _ _ p); try done.
      * by apply (ext_props _ _ E3).
      * apply (ext_bound _ _ _ _ _ E3). by apply (ext_bound _ _ _ _ _ E2).
Qed.

Lemma typed_with_map content s : wf s → typed s → typed (with_map (next s) content (bump s)).
Proof.
  intros W T. apply (typed_later s); [by apply ext_with_map | done | done].
Qed.

Lemma exec_op_typed op s s' : wf s → typed s → exec_op op s = Some s' → typed s'.
Proof.
  intros W T H. destruct op; unfold exec_op in H.
  - rewrite start_eq in H. simpl in H. injection H as <-. by apply typed_with_map.
  - rewrite add_eq in H. simpl in H. injection H as <-. by apply typed_with_map.
  - pose proof (build_sound b s W) as Hs. rewrite build_eq in H, Hs.
    simpl in H. injection H as <-. destruct Hs as [_ E].
    apply (typed_later s); [done | | done].
    intros g0 j. unfold cached, prop_of, with_graph; simpl.
    destruct (decide (next s = g0)) as [<- | Hne].
    + rewrite lookup_insert_eq; simpl. by rewrite (fresh_graph _ W).
    + by rewrite lookup_insert_ne.
  - unfold modify in H. revert H. unfold bind, Graph_map.
    destruct (graphs s !! g); simpl; by intros [= <-].
  - apply (post_final _ typed _) with (2 := H). by apply resolve_typed.
Qed.

Lemma exec_ops_typed ops s s' :
  wf s → typed s → exec_ops ops s = Some s' → typed s'.
Proof.
  revert s. induction ops as [| op ops IH]; intros s W T; simpl.
  - by intros [= <-].
  - destruct (exec_op op s) as [s1 |] eqn:H1; [| done].
    destruct (exec_op_sound _ _ _ W H1) as [W1 _].
    apply IH; [done |]. exact (exec_op_typed op s s1 W T H1).
Qed.

(** X9: what [resolve] returns is an instance of the class bound to the
    interface.  In every heap that operations of a client reach from the
    empty one, a [g.resolve(i)] that returns has [i] bound in [g], and
    returns an object of the class of that binding: never an object
    cached for another interface, and never the function that the weak
    scope stores. *)
Theorem resolve_returns_bound_class ops s :
  exec_ops ops initial = Some s →
  ∀ fuel g i v s', resolve fuel g i s = Return v s' →
    ∃ p o, bound s g i p ∧ v = VObj (c_name (p_ctor p)) o.
Proof.
  intros Hops fuel g i v s' Hr.
  destruct (exec_ops_sound _ _ _ wf_initial Hops) as [W _].
  pose proof (exec_ops_typed _ _ _ wf_initial typed_initial Hops) as T.
  destruct (resolve_cases fuel g i s) as [[p Hb] | [e He]]; [| congruence].
  destruct (decide (p_scope p = ScopeSingleton ∧ is_Some (cached s g i)))
    as [[Hsc [v0 Hc]] | Hnot].
  - destruct (resolve_singleton _ _ _ _ _ _ _ W Hb Hsc Hr) as (_ & _ & _ & Hinst).
    destruct fuel as [| fuel]; [by rewrite (resolve_zero _ _ p) in Hr |].
    rewrite (resolve_bound _ _ _ p) in Hr by done. unfold call_provider in Hr.
    rewrite Hsc in Hr. unfold apply_scope in Hr.
    rewrite (singleton_hit _ _ _ _ v0) in Hr by done. injection Hr as <- <-.
    destruct v0 as [cls o |]; [| done].
    destruct (T _ _ _ _ Hc) as (p' & Hb' & ->). eauto.
  - destruct (resolve_returns_instance fuel g i p s v s' W Hb) as [o ->]; [| done |].
    + intros Hsc. destruct (cached s g i) as [v0 |] eqn:Hc; [| done].
      exfalso. apply Hnot. eauto.
    + eauto.
Qed.

Lemma resolve_returns_bound_class_witness :
  ∃ p o, bound twin_heap 1 CoffeeShop.Heater p ∧ VObj 11 8 = VObj (c_name (p_ctor p)) o.
Proof.
  apply (resolve_returns_bound_class twin_ops twin_heap twin_heap_eq
           1 1 CoffeeShop.Heater (VObj 11 8)
           (default initial (final (resolve 1 1 CoffeeShop.Heater twin_heap)))).
  vm_compute. reflexivity.
Defined.

(** ** From a graph back to a builder *)

(** X10: [build] followed by [modify] gives back the bindings of the
    builder.  [modify] allocates nothing and hands out a builder over the
    map of the graph, which is not the map of the builder that built it;
    the two builders hold the same bindings, an [add] to either gives the
    same bindings, and the graph keeps its own. *)
Theorem modify_restores_builder s b :
  wf s → is_Some (maps s !! b_map b) →
  ∃ g s1 b', build b s = Return g s1 ∧ modify g s1 = Return b' s1 ∧
    b_map b' ≠ b_map b ∧
    builder_bindings s1 b' = builder_bindings s b ∧
    builder_bindings s1 b = builder_bindings s b ∧
    ∀ impl ctor scope, ∃ b1 s2 b2 s3,
      add b' impl ctor scope s1 = Return b1 s2 ∧
      add b impl ctor scope s1 = Return b2 s3 ∧
      builder_bindings s2 b1 = builder_bindings s3 b2 ∧
      bindings s2 g = Some (builder_bindings s b).
Proof.
  intros W Hlive.
  destruct (build_spec b s) as (s1 & Hbuild & Hbind & _ & _ & Hwf).
  destruct (Hwf W) as (W1 & E1 & _ & Hkeep).
  assert (graphs s1 !! next s = Some {| g_map := S (next s); g_props := ∅ |}) as Hg.
  { rewrite build_eq in Hbuild. injection Hbuild as <-.
    unfold with_graph; simpl. by rewrite lookup_insert_eq. }
  assert (builder_bindings s1 {| b_map := S (next s) |} = builder_bindings s b) as Hb'.
  { unfold bindings in Hbind. rewrite Hg in Hbind. simpl in Hbind.
    unfold builder_bindings at 1. simpl. by rewrite Hbind. }
  exists (next s), s1, {| b_map := S (next s) |}. split_and!; try done.
  - by rewrite (modify_eq _ _ _ Hg).
  - simpl. destruct Hlive as [c Hc]. pose proof (wf_maps _ W _ _ Hc). lia.
  - by apply Hkeep.
  - intros impl ctor scope.
    destruct (add_spec {| b_map := S (next s) |} impl ctor scope s1)
      as (s2 & Hadd1 & Hb1 & Hwf1).
    destruct (add_spec b impl ctor scope s1) as (s3 & Hadd2 & Hb2 & _).
    destruct (Hwf1 W1) as (_ & E2 & _).
    eexists _, s2, _, s3. split_and!; try done.
    + rewrite Hb1, Hb2, Hb'. by rewrite (Hkeep b Hlive).
    + by apply (ext_bindings _ _ _ _ E2).
Qed.

Lemma modify_restores_builder_witness :
  ∃ g s1 b', build heater_builder heater_heap = Return g s1 ∧
    modify g s1 = Return b' s1 ∧
    b_map b' ≠ b_map heater_builder ∧
    builder_bindings s1 b' = builder_bindings heater_heap heater_builder ∧
    builder_bindings s1 heater_builder = builder_bindings heater_heap heater_builder ∧
    ∀ impl ctor scope, ∃ b1 s2 b2 s3,
      add b' impl ctor scope s1 = Return b1 s2 ∧
      add heater_builder impl ctor scope s1 = Return b2 s3 ∧
      builder_bindings s2 b1 = builder_bindings s3 b2 ∧
      bindings s2 g = Some (builder_bindings heater_heap heater_builder).
Proof.
  apply (modify_restores_builder heater_heap heater_builder wf_heater_heap).
  eexists. reflexivity.
Defined.

(** ** One symbol for two scopes *)

(** X11: the singleton scope uses whatever is registered under
    [singletonSymbol], also the [WeakMap] that a weak-scoped resolution
    registered there.  On a graph with such a [WeakMap], whenever the
    resolution of a singleton-scoped interface returns, it returns an
    instance that is stored in that [WeakMap], beside the entries of the
    weak scope, which stay as they are, and the property still names that
    [WeakMap].  The resolution does return when the interface is resolvable
    in the graph (it and every interface that the constructors can resolve on
    the way are bound by providers that are not weak-scoped, constructors
    bound by [start] resolve nothing, no constructor on the way can throw, and
    there is no cycle). *)
Theorem singleton_shares_weak_cache s g j p r c :
  wf s → bound s g j p → p_scope p = ScopeSingleton →
  prop_of s g singletonSymbol = Some r → caches s !! r = Some c →
  c_kind c = KWeakMap →
  (∀ fuel v s', resolve fuel g j s = Return v s' →
     is_instance v ∧ prop_of s' g singletonSymbol = Some r ∧
     ∃ c', caches s' !! r = Some c' ∧ c_kind c' = KWeakMap ∧
       c_entries c' !! j = Some v ∧
       ∀ i, c_entries c !! i = Some VSingletonFn →
            c_entries c' !! i = Some VSingletonFn) ∧
  (∀ m rk fuel, bindings s g = Some m → resolvable m rk j → rk j ≤ fuel →
     ∃ v s', resolve (S fuel) g j s = Return v s').
Proof.
  intros W Hbd Hsc Hp Hc Hk. split.
  - intros fuel v s' Hr.
    destruct (resolve_singleton _ _ _ _ _ _ _ W Hbd Hsc Hr) as (W' & E' & Hc' & Hinst).
    pose proof (ext_props _ _ E' _ _ _ Hp) as Hp'.
    destruct (ext_caches _ _ E' _ _ Hc) as (c' & Hcr' & Hk').
    split_and!; try done. exists c'. split_and!; try done.
    + congruence.
    + unfold cached in Hc'. rewrite Hp' in Hc'. unfold slot in Hc'.
      by rewrite Hcr' in Hc'.
    + intros i Hi.
      assert (slot s r i = Some VSingletonFn) as Hs by (unfold slot; by rewrite Hc).
      apply (ext_slots _ _ E') in Hs. unfold slot in Hs. by rewrite Hcr' in Hs.
  - intros m rk fuel Hb Hres Hfuel.
    destruct (resolvable_total g m rk j fuel s Hres Hfuel W Hb)
      as (p' & v & s' & _ & Hr & _).
    eauto.
Qed.

Lemma shared_cache_heap_eq :
  exec_ops (weak_heater_ops ScopeNone ++ [OpResolve 1 3 CoffeeShop.Heater]) initial =
    Some shared_cache_heap.
Proof. vm_compute. reflexivity. Qed.

Lemma singleton_shares_weak_cache_witness :
  let s := shared_cache_heap in
  let j := CoffeeShop.CoffeeMaker in
  let c := {| c_kind := KWeakMap;
              c_entries := {[ CoffeeShop.Heater := VSingletonFn ]} |} in
  (∀ fuel v s', resolve fuel 3 j s = Return v s' →
     is_instance v ∧ prop_of s' 3 singletonSymbol = Some 5 ∧
     ∃ c', caches s' !! 5 = Some c' ∧ c_kind c' = KWeakMap ∧
       c_entries c' !! j = Some v ∧
       ∀ i, c_entries c !! i = Some VSingletonFn →
            c_entries c' !! i = Some VSingletonFn) ∧
  (∀ m rk fuel, bindings s 3 = Some m → resolvable m rk j → rk j ≤ fuel →
     ∃ v s', resolve (S fuel) 3 j s = Return v s').
Proof.
  apply (singleton_shares_weak_cache shared_cache_heap 3 CoffeeShop.CoffeeMaker
           {| p_scope := ScopeSingleton; p_ctor := Kettle; p_graph := true |} 5).
  - apply (exec_ops_sound _ _ _ wf_initial shared_cache_heap_eq).
  - eexists. split; vm_compute; reflexivity.
  - reflexivity.
  - vm_compute. reflexivity.
  - vm_compute. reflexivity.
  - reflexivity.
Defined.

(** In that heap the kettle is resolvable: the resolution does return, and
    the kettle sits in the [WeakMap] beside the entry of the heater. *)
Example kettle_in_the_weak_map :
  match resolve 1 3 CoffeeShop.CoffeeMaker shared_cache_heap with
  | Return v s' =>
      v = VObj (c_name Kettle) 7 ∧
      prop_of s' 3 singletonSymbol = Some 5 ∧
      slot s' 5 CoffeeShop.CoffeeMaker = Some v ∧
      slot s' 5 CoffeeShop.Heater = Some VSingletonFn
  | _ => False
  end.
Proof. vm_compute. by split_and!. Qed.
